(** * uavcan::Multiset — a shallow embedding of [uavcan/util/multiset.hpp]

    The container keeps [NumStaticEntries] inline slots and overflows into
    chunks of [NumItems] slots obtained from a pool allocator.  Slots never
    move; a removal destroys the element in place and a compaction pass
    hands fully empty chunks back to the allocator. *)

From Stdlib Require Import List ZArith Lia Bool Permutation.
Import ListNotations.

Set Implicit Arguments.

(** ** Machine integers *)

(** [unsigned] counters ([num_removed], [IndexPredicate::index], the totals
    of [getNumStaticItems]/[getNumDynamicItems]) are 32-bit and wrap. *)
Definition UINT_MODULUS : Z := 2 ^ 32.

Definition to_unsigned (z : Z) : Z := z mod UINT_MODULUS.

(** ** External collaborators *)

(** Modelled from the spec: [IPoolAllocator] ([uavcan/dynamic_memory.hpp] is
    not part of the sources).  [allocate] takes the requested size and
    yields a block address, or nothing on exhaustion; [deallocate] takes a
    block back; both may change the allocator's own state. *)
Class IPoolAllocator (A : Type) : Type := {
  allocate : A -> nat -> option nat * A;
  deallocate : nat -> A -> A
}.

(** Modelled from the spec: [LinkedListRoot<Chunk>::insert]
    ([uavcan/util/linked_list.hpp] is not part of the sources) puts the node
    at the head of the sequence. *)
Definition LinkedListRoot_insert {X : Type} (node : X) (root : list X) : list X :=
  node :: root.

(** [MemPoolBlockSize] of the default build configuration. *)
Definition MemPoolBlockSize : nat := 64.

(** A pool of free blocks of [MemPoolBlockSize] bytes: the allocator used in
    the worked examples. *)
#[export] Instance FreeListAllocator : IPoolAllocator (list nat) := {
  allocate := fun free size =>
    if size <=? MemPoolBlockSize then
      match free with
      | [] => (None, [])
      | b :: rest => (Some b, rest)
      end
    else (None, free);
  deallocate := fun b free => b :: free
}.

(** ** Generic list helpers *)

Fixpoint update_nth {X : Type} (f : X -> X) (l : list X) (i : nat) : list X :=
  match l, i with
  | [], _ => []
  | x :: rest, O => f x :: rest
  | x :: rest, S j => x :: update_nth f rest j
  end.

(** ** The container *)

Inductive RemoveStrategy : Type := RemoveOne | RemoveAll.

(** A pointer to an [Item]: a static slot by index, or slot [i] of the
    [k]-th chunk of the list. *)
Inductive SlotRef : Type :=
| StaticSlot (i : nat)
| ChunkSlot (k i : nat).

Definition SlotRef_eqb (r r' : SlotRef) : bool :=
  match r, r' with
  | StaticSlot i, StaticSlot i' => i =? i'
  | ChunkSlot k i, ChunkSlot k' i' => (k =? k') && (i =? i')
  | _, _ => false
  end.

(** The index of the first occurrence of a pointer. *)
Fixpoint index_of (r : SlotRef) (l : list SlotRef) : option nat :=
  match l with
  | [] => None
  | r' :: rest =>
      if SlotRef_eqb r r' then Some 0 else option_map S (index_of r rest)
  end.

Section Multiset.

Variable T : Type.

(** [struct Item]: [ptr] is null or points at the element living in the
    item's own [pool]. *)
Definition Item : Type := option T.

Definition isConstructed (it : Item) : bool :=
  match it with
  | Some _ => true
  | None => false
  end.

Definition Item_destroy (it : Item) : Item :=
  match it with
  | Some _ => None
  | None => it
  end.

(** [struct Chunk]: the pool block it lives in and its [NumItems] items. *)
Record Chunk : Type := mkChunk {
  block : nat;
  items : list Item
}.

(** The data members: the chunk list from its head on, and the static
    array.  The allocator is borrowed, so its state is passed to and
    returned by the operations that use it.  Arrays are lists, and a loop
    over all indices of an array is a recursion over the list. *)
Record Multiset : Type := mkMultiset {
  list_ : list Chunk;
  static_ : list Item
}.

Context {A : Type} {allocator_ : IPoolAllocator A}.

(** The template parameter, [Chunk::NumItems], [sizeof(Chunk)] and the
    build flag. *)
Variable NumStaticEntries : nat.
Variable NumItems : nat.
Variable sizeof_Chunk : nat.
Variable UAVCAN_TINY : bool.

(** The constructor: every static item is default-constructed (empty) and
    the chunk list is empty. *)
Definition Multiset_new : Multiset :=
  {| list_ := []; static_ := repeat None NumStaticEntries |}.

(** *** Chunk *)

Definition Chunk_instantiate (a : A) : option Chunk * A :=
  match allocate a sizeof_Chunk with
  | (None, a') => (None, a')
  | (Some praw, a') => (Some {| block := praw; items := repeat None NumItems |}, a')
  end.

(** [~Chunk] destroys every item, then the block goes back to the pool. *)
Definition Chunk_destroy (obj : Chunk) (a : A) : A :=
  deallocate (block obj) a.

(** The scan [for (i = ...; ...; i++) if (!items[i].isConstructed()) return items + i]. *)
Fixpoint first_free (l : list Item) (i : nat) : option nat :=
  match l with
  | [] => None
  | it :: rest => if isConstructed it then first_free rest (S i) else Some i
  end.

Definition findFreeSlot (c : Chunk) : option nat := first_free (items c) 0.

(** *** findOrCreateFreeSlot *)

Fixpoint free_in_chunks (l : list Chunk) (k : nat) : option SlotRef :=
  match l with
  | [] => None
  | p :: next =>
      match findFreeSlot p with
      | Some i => Some (ChunkSlot k i)
      | None => free_in_chunks next (S k)
      end
  end.

Definition findOrCreateFreeSlot (a : A) (m : Multiset)
  : option SlotRef * Multiset * A :=
  match (if UAVCAN_TINY then None else first_free (static_ m) 0) with
  | Some i => (Some (StaticSlot i), m, a)
  | None =>
      match free_in_chunks (list_ m) 0 with
      | Some dyn => (Some dyn, m, a)
      | None =>
          match Chunk_instantiate a with
          | (None, a') => (None, m, a')
          | (Some chunk, a') =>
              (Some (ChunkSlot 0 0),
               {| list_ := LinkedListRoot_insert chunk (list_ m);
                  static_ := static_ m |},
               a')
          end
      end
  end.

(** *** Slot access *)

Definition slot_at (m : Multiset) (r : SlotRef) : option Item :=
  match r with
  | StaticSlot i => nth_error (static_ m) i
  | ChunkSlot k i =>
      match nth_error (list_ m) k with
      | Some c => nth_error (items c) i
      | None => None
      end
  end.

Definition with_items (f : list Item -> list Item) (c : Chunk) : Chunk :=
  {| block := block c; items := f (items c) |}.

Definition write_slot (m : Multiset) (r : SlotRef) (it : Item) : Multiset :=
  match r with
  | StaticSlot i =>
      {| list_ := list_ m; static_ := update_nth (fun _ => it) (static_ m) i |}
  | ChunkSlot k i =>
      {| list_ := update_nth (with_items (fun l => update_nth (fun _ => it) l i)) (list_ m) k;
         static_ := static_ m |}
  end.

(** *** emplace

    Every overload runs the same code around a different constructor call;
    [x] is the element that constructor builds. *)
Definition emplace (x : T) (a : A) (m : Multiset)
  : option SlotRef * Multiset * A :=
  match findOrCreateFreeSlot a m with
  | (None, m', a') => (None, m', a')
  | (Some item, m', a') => (Some item, write_slot m' item (Some x), a')
  end.

(** The condition of [UAVCAN_ASSERT(item->ptr == NULL)] at the point where
    [emplace] evaluates it. *)
Definition emplace_assertion (a : A) (m : Multiset) : bool :=
  match findOrCreateFreeSlot a m with
  | (None, _, _) => true
  | (Some item, m', _) =>
      match slot_at m' item with
      | Some None => true
      | _ => false
      end
  end.

(** *** compact *)

(** The inner loop of [compact]: [remove_this] stays true unless some item
    is constructed. *)
Fixpoint remove_this (l : list Item) : bool :=
  match l with
  | [] => true
  | it :: rest => if isConstructed it then false else remove_this rest
  end.

(** The walk of [compact] over the list.  Modelled from the spec:
    [LinkedListRoot<Chunk>::remove] unlinks the node it is given and leaves
    the order of the others alone. *)
Fixpoint compact_chunks (l : list Chunk) (a : A) : list Chunk * A :=
  match l with
  | [] => ([], a)
  | p :: next =>
      if remove_this (items p) then
        compact_chunks next (Chunk_destroy p a)
      else
        let '(rest, a') := compact_chunks next a in (p :: rest, a')
  end.

Definition compact (a : A) (m : Multiset) : Multiset * A :=
  let '(l, a') := compact_chunks (list_ m) a in
  ({| list_ := l; static_ := static_ m |}, a').

(** *** Callables

    A predicate or operator is called on an element by reference: it
    answers, may change the element, and may change [St], the state it
    owns or reaches. *)
Section Traversal.

Variable St : Type.
Variable predicate : St -> T -> bool * T * St.

(** The item loop of [removeWhere] (the same for the static array and
    for a chunk). *)
Fixpoint removeWhere_items (strategy : RemoveStrategy) (l : list Item)
    (s : St) (num_removed : Z) : list Item * St * Z :=
  match l with
  | [] => ([], s, num_removed)
  | None :: rest =>
      let '(rest', s', n') := removeWhere_items strategy rest s num_removed in
      (None :: rest', s', n')
  | Some x :: rest =>
      let '(b, x', s1) := predicate s x in
      if b then
        let n1 := to_unsigned (num_removed + 1) in
        match strategy with
        | RemoveOne => (Item_destroy (Some x') :: rest, s1, n1)
        | RemoveAll =>
            let '(rest', s', n') := removeWhere_items strategy rest s1 n1 in
            (Item_destroy (Some x') :: rest', s', n')
        end
      else
        let '(rest', s', n') := removeWhere_items strategy rest s1 num_removed in
        (Some x' :: rest', s', n')
  end.

Definition stop_after_one (strategy : RemoveStrategy) (num_removed : Z) : bool :=
  (0 <? num_removed)%Z &&
  match strategy with RemoveOne => true | RemoveAll => false end.

Fixpoint removeWhere_chunks (strategy : RemoveStrategy) (l : list Chunk)
    (s : St) (num_removed : Z) : list Chunk * St * Z :=
  match l with
  | [] => ([], s, num_removed)
  | p :: next_chunk =>
      if stop_after_one strategy num_removed then (l, s, num_removed)
      else
        let '(its, s1, n1) := removeWhere_items strategy (items p) s num_removed in
        let '(rest, s2, n2) := removeWhere_chunks strategy next_chunk s1 n1 in
        ({| block := block p; items := its |} :: rest, s2, n2)
  end.

Definition removeWhere (strategy : RemoveStrategy) (s : St) (a : A) (m : Multiset)
  : Multiset * A * St :=
  let '(st1, s1, n1) :=
    if UAVCAN_TINY then (static_ m, s, 0%Z)
    else removeWhere_items strategy (static_ m) s 0%Z in
  let '(l2, s2, n2) := removeWhere_chunks strategy (list_ m) s1 n1 in
  let m2 := {| list_ := l2; static_ := st1 |} in
  if (0 <? n2)%Z then
    let '(m3, a3) := compact a m2 in (m3, a3, s2)
  else (m2, a, s2).

Definition removeAllWhere := removeWhere RemoveAll.
Definition removeFirstWhere := removeWhere RemoveOne.

(** The item loop of [find]; [i] is the index of the head of [l]. *)
Fixpoint find_items (l : list Item) (i : nat) (s : St)
  : option nat * list Item * St :=
  match l with
  | [] => (None, [], s)
  | None :: rest =>
      let '(r, rest', s') := find_items rest (S i) s in (r, None :: rest', s')
  | Some x :: rest =>
      let '(b, x', s1) := predicate s x in
      if b then (Some i, Some x' :: rest, s1)
      else
        let '(r, rest', s') := find_items rest (S i) s1 in
        (r, Some x' :: rest', s')
  end.

Fixpoint find_chunks (l : list Chunk) (k : nat) (s : St)
  : option SlotRef * list Chunk * St :=
  match l with
  | [] => (None, [], s)
  | p :: next_chunk =>
      let '(r, its, s1) := find_items (items p) 0 s in
      let p' := {| block := block p; items := its |} in
      match r with
      | Some i => (Some (ChunkSlot k i), p' :: next_chunk, s1)
      | None =>
          let '(r', rest, s2) := find_chunks next_chunk (S k) s1 in
          (r', p' :: rest, s2)
      end
  end.

Definition find (s : St) (m : Multiset) : option SlotRef * Multiset * St :=
  let '(r1, st1, s1) :=
    if UAVCAN_TINY then (None, static_ m, s)
    else find_items (static_ m) 0 s in
  match r1 with
  | Some i => (Some (StaticSlot i), {| list_ := list_ m; static_ := st1 |}, s1)
  | None =>
      let '(r2, l2, s2) := find_chunks (list_ m) 0 s1 in
      (r2, {| list_ := l2; static_ := st1 |}, s2)
  end.

End Traversal.

(** *** The predicates of the class *)

Definition YesPredicate : unit -> T -> bool * T * unit :=
  fun s x => (true, x, s).

(** [return index-- == 0;] *)
Definition IndexPredicate : Z -> T -> bool * T * Z :=
  fun index x => ((index =? 0)%Z, x, to_unsigned (index - 1)).

(** [operator==] of the element type. *)
Variable T_eqb : T -> T -> bool.

Definition ComparingPredicate (reference : T) : unit -> T -> bool * T * unit :=
  fun s sample => (T_eqb reference sample, sample, s).

Definition OperatorToFalsePredicateAdapter {St : Type} (oper : St -> T -> T * St)
  : St -> T -> bool * T * St :=
  fun s item => let '(item', s') := oper s item in (false, item', s').

(** *** Derived operations *)

(** [removeFirst] compares nothing after the first element it destroys, so
    every comparison sees what the reference reads when the call is made:
    [ref] is that value. *)
Definition removeFirst (ref : T) (a : A) (m : Multiset) : Multiset * A :=
  fst (removeFirstWhere (ComparingPredicate ref) tt a m).

Definition clear (a : A) (m : Multiset) : Multiset * A :=
  fst (removeAllWhere YesPredicate tt a m).

Definition forEach {St : Type} (oper : St -> T -> T * St) (s : St) (m : Multiset)
  : Multiset * St :=
  let '(_, m', s') := find (OperatorToFalsePredicateAdapter oper) s m in (m', s').

Definition getByIndex (index : Z) (m : Multiset) : option SlotRef * Multiset :=
  fst (find IndexPredicate index m).

Definition isEmpty (m : Multiset) : bool :=
  match fst (fst (find YesPredicate tt m)) with
  | None => true
  | Some _ => false
  end.

(** [num += items[i].isConstructed() ? 1U : 0U] over an array. *)
Fixpoint count_items (l : list Item) (num : Z) : Z :=
  match l with
  | [] => num
  | it :: rest =>
      count_items rest (to_unsigned (num + (if isConstructed it then 1 else 0)))
  end.

Fixpoint count_chunks (l : list Chunk) (num : Z) : Z :=
  match l with
  | [] => num
  | p :: next => count_chunks next (count_items (items p) num)
  end.

Definition getNumStaticItems (m : Multiset) : Z :=
  if UAVCAN_TINY then 0%Z else count_items (static_ m) 0%Z.

Definition getNumDynamicItems (m : Multiset) : Z :=
  count_chunks (list_ m) 0%Z.

Definition getSize (m : Multiset) : Z :=
  to_unsigned (getNumStaticItems m + getNumDynamicItems m).

(** ** Specification vocabulary *)

(** The static slots the build uses: none at all under [UAVCAN_TINY]. *)
Definition static_capacity (m : Multiset) : list Item :=
  if UAVCAN_TINY then [] else static_ m.

Definition no_free_slot (l : list Item) : bool := forallb isConstructed l.

Definition chunk_full (c : Chunk) : bool := no_free_slot (items c).

(** Slot [j] of [l] is empty and every slot before it is taken. *)
Definition is_first_free (l : list Item) (j : nat) : Prop :=
  nth_error l j = Some None /\ no_free_slot (firstn j l) = true.

(** The occupied slots of an array with their pointers, in index order;
    [i] is the index of the head of [l]. *)
Fixpoint occupied_items (mk : nat -> SlotRef) (l : list Item) (i : nat)
  : list (SlotRef * T) :=
  match l with
  | [] => []
  | None :: rest => occupied_items mk rest (S i)
  | Some x :: rest => (mk i, x) :: occupied_items mk rest (S i)
  end.

Fixpoint occupied_chunks (l : list Chunk) (k : nat) : list (SlotRef * T) :=
  match l with
  | [] => []
  | p :: next => occupied_items (ChunkSlot k) (items p) 0 ++ occupied_chunks next (S k)
  end.

(** Traversal order: static slots by index, then the chunks in list order,
    each by index. *)
Definition occupied (m : Multiset) : list (SlotRef * T) :=
  occupied_items StaticSlot (static_capacity m) 0 ++ occupied_chunks (list_ m) 0.

Definition elements (m : Multiset) : list T := map snd (occupied m).

(** Which slots are taken, and which blocks the chunks live in. *)
Definition chunk_shape (c : Chunk) : nat * list bool :=
  (block c, map isConstructed (items c)).

Definition occupancy (m : Multiset) : list bool * list (nat * list bool) :=
  (map isConstructed (static_ m), map chunk_shape (list_ m)).

Definition num_slots (m : Multiset) : nat :=
  length (static_capacity m) + length (flat_map items (list_ m)).

(** The container fits the [unsigned] counters of the code. *)
Definition fits_unsigned (m : Multiset) : Prop :=
  (Z.of_nat (num_slots m) < UINT_MODULUS)%Z.

Definition has_element (c : Chunk) : bool := existsb isConstructed (items c).

(** No chunk of the list is fully empty. *)
Definition chunks_nonempty (m : Multiset) : Prop :=
  forallb has_element (list_ m) = true.

(** Under [UAVCAN_TINY] the static array is never touched. *)
Definition static_unused (m : Multiset) : Prop :=
  UAVCAN_TINY = true -> forallb (fun it => negb (isConstructed it)) (static_ m) = true.

(** A callable that takes the element by const reference. *)
Definition readonly {St : Type} (pred : St -> T -> bool * St)
  : St -> T -> bool * T * St :=
  fun s x => let '(b, s') := pred s x in (b, x, s').

(** A callable whose answer depends on the element alone; [f] is what it
    does to the state it reaches. *)
Definition observing {St : Type} (p : T -> bool) (f : St -> T -> St)
  : St -> T -> bool * T * St :=
  fun s x => (p x, x, f s x).

(** One pass over the occupied slots: call the predicate on each, stop at
    the first that answers true. *)
Fixpoint scan {St : Type} (pred : St -> T -> bool * St) (s : St)
    (occ : list (SlotRef * T)) : option SlotRef * St :=
  match occ with
  | [] => (None, s)
  | (r, x) :: rest =>
      let '(b, s') := pred s x in
      if b then (Some r, s') else scan pred s' rest
  end.

(** A pointer into the static array means something only when the build
    uses the array. *)
Definition in_use (r : SlotRef) : Prop :=
  match r with
  | StaticSlot _ => UAVCAN_TINY = false
  | ChunkSlot _ _ => True
  end.

(** Run an operator over a sequence of elements, one call each, in order:
    the elements as it leaves them and the state it ends in. *)
Fixpoint visit {St : Type} (oper : St -> T -> T * St) (s : St) (xs : list T)
  : list T * St :=
  match xs with
  | [] => ([], s)
  | x :: rest =>
      let '(x', s1) := oper s x in
      let '(rest', s2) := visit oper s1 rest in
      (x' :: rest', s2)
  end.

(** What [destroy] leaves of an item when elements satisfying [p] go. *)
Definition kill (p : T -> bool) (it : Item) : Item :=
  match it with
  | Some x => if p x then None else Some x
  | None => None
  end.

(** The answer of [YesPredicate]. *)
Definition yes : T -> bool := fun _ => true.

(** The container with every element satisfying [p] destroyed in place and
    no chunk released yet. *)
Definition remove_matching (p : T -> bool) (m : Multiset) : Multiset :=
  {| list_ := map (with_items (map (kill p))) (list_ m);
     static_ := if UAVCAN_TINY then static_ m else map (kill p) (static_ m) |}.

(** The blocks handed back when the chunks [l] are released in list order. *)
Definition release_all (l : list Chunk) (a : A) : A :=
  fold_left (fun a' c => Chunk_destroy c a') l a.

(** A sequence of elements without the first one that satisfies [p]. *)
Fixpoint remove_first (p : T -> bool) (xs : list T) : list T :=
  match xs with
  | [] => []
  | x :: rest => if p x then rest else x :: remove_first p rest
  end.

(** The elements up to and including the first one that satisfies [p]. *)
Fixpoint through_first (p : T -> bool) (xs : list T) : list T :=
  match xs with
  | [] => []
  | x :: rest => if p x then [x] else x :: through_first p rest
  end.

(** *** removeAll

    [removeAll(const T& ref)] gives [ComparingPredicate] the reference it
    was given, not a copy of the object, and [removeWhere] with [RemoveAll]
    goes on comparing after it has destroyed an element.  The object
    referred to is outside the container, or it is the element in one of
    the container's items, as [find], [getByIndex] and [emplace] return
    it. *)
Inductive Reference : Type :=
| RefOutside (v : T)
| RefItem (r : SlotRef).

(** What a zero-filled [pool] reads as: the constructor of [Item] and
    [Item::destroy] fill the pool with zeros. *)
Variable T_zero : T.

(** Reading a [T] where an item keeps it. *)
Definition read_pool (it : option Item) : T :=
  match it with
  | Some (Some v) => v
  | _ => T_zero
  end.

Definition deref (m : Multiset) (ref : Reference) : T :=
  match ref with
  | RefOutside v => v
  | RefItem r => read_pool (slot_at m r)
  end.

(** How many elements the traversal calls the predicate on before it
    reaches the object referred to; [None] when it never reaches it. *)
Definition visits_before (m : Multiset) (ref : Reference) : option nat :=
  match ref with
  | RefOutside _ => None
  | RefItem r => index_of r (map fst (occupied m))
  end.

(** [return reference == sample;] with the reference read at every call.
    The state is the number of calls left before [sample] is the object
    referred to, and what the reference reads now.  When the call on that
    object answers true, [removeWhere] destroys it, its pool is filled
    with zeros, and this is what the reference reads from then on. *)
Definition reference_equals : option nat * T -> T -> bool * (option nat * T) :=
  fun s sample =>
    let b := T_eqb (snd s) sample in
    match fst s with
    | Some 0 => (b, (None, if b then T_zero else snd s))
    | Some (S k) => (b, (Some k, snd s))
    | None => (b, s)
    end.

Definition ComparingPredicate_ref : option nat * T -> T -> bool * T * (option nat * T) :=
  readonly reference_equals.

Definition removeAll (ref : Reference) (a : A) (m : Multiset) : Multiset * A :=
  fst (removeAllWhere ComparingPredicate_ref (visits_before m ref, deref m ref) a m).

(** What [removeAll] leaves of the elements [xs] when the reference reads
    [v] and the object referred to is element [k] of [xs]: up to that
    element the comparisons are with [v], after it with whatever it left
    behind. *)
Definition unequal (v : T) (xs : list T) : list T :=
  filter (fun x => negb (T_eqb v x)) xs.

Definition removeAll_leaves (v : T) (k : nat) (xs : list T) : list T :=
  if T_eqb v v then unequal v (firstn k xs) ++ unequal T_zero (skipn (S k) xs)
  else unequal v xs.

(** ** The public interface as a sequence of calls *)

Inductive Op : Type :=
| OpEmplace (x : T)
| OpFind (St : Type) (predicate : St -> T -> bool * T * St) (s : St)
| OpForEach (St : Type) (oper : St -> T -> T * St) (s : St)
| OpGetByIndex (index : Z)
| OpRemoveFirst (ref : T)
| OpRemoveAll (ref : Reference)
| OpRemoveFirstWhere (St : Type) (predicate : St -> T -> bool * T * St) (s : St)
| OpRemoveAllWhere (St : Type) (predicate : St -> T -> bool * T * St) (s : St)
| OpClear.

(** The container and the allocator after one call. *)
Definition run_op (op : Op) (c : Multiset * A) : Multiset * A :=
  let '(m, a) := c in
  match op with
  | OpEmplace x => let '(_, m', a') := emplace x a m in (m', a')
  | OpFind predicate s => (snd (fst (find predicate s m)), a)
  | OpForEach oper s => (fst (forEach oper s m), a)
  | OpGetByIndex index => (snd (getByIndex index m), a)
  | OpRemoveFirst ref => removeFirst ref a m
  | OpRemoveAll ref => removeAll ref a m
  | OpRemoveFirstWhere predicate s => fst (removeFirstWhere predicate s a m)
  | OpRemoveAllWhere predicate s => fst (removeAllWhere predicate s a m)
  | OpClear => clear a m
  end.

(** A predicate instrumented by its caller: next to its own state it
    counts the calls it answered with true. *)
Definition counting {St : Type} (predicate : St -> T -> bool * T * St)
  : St * Z -> T -> bool * T * (St * Z) :=
  fun sk x =>
    let '(b, x', s') := predicate (fst sk) x in
    (b, x', (s', if b then (snd sk + 1)%Z else snd sk)).

(** The number of removals a caller observes through [counting]. *)
Definition removed_by {St : Type} (predicate : St -> T -> bool * T * St)
    (strategy : RemoveStrategy) (s : St) (a : A) (m : Multiset) : Z :=
  snd (snd (removeWhere (counting predicate) strategy (s, 0%Z) a m)).

(** One call, with the count a caller keeps on the side: one more for each
    [emplace] that returned an element, one less for each element a removal
    predicate answered true on. *)
Definition run_counted (op : Op) (c : Multiset * A * Z) : Multiset * A * Z :=
  let '(m, a, count) := c in
  match op with
  | OpEmplace x =>
      let '(r, m', a') := emplace x a m in
      (m', a', match r with Some _ => count + 1 | None => count end)%Z
  | OpRemoveFirst ref =>
      (removeFirst ref a m, count - removed_by (ComparingPredicate ref) RemoveOne tt a m)%Z
  | OpRemoveAll ref =>
      (removeAll ref a m,
       count - removed_by ComparingPredicate_ref RemoveAll
                 (visits_before m ref, deref m ref) a m)%Z
  | OpRemoveFirstWhere predicate s =>
      (fst (removeFirstWhere predicate s a m),
       count - removed_by predicate RemoveOne s a m)%Z
  | OpRemoveAllWhere predicate s =>
      (fst (removeAllWhere predicate s a m),
       count - removed_by predicate RemoveAll s a m)%Z
  | OpClear => (clear a m, count - removed_by YesPredicate RemoveAll tt a m)%Z
  | _ => (run_op op (m, a), count)
  end.

(** Occupied slots of an array, counted. *)
Definition num_constructed (l : list Item) : nat :=
  length (filter isConstructed l).

(** One pass over a sequence of elements with a predicate that keeps state:
    the elements it answers false on, in order, and the state it ends in. *)
Fixpoint keep_false {St : Type} (pred : St -> T -> bool * St) (s : St) (xs : list T)
  : list T * St :=
  match xs with
  | [] => ([], s)
  | x :: rest =>
      let '(b, s1) := pred s x in
      let '(kept, s2) := keep_false pred s1 rest in
      (if b then kept else x :: kept, s2)
  end.

(** ** The rest of the class *)

(** [~Multiset() { clear(); }]: what is left is the allocator. *)
Definition Multiset_destroy (a : A) (m : Multiset) : A := snd (clear a m).

(** The arrays have the sizes their types give them. *)
Definition well_sized (m : Multiset) : Prop :=
  length (static_ m) = NumStaticEntries /\
  forallb (fun c => length (items c) =? NumItems) (list_ m) = true.

End Multiset.

(** ** A worked instance

    Two static slots, chunks of three slots, elements of type [nat], the
    free-list pool as allocator. *)

Definition ex_chunk : Chunk nat := {| block := 7; items := [Some 2; None; Some 2] |}.

Definition ex_m : Multiset nat := {| list_ := [ex_chunk]; static_ := [Some 1; None] |}.

(** Every slot taken: the next [emplace] needs a new chunk. *)
Definition ex_full : Multiset nat :=
  {| list_ := [{| block := 7; items := [Some 2; Some 3; Some 4] |}];
     static_ := [Some 0; Some 1] |}.

Definition ex_pool : list nat := [8; 9].

(** Two chunks without element around one that has two. *)
Definition ex_sparse : Multiset nat :=
  {| list_ := [{| block := 5; items := [None; None; None] |}; ex_chunk;
               {| block := 6; items := [None; None; None] |}];
     static_ := [Some 1; None] |}.

(** Elements equal to the first one, and elements equal to zero. *)
Definition ex_alias : Multiset nat :=
  {| list_ := [{| block := 7; items := [Some 2; Some 0; Some 2] |}];
     static_ := [Some 2; Some 0] |}.

Definition ex_ops : list (Op nat) :=
  [OpEmplace 5; OpEmplace 6; OpEmplace 7; OpEmplace 6;
   OpForEach (fun (n : nat) (x : nat) => (x, n + x)) 0;
   OpRemoveAll (RefOutside 6); OpGetByIndex nat 1%Z; OpEmplace 9; OpRemoveFirst 5].

(** ** Correctness *)

Unset Implicit Arguments.

Section Correctness.

Variable T : Type.
Context {A : Type} {allocator_ : IPoolAllocator A}.
Variable NumStaticEntries : nat.
Variable NumItems : nat.
Variable sizeof_Chunk : nat.
Variable UAVCAN_TINY : bool.

Local Abbreviation Item := (Item T).
Local Abbreviation Chunk := (Chunk T).
Local Abbreviation Multiset := (Multiset T).
Local Abbreviation findOrCreateFreeSlot :=
  (findOrCreateFreeSlot NumItems sizeof_Chunk UAVCAN_TINY).
Local Abbreviation emplace := (emplace NumItems sizeof_Chunk UAVCAN_TINY).
Local Abbreviation emplace_assertion :=
  (emplace_assertion NumItems sizeof_Chunk UAVCAN_TINY).
Local Abbreviation static_capacity := (static_capacity UAVCAN_TINY).

(** *** The free-slot locator *)

Lemma first_free_found (l : list Item) (i0 j : nat) :
  is_first_free l j -> first_free l i0 = Some (i0 + j).
Proof.
  revert i0 j; induction l as [|it rest IH]; intros i0 j [Hn Hb].
  - destruct j; discriminate.
  - destruct j as [|j]; simpl in *.
    + injection Hn as ->. simpl. f_equal. lia.
    + unfold no_free_slot in Hb. simpl in Hb.
      apply andb_true_iff in Hb as [Hit Hb]. rewrite Hit.
      rewrite (IH (S i0) j); [f_equal; lia | split; assumption].
Qed.

Lemma first_free_full (l : list Item) (i0 : nat) :
  no_free_slot l = true <-> first_free l i0 = None.
Proof.
  revert i0; induction l as [|it rest IH]; intros i0; simpl.
  - tauto.
  - destruct (isConstructed it); simpl.
    + apply IH.
    + split; discriminate.
Qed.

Lemma first_free_inv (l : list Item) (i0 i : nat) :
  first_free l i0 = Some i -> exists j, i = i0 + j /\ is_first_free l j.
Proof.
  revert i0; induction l as [|it rest IH]; intros i0; simpl; [discriminate|].
  destruct it as [x|]; simpl.
  - intros H. apply IH in H as (j & -> & Hn & Hb).
    exists (S j). repeat split; [lia | exact Hn | exact Hb].
  - intros [= <-]. exists 0. repeat split. lia.
Qed.

Lemma free_in_chunks_found (l : list Chunk) (k0 k i : nat) (c : Chunk) :
  nth_error l k = Some c ->
  is_first_free (items c) i ->
  forallb (@chunk_full T) (firstn k l) = true ->
  free_in_chunks l k0 = Some (ChunkSlot (k0 + k) i).
Proof.
  revert k0 k; induction l as [|p next IH]; intros k0 k Hn Hf Hb.
  - destruct k; discriminate.
  - destruct k as [|k]; simpl in *.
    + injection Hn as ->. unfold findFreeSlot.
      rewrite (first_free_found _ 0 _ Hf). do 2 f_equal. lia.
    + apply andb_true_iff in Hb as [Hp Hb].
      unfold findFreeSlot. apply (first_free_full _ 0) in Hp. rewrite Hp.
      rewrite (IH (S k0) k Hn Hf Hb). f_equal. f_equal. lia.
Qed.

Lemma free_in_chunks_full (l : list Chunk) (k0 : nat) :
  forallb (@chunk_full T) l = true <-> free_in_chunks l k0 = None.
Proof.
  revert k0; induction l as [|p next IH]; intros k0; simpl.
  - tauto.
  - unfold findFreeSlot, chunk_full at 1.
    destruct (first_free (items p) 0) as [i|] eqn:E.
    + split; [|discriminate]. intros H. apply andb_true_iff in H as [H _].
      apply (first_free_full _ 0) in H. congruence.
    + apply (first_free_full _ 0) in E. rewrite E. simpl. apply IH.
Qed.

Lemma free_in_chunks_inv (l : list Chunk) (k0 : nat) (r : SlotRef) :
  free_in_chunks l k0 = Some r ->
  exists k i c, r = ChunkSlot (k0 + k) i /\ nth_error l k = Some c /\
                is_first_free (items c) i.
Proof.
  revert k0; induction l as [|p next IH]; intros k0; simpl; [discriminate|].
  unfold findFreeSlot. destruct (first_free (items p) 0) as [i|] eqn:E.
  - intros [= <-]. apply first_free_inv in E as (j & -> & Hj).
    exists 0, j, p. repeat split; try apply Hj. f_equal. lia.
  - intros H. apply IH in H as (k & i & c & -> & Hn & Hf).
    exists (S k), i, c. repeat split; try apply Hf; [f_equal; lia | exact Hn].
Qed.

(** C4. [findOrCreateFreeSlot] looks, in this order and stopping at the
    first success, at (1) the static array by increasing index, (2) the
    chunks in list order, each by its first unoccupied slot, (3) a new
    chunk from the allocator, which is linked at the head of the list and
    whose slot 0 is returned; when the allocation fails the result is
    empty and the container is as before. *)
Theorem findOrCreateFreeSlot_search_order (a : A) (m : Multiset) :
  (forall i, UAVCAN_TINY = false -> is_first_free (static_ m) i ->
     findOrCreateFreeSlot a m = (Some (StaticSlot i), m, a)) /\
  (forall k c i,
     no_free_slot (static_capacity m) = true ->
     nth_error (list_ m) k = Some c ->
     forallb (@chunk_full T) (firstn k (list_ m)) = true ->
     is_first_free (items c) i ->
     findOrCreateFreeSlot a m = (Some (ChunkSlot k i), m, a)) /\
  (forall praw a',
     no_free_slot (static_capacity m) = true ->
     forallb (@chunk_full T) (list_ m) = true ->
     allocate a sizeof_Chunk = (Some praw, a') ->
     findOrCreateFreeSlot a m =
       (Some (ChunkSlot 0 0),
        {| list_ := {| block := praw; items := repeat None NumItems |} :: list_ m;
           static_ := static_ m |},
        a')) /\
  (forall a',
     no_free_slot (static_capacity m) = true ->
     forallb (@chunk_full T) (list_ m) = true ->
     allocate a sizeof_Chunk = (None, a') ->
     findOrCreateFreeSlot a m = (None, m, a')).
Proof.
  assert (Hst : no_free_slot (static_capacity m) = true ->
                (if UAVCAN_TINY then None else first_free (static_ m) 0) = None).
  { unfold static_capacity. destruct UAVCAN_TINY; [reflexivity|].
    apply first_free_full. }
  unfold findOrCreateFreeSlot. repeat split.
  - intros i -> Hf. now rewrite (first_free_found _ 0 _ Hf).
  - intros k c i Hs Hn Hb Hf. rewrite (Hst Hs).
    now rewrite (free_in_chunks_found _ 0 _ _ _ Hn Hf Hb).
  - intros praw a' Hs Hb Ha. rewrite (Hst Hs).
    apply (free_in_chunks_full _ 0) in Hb. rewrite Hb.
    unfold Chunk_instantiate. now rewrite Ha.
  - intros a' Hs Hb Ha. rewrite (Hst Hs).
    apply (free_in_chunks_full _ 0) in Hb. rewrite Hb.
    unfold Chunk_instantiate. now rewrite Ha.
Qed.

Lemma nth_error_repeat_None (n i : nat) :
  i < n -> nth_error (repeat (@None T) n) i = Some None.
Proof.
  revert i; induction n as [|n IH]; intros i Hi; [lia|].
  destruct i as [|i]; simpl; [reflexivity|]. apply IH. lia.
Qed.

Lemma findOrCreateFreeSlot_free (a : A) (m : Multiset) (r : SlotRef)
    (m' : Multiset) (a' : A) :
  0 < NumItems ->
  findOrCreateFreeSlot a m = (Some r, m', a') ->
  slot_at m' r = Some None.
Proof.
  intros Hpos. unfold findOrCreateFreeSlot.
  destruct (if UAVCAN_TINY then None else first_free (static_ m) 0) as [i|] eqn:Es.
  - intros [= <- <- <-]. destruct UAVCAN_TINY; [discriminate|].
    apply first_free_inv in Es as (j & -> & Hj & _). exact Hj.
  - destruct (free_in_chunks (list_ m) 0) as [dyn|] eqn:Ed.
    + intros [= <- <- <-].
      apply free_in_chunks_inv in Ed as (k & i & c & -> & Hn & Hf & _).
      simpl. rewrite Hn. exact Hf.
    + unfold Chunk_instantiate. destruct (allocate a sizeof_Chunk) as [[praw|] a1].
      * intros [= <- <- <-]. cbn [slot_at list_ LinkedListRoot_insert nth_error items].
        now apply (nth_error_repeat_None NumItems 0).
      * discriminate.
Qed.

(** C10. A slot returned by [findOrCreateFreeSlot] is unoccupied, so the
    assertion [item->ptr == NULL] that every [emplace] overload checks
    before constructing in place holds in every container state. *)
Theorem emplace_assertion_holds (a : A) (m : Multiset) :
  0 < NumItems ->
  (forall r m' a',
     findOrCreateFreeSlot a m = (Some r, m', a') -> slot_at m' r = Some None) /\
  emplace_assertion a m = true.
Proof.
  intros Hpos. split.
  - intros r m' a'. now apply findOrCreateFreeSlot_free.
  - unfold emplace_assertion.
    destruct (findOrCreateFreeSlot a m) as [[[r|] m'] a'] eqn:E; [|reflexivity].
    now rewrite (findOrCreateFreeSlot_free _ _ _ _ _ Hpos E).
Qed.

Lemma findOrCreateFreeSlot_none (a : A) (m : Multiset) :
  fst (fst (findOrCreateFreeSlot a m)) = None <->
  no_free_slot (static_capacity m) = true /\
  forallb (@chunk_full T) (list_ m) = true /\
  fst (allocate a sizeof_Chunk) = None.
Proof.
  unfold findOrCreateFreeSlot, static_capacity.
  rewrite (free_in_chunks_full _ 0).
  destruct UAVCAN_TINY.
  - simpl. destruct (free_in_chunks (list_ m) 0) as [dyn|]; simpl.
    + split; [discriminate | intros (_ & H & _); discriminate].
    + unfold Chunk_instantiate. destruct (allocate a sizeof_Chunk) as [[praw|] a1]; simpl.
      * split; [discriminate | intros (_ & _ & H); discriminate].
      * tauto.
  - rewrite (first_free_full _ 0).
    destruct (first_free (static_ m) 0) as [i|]; simpl.
    + split; [discriminate | intros (H & _); discriminate].
    + destruct (free_in_chunks (list_ m) 0) as [dyn|]; simpl.
      * split; [discriminate | intros (_ & H & _); discriminate].
      * unfold Chunk_instantiate. destruct (allocate a sizeof_Chunk) as [[praw|] a1]; simpl.
        -- split; [discriminate | intros (_ & _ & H); discriminate].
        -- tauto.
Qed.

Lemma findOrCreateFreeSlot_none_same (a : A) (m : Multiset) :
  fst (fst (findOrCreateFreeSlot a m)) = None ->
  snd (fst (findOrCreateFreeSlot a m)) = m.
Proof.
  unfold findOrCreateFreeSlot.
  destruct (if UAVCAN_TINY then None else first_free (static_ m) 0); [reflexivity|].
  destruct (free_in_chunks (list_ m) 0); [reflexivity|].
  unfold Chunk_instantiate. destruct (allocate a sizeof_Chunk) as [[praw|] a1]; simpl;
    [discriminate | reflexivity].
Qed.

Lemma emplace_result (x : T) (a : A) (m : Multiset) :
  fst (fst (emplace x a m)) = fst (fst (findOrCreateFreeSlot a m)).
Proof.
  unfold emplace. now destruct (findOrCreateFreeSlot a m) as [[[r|] m'] a'].
Qed.

(** C3. [emplace] returns null exactly when neither the static array nor
    any chunk of the list has a free slot and the allocator has no block to
    give; nothing is constructed then, and the container is what it was. *)
Theorem emplace_null_iff_exhausted (x : T) (a : A) (m : Multiset) :
  (fst (fst (emplace x a m)) = None <->
   no_free_slot (static_capacity m) = true /\
   forallb (@chunk_full T) (list_ m) = true /\
   fst (allocate a sizeof_Chunk) = None) /\
  (fst (fst (emplace x a m)) = None -> snd (fst (emplace x a m)) = m).
Proof.
  split.
  - rewrite emplace_result. apply findOrCreateFreeSlot_none.
  - rewrite emplace_result. intros H.
    pose proof (findOrCreateFreeSlot_none_same a m H) as Hm.
    unfold emplace. destruct (findOrCreateFreeSlot a m) as [[[r|] m'] a'];
      [discriminate | exact Hm].
Qed.

(** *** Traversal: find *)

Local Abbreviation find := (find UAVCAN_TINY).
Local Abbreviation occupied := (occupied UAVCAN_TINY).
Local Abbreviation elements := (elements UAVCAN_TINY).

Section FindReadonly.

Variable St : Type.
Variable pred : St -> T -> bool * St.

Lemma find_items_scan (mk : nat -> SlotRef) (rest : list (SlotRef * T))
    (l : list Item) (i : nat) (s : St) (r : option nat) (l' : list Item) (s' : St) :
  find_items (readonly pred) l i s = (r, l', s') ->
  l' = l /\
  scan pred s (occupied_items mk l i ++ rest) =
    match r with
    | Some j => (Some (mk j), s')
    | None => scan pred s' rest
    end.
Proof.
  revert i s r l' s'; induction l as [|[x|] l IH]; intros i s r l' s'; simpl.
  - intros [= <- <- <-]. split; reflexivity.
  - unfold readonly at 1. destruct (pred s x) as [[|] s1].
    + intros [= <- <- <-]. split; reflexivity.
    + destruct (find_items (readonly pred) l (S i) s1) as [[r0 l0] s0] eqn:E.
      intros [= <- <- <-]. apply IH in E as [-> E]. split; [reflexivity | exact E].
  - destruct (find_items (readonly pred) l (S i) s) as [[r0 l0] s0] eqn:E.
    intros [= <- <- <-]. apply IH in E as [-> E]. split; [reflexivity | exact E].
Qed.

Lemma with_same_items (c : Chunk) : {| block := block c; items := items c |} = c.
Proof. now destruct c. Qed.

Lemma find_chunks_scan (l : list Chunk) (k : nat) (s : St) :
  find_chunks (readonly pred) l k s =
    (fst (scan pred s (occupied_chunks l k)), l,
     snd (scan pred s (occupied_chunks l k))).
Proof.
  revert k s; induction l as [|p next IH]; intros k s; simpl; [reflexivity|].
  destruct (find_items (readonly pred) (items p) 0 s) as [[r l'] s1] eqn:E.
  apply (find_items_scan (ChunkSlot k) (occupied_chunks next (S k))) in E as [-> Hr].
  rewrite with_same_items, Hr.
  destruct r as [j|]; [reflexivity|]. now rewrite IH.
Qed.

Lemma find_scan (s : St) (m : Multiset) :
  find (readonly pred) s m =
    (fst (scan pred s (occupied m)), m, snd (scan pred s (occupied m))).
Proof.
  unfold find, occupied, static_capacity. destruct m as [l st]. simpl.
  destruct UAVCAN_TINY; simpl.
  - now rewrite find_chunks_scan.
  - destruct (find_items (readonly pred) st 0 s) as [[r st'] s1] eqn:E.
    apply (find_items_scan StaticSlot (occupied_chunks l 0)) in E as [-> Hr].
    rewrite Hr. destruct r as [j|]; [reflexivity|]. now rewrite find_chunks_scan.
Qed.

End FindReadonly.

Local Abbreviation in_use := (in_use UAVCAN_TINY).

Lemma occupied_items_In (mk : nat -> SlotRef) (l : list Item) (i0 : nat)
    (r : SlotRef) (x : T) :
  In (r, x) (occupied_items mk l i0) <->
  exists j, r = mk (i0 + j) /\ nth_error l j = Some (Some x).
Proof.
  revert i0; induction l as [|[y|] l IH]; intros i0; simpl.
  - split; [tauto | intros (j & _ & H); destruct j; discriminate].
  - rewrite IH. split.
    + intros [[= <- <-] | (j & -> & Hj)].
      * exists 0. split; [f_equal; lia | reflexivity].
      * exists (S j). split; [f_equal; lia | exact Hj].
    + intros ([|j] & -> & Hj); simpl in Hj.
      * injection Hj as ->. left. do 2 f_equal. lia.
      * right. exists j. split; [f_equal; lia | exact Hj].
  - rewrite IH. split.
    + intros (j & -> & Hj). exists (S j). split; [f_equal; lia | exact Hj].
    + intros ([|j] & -> & Hj); simpl in Hj; [discriminate|].
      exists j. split; [f_equal; lia | exact Hj].
Qed.

Lemma occupied_chunks_In (l : list Chunk) (k0 : nat) (r : SlotRef) (x : T) :
  In (r, x) (occupied_chunks l k0) <->
  exists k i c, r = ChunkSlot (k0 + k) i /\ nth_error l k = Some c /\
                nth_error (items c) i = Some (Some x).
Proof.
  revert k0; induction l as [|p next IH]; intros k0; simpl.
  - split; [tauto | intros ([|k] & i & c & _ & H & _); discriminate].
  - rewrite in_app_iff, occupied_items_In, IH. split.
    + intros [(j & -> & Hj) | (k & i & c & -> & Hk & Hi)].
      * exists 0, j, p. repeat split; [f_equal; lia | exact Hj].
      * exists (S k), i, c. repeat split; [f_equal; lia | exact Hk | exact Hi].
    + intros ([|k] & i & c & -> & Hk & Hi); simpl in Hk.
      * injection Hk as ->. left. exists i. split; [f_equal; lia | exact Hi].
      * right. exists k, i, c. repeat split; [f_equal; lia | exact Hk | exact Hi].
Qed.

Lemma occupied_In (m : Multiset) (r : SlotRef) (x : T) :
  In (r, x) (occupied m) <-> slot_at m r = Some (Some x) /\ in_use r.
Proof.
  unfold occupied, static_capacity.
  rewrite in_app_iff, occupied_items_In, occupied_chunks_In.
  split.
  - intros [(j & -> & Hj) | (k & i & c & -> & Hk & Hi)]; simpl.
    + destruct UAVCAN_TINY; [destruct j; discriminate | auto].
    + rewrite Hk. auto.
  - destruct r as [i | k i]; simpl; intros [H Hu].
    + left. exists i. rewrite Hu. auto.
    + right. destruct (nth_error (list_ m) k) as [c|] eqn:Hk; [|discriminate].
      exists k, i, c. auto.
Qed.

Lemma scan_pure {St : Type} (p : T -> bool) (s : St) (occ : list (SlotRef * T)) :
  scan (fun u x => (p x, u)) s occ =
    (option_map fst (List.find (fun rx => p (snd rx)) occ), s).
Proof.
  induction occ as [|[r x] occ IH]; simpl; [reflexivity|].
  destruct (p x); [reflexivity | exact IH].
Qed.

(** C2. [find] makes one pass over the occupied slots in traversal order
    (static slots by index, then the chunks in list order, each by index),
    calls the predicate on those only, and returns the pointer to the first
    element on which it answers true, or null when it never does. *)
Theorem find_returns_first_match (St : Type) (pred : St -> T -> bool * St)
    (s : St) (m : Multiset) :
  find (readonly pred) s m =
    (fst (scan pred s (occupied m)), m, snd (scan pred s (occupied m))) /\
  (forall p : T -> bool,
     fst (fst (find (readonly (fun u x => (p x, u))) tt m)) =
       option_map fst (List.find (fun rx => p (snd rx)) (occupied m))) /\
  (forall r x,
     In (r, x) (occupied m) <-> slot_at m r = Some (Some x) /\ in_use r).
Proof.
  split; [apply find_scan | split].
  - intros p. rewrite find_scan, scan_pure. reflexivity.
  - apply occupied_In.
Qed.

(** *** Traversal never changes which slots are taken *)

Local Abbreviation getSize := (getSize UAVCAN_TINY).
Local Abbreviation getNumStaticItems := (getNumStaticItems UAVCAN_TINY).

Lemma find_items_shape (St : Type) (predicate : St -> T -> bool * T * St)
    (l : list Item) (i : nat) (s : St) :
  map (@isConstructed T) (snd (fst (find_items predicate l i s))) =
  map (@isConstructed T) l.
Proof.
  revert i s; induction l as [|[x|] l IH]; intros i s; simpl; [reflexivity| |].
  - destruct (predicate s x) as [[[|] x'] s1]; simpl; [reflexivity|].
    specialize (IH (S i) s1).
    destruct (find_items predicate l (S i) s1) as [[r l'] s']. simpl in *.
    now rewrite IH.
  - specialize (IH (S i) s).
    destruct (find_items predicate l (S i) s) as [[r l'] s']. simpl in *.
    now rewrite IH.
Qed.

Lemma find_chunks_shape (St : Type) (predicate : St -> T -> bool * T * St)
    (l : list Chunk) (k : nat) (s : St) :
  map (@chunk_shape T) (snd (fst (find_chunks predicate l k s))) = map (@chunk_shape T) l.
Proof.
  revert k s; induction l as [|p next IH]; intros k s; simpl; [reflexivity|].
  pose proof (find_items_shape St predicate (items p) 0 s) as Hp.
  destruct (find_items predicate (items p) 0 s) as [[r its] s1]. simpl in Hp.
  destruct r as [i|]; simpl.
  - unfold chunk_shape at 1 3. simpl. now rewrite Hp.
  - specialize (IH (S k) s1).
    destruct (find_chunks predicate next (S k) s1) as [[r' rest] s2]. simpl in *.
    unfold chunk_shape at 1 3. simpl. now rewrite Hp, IH.
Qed.

Lemma find_occupancy (St : Type) (predicate : St -> T -> bool * T * St)
    (s : St) (m : Multiset) :
  occupancy (snd (fst (find predicate s m))) = occupancy m.
Proof.
  unfold find, occupancy. destruct m as [l st]. simpl.
  destruct UAVCAN_TINY.
  - pose proof (find_chunks_shape St predicate l 0 s) as Hc.
    destruct (find_chunks predicate l 0 s) as [[r2 l2] s2]. simpl in *.
    f_equal. exact Hc.
  - pose proof (find_items_shape St predicate st 0 s) as Hs.
    destruct (find_items predicate st 0 s) as [[r1 st1] s1]. simpl in Hs.
    destruct r1 as [i|]; simpl.
    + now rewrite Hs.
    + pose proof (find_chunks_shape St predicate l 0 s1) as Hc.
      destruct (find_chunks predicate l 0 s1) as [[r2 l2] s2]. simpl in *.
      rewrite Hs. f_equal. exact Hc.
Qed.

Lemma count_items_shape (l l' : list Item) (num : Z) :
  map (@isConstructed T) l = map (@isConstructed T) l' ->
  count_items l num = count_items l' num.
Proof.
  revert l' num; induction l as [|it l IH]; intros [|it' l'] num H;
    try discriminate; [reflexivity|].
  simpl in *. injection H as Hit Hl. rewrite Hit. now apply IH.
Qed.

Lemma count_chunks_shape (l l' : list Chunk) (num : Z) :
  map (@chunk_shape T) l = map (@chunk_shape T) l' ->
  count_chunks l num = count_chunks l' num.
Proof.
  revert l' num; induction l as [|p l IH]; intros [|p' l'] num H;
    try discriminate; [reflexivity|].
  simpl in *. injection H as _ Hit Hl.
  rewrite (count_items_shape _ _ num Hit). now apply IH.
Qed.

Lemma getSize_occupancy (m m' : Multiset) :
  occupancy m = occupancy m' -> getSize m = getSize m'.
Proof.
  unfold occupancy, getSize, getNumStaticItems, getNumDynamicItems.
  intros [= Hs Hc]. rewrite (count_chunks_shape _ _ 0%Z Hc).
  destruct UAVCAN_TINY; [reflexivity|].
  now rewrite (count_items_shape _ _ 0%Z Hs).
Qed.

(** *** forEach *)

Lemma visit_app (St : Type) (oper : St -> T -> T * St) (s : St) (xs ys : list T) :
  visit oper s (xs ++ ys) =
    (fst (visit oper s xs) ++ fst (visit oper (snd (visit oper s xs)) ys),
     snd (visit oper (snd (visit oper s xs)) ys)).
Proof.
  revert s; induction xs as [|x xs IH]; intros s; simpl.
  - now destruct (visit oper s ys).
  - destruct (oper s x) as [x' s1]. rewrite IH.
    destruct (visit oper s1 xs) as [xs' s2]. reflexivity.
Qed.

Lemma occupied_items_refs_shape (mk : nat -> SlotRef) (l l' : list Item) (i : nat) :
  map (@isConstructed T) l = map (@isConstructed T) l' ->
  map fst (occupied_items mk l i) = map fst (occupied_items mk l' i).
Proof.
  revert l' i; induction l as [|it l IH]; intros [|it' l'] i H;
    try discriminate; [reflexivity|].
  simpl in H. injection H as Hit Hl.
  destruct it, it'; try discriminate; simpl; rewrite (IH l' (S i) Hl); reflexivity.
Qed.

Lemma occupied_chunks_refs_shape (l l' : list Chunk) (k : nat) :
  map (@chunk_shape T) l = map (@chunk_shape T) l' ->
  map fst (occupied_chunks l k) = map fst (occupied_chunks l' k).
Proof.
  revert l' k; induction l as [|p l IH]; intros [|p' l'] k H;
    try discriminate; [reflexivity|].
  simpl in H. injection H as _ Hit Hl. simpl. rewrite !map_app.
  now rewrite (occupied_items_refs_shape _ _ _ 0 Hit), (IH l' (S k) Hl).
Qed.

Lemma occupied_refs_occupancy (m m' : Multiset) :
  occupancy m = occupancy m' ->
  map fst (occupied m) = map fst (occupied m').
Proof.
  unfold occupancy, occupied, static_capacity. intros [= Hs Hc].
  rewrite !map_app, (occupied_chunks_refs_shape _ _ 0 Hc).
  destruct UAVCAN_TINY; [reflexivity|].
  now rewrite (occupied_items_refs_shape StaticSlot _ _ 0 Hs).
Qed.

Section ForEach.

Variable St : Type.
Variable oper : St -> T -> T * St.

Lemma find_items_forEach (mk : nat -> SlotRef) (l : list Item) (i : nat) (s : St)
    (r : option nat) (l' : list Item) (s' : St) :
  find_items (OperatorToFalsePredicateAdapter oper) l i s = (r, l', s') ->
  r = None /\
  visit oper s (map snd (occupied_items mk l i)) =
    (map snd (occupied_items mk l' i), s').
Proof.
  revert i s r l' s'; induction l as [|[x|] l IH]; intros i s r l' s'; simpl.
  - intros [= <- <- <-]. split; reflexivity.
  - unfold OperatorToFalsePredicateAdapter at 1. destruct (oper s x) as [x' s1].
    destruct (find_items (OperatorToFalsePredicateAdapter oper) l (S i) s1)
      as [[r0 l0] s0] eqn:E.
    intros [= <- <- <-]. apply IH in E as [-> E]. simpl. now rewrite E.
  - destruct (find_items (OperatorToFalsePredicateAdapter oper) l (S i) s)
      as [[r0 l0] s0] eqn:E.
    intros [= <- <- <-]. apply IH in E as [-> E]. split; [reflexivity | exact E].
Qed.

Lemma find_chunks_forEach (l : list Chunk) (k : nat) (s : St)
    (r : option SlotRef) (l' : list Chunk) (s' : St) :
  find_chunks (OperatorToFalsePredicateAdapter oper) l k s = (r, l', s') ->
  r = None /\
  visit oper s (map snd (occupied_chunks l k)) = (map snd (occupied_chunks l' k), s').
Proof.
  revert k s r l' s'; induction l as [|p next IH]; intros k s r l' s'; simpl.
  - intros [= <- <- <-]. split; reflexivity.
  - destruct (find_items (OperatorToFalsePredicateAdapter oper) (items p) 0 s)
      as [[r0 its] s1] eqn:E.
    apply (find_items_forEach (ChunkSlot k)) in E as [-> E].
    destruct (find_chunks (OperatorToFalsePredicateAdapter oper) next (S k) s1)
      as [[r1 rest] s2] eqn:E'.
    intros [= <- <- <-]. apply IH in E' as [-> E']. split; [reflexivity|].
    simpl. rewrite !map_app, visit_app, E. simpl. now rewrite E'.
Qed.

Lemma find_forEach (s : St) (m : Multiset) :
  fst (fst (find (OperatorToFalsePredicateAdapter oper) s m)) = None /\
  visit oper s (elements m) =
    (elements (snd (fst (find (OperatorToFalsePredicateAdapter oper) s m))),
     snd (find (OperatorToFalsePredicateAdapter oper) s m)).
Proof.
  unfold find, elements, occupied, static_capacity. destruct m as [l st]. simpl.
  destruct UAVCAN_TINY; simpl.
  - destruct (find_chunks (OperatorToFalsePredicateAdapter oper) l 0 s)
      as [[r2 l2] s2] eqn:E2.
    apply find_chunks_forEach in E2 as [-> E2]. simpl. split; [reflexivity | exact E2].
  - destruct (find_items (OperatorToFalsePredicateAdapter oper) st 0 s)
      as [[r1 st1] s1] eqn:E1.
    apply (find_items_forEach StaticSlot) in E1 as [-> E1].
    destruct (find_chunks (OperatorToFalsePredicateAdapter oper) l 0 s1)
      as [[r2 l2] s2] eqn:E2.
    apply find_chunks_forEach in E2 as [-> E2]. simpl. split; [reflexivity|].
    rewrite !map_app, visit_app, E1. simpl. now rewrite E2.
Qed.

End ForEach.

Lemma scan_never (St : Type) (f : St -> T -> St) (s : St) (occ : list (SlotRef * T)) :
  scan (fun u x => (false, f u x)) s occ = (None, fold_left f (map snd occ) s).
Proof.
  revert s; induction occ as [|[r x] occ IH]; intros s; simpl; [reflexivity|].
  apply IH.
Qed.

Lemma forEach_const (St : Type) (f : St -> T -> St) (s : St) (m : Multiset) :
  forEach UAVCAN_TINY (fun u x => (x, f u x)) s m = (m, fold_left f (elements m) s).
Proof.
  unfold forEach.
  change (OperatorToFalsePredicateAdapter (fun u x => (x, f u x)))
    with (readonly (fun u x => (false, f u x))).
  now rewrite find_scan, scan_never.
Qed.

(** C9. [forEach] calls the operation once on every element, in traversal
    order, and changes nothing about the container: the same slots are
    taken, the same chunks are in the list, [getSize] is what it was.  The
    adapter answers false on every call, so the traversal neither removes
    nor stops early. *)
Theorem forEach_visits_every_element (St : Type) (oper : St -> T -> T * St)
    (s : St) (m : Multiset) :
  (forall u x, fst (fst (OperatorToFalsePredicateAdapter oper u x)) = false) /\
  fst (fst (find (OperatorToFalsePredicateAdapter oper) s m)) = None /\
  visit oper s (elements m) =
    (elements (fst (forEach UAVCAN_TINY oper s m)), snd (forEach UAVCAN_TINY oper s m)) /\
  occupancy (fst (forEach UAVCAN_TINY oper s m)) = occupancy m /\
  map fst (occupied (fst (forEach UAVCAN_TINY oper s m))) = map fst (occupied m) /\
  getSize (fst (forEach UAVCAN_TINY oper s m)) = getSize m /\
  (forall f : St -> T -> St,
     forEach UAVCAN_TINY (fun u x => (x, f u x)) s m = (m, fold_left f (elements m) s)).
Proof.
  assert (Hm : fst (forEach UAVCAN_TINY oper s m) =
               snd (fst (find (OperatorToFalsePredicateAdapter oper) s m))).
  { unfold forEach.
    now destruct (find (OperatorToFalsePredicateAdapter oper) s m) as [[r m'] s']. }
  assert (Hs : snd (forEach UAVCAN_TINY oper s m) =
               snd (find (OperatorToFalsePredicateAdapter oper) s m)).
  { unfold forEach.
    now destruct (find (OperatorToFalsePredicateAdapter oper) s m) as [[r m'] s']. }
  pose proof (find_occupancy St (OperatorToFalsePredicateAdapter oper) s m) as Ho.
  rewrite Hm, Hs. repeat split.
  - intros u x. unfold OperatorToFalsePredicateAdapter. now destruct (oper u x).
  - apply find_forEach.
  - apply find_forEach.
  - exact Ho.
  - now apply occupied_refs_occupancy.
  - now apply getSize_occupancy.
  - intros f. apply forEach_const.
Qed.

(** *** getSize counts the occupied slots *)

Local Abbreviation getByIndex := (getByIndex UAVCAN_TINY).
Local Abbreviation fits_unsigned := (fits_unsigned UAVCAN_TINY).
Local Abbreviation num_slots := (num_slots UAVCAN_TINY).

Lemma to_unsigned_small (z : Z) :
  (0 <= z < UINT_MODULUS)%Z -> to_unsigned z = z.
Proof. intros H. unfold to_unsigned. now apply Z.mod_small. Qed.

Lemma to_unsigned_add_l (a b : Z) :
  to_unsigned (to_unsigned a + b) = to_unsigned (a + b).
Proof. unfold to_unsigned. apply Zplus_mod_idemp_l. Qed.

Lemma count_items_length (mk : nat -> SlotRef) (l : list Item) (i : nat) (num : Z) :
  count_items l (to_unsigned num) =
  to_unsigned (num + Z.of_nat (length (occupied_items mk l i))).
Proof.
  revert i num; induction l as [|[x|] l IH]; intros i num; simpl count_items.
  - simpl. now rewrite Z.add_0_r.
  - rewrite to_unsigned_add_l, (IH (S i)). cbn [occupied_items length]. f_equal. lia.
  - rewrite to_unsigned_add_l, (IH (S i)). cbn [occupied_items]. f_equal. lia.
Qed.

Lemma count_chunks_length (l : list Chunk) (k : nat) (num : Z) :
  count_chunks l (to_unsigned num) =
  to_unsigned (num + Z.of_nat (length (occupied_chunks l k))).
Proof.
  revert k num; induction l as [|p l IH]; intros k num; simpl.
  - now rewrite Z.add_0_r.
  - rewrite (count_items_length (ChunkSlot k) _ 0), (IH (S k)), length_app.
    f_equal. lia.
Qed.

Lemma getSize_length (m : Multiset) :
  getSize m = to_unsigned (Z.of_nat (length (occupied m))).
Proof.
  unfold getSize, getNumStaticItems, getNumDynamicItems, occupied, static_capacity.
  change 0%Z with (to_unsigned 0) at 2 3.
  rewrite (count_chunks_length _ 0), length_app. destruct UAVCAN_TINY.
  - simpl length. unfold to_unsigned. rewrite Zplus_mod_idemp_r. reflexivity.
  - rewrite (count_items_length StaticSlot _ 0). unfold to_unsigned.
    rewrite <- Zplus_mod. f_equal. lia.
Qed.

Lemma occupied_items_le (mk : nat -> SlotRef) (l : list Item) (i : nat) :
  length (occupied_items mk l i) <= length l.
Proof.
  revert i; induction l as [|[x|] l IH]; intros i; simpl; [lia| |];
    specialize (IH (S i)); lia.
Qed.

Lemma occupied_chunks_le (l : list Chunk) (k : nat) :
  length (occupied_chunks l k) <= length (flat_map (@items T) l).
Proof.
  revert k; induction l as [|p l IH]; intros k; simpl; [lia|].
  rewrite !length_app. specialize (IH (S k)).
  pose proof (occupied_items_le (ChunkSlot k) (items p) 0). lia.
Qed.

Lemma occupied_le_slots (m : Multiset) : length (occupied m) <= num_slots m.
Proof.
  unfold occupied, num_slots. rewrite length_app.
  pose proof (occupied_items_le StaticSlot (static_capacity m) 0).
  pose proof (occupied_chunks_le (list_ m) 0). lia.
Qed.

Lemma getSize_exact (m : Multiset) :
  fits_unsigned m -> getSize m = Z.of_nat (length (occupied m)).
Proof.
  intros Hfit. rewrite getSize_length. apply to_unsigned_small.
  unfold fits_unsigned in Hfit. pose proof (occupied_le_slots m). lia.
Qed.

(** *** getByIndex *)

Lemma scan_index (occ : list (SlotRef * T)) (index : Z) :
  (0 <= index < UINT_MODULUS)%Z ->
  fst (scan (fun i (_ : T) => ((i =? 0)%Z, to_unsigned (i - 1))) index occ) =
  option_map fst (nth_error occ (Z.to_nat index)).
Proof.
  revert index; induction occ as [|[r x] occ IH]; intros index Hi; simpl.
  - now destruct (Z.to_nat index).
  - destruct (Z.eqb_spec index 0) as [-> | Hne]; [reflexivity|].
    rewrite to_unsigned_small by lia. rewrite IH by lia.
    replace (Z.to_nat index) with (S (Z.to_nat (index - 1))) by lia.
    reflexivity.
Qed.

Lemma getByIndex_nth (m : Multiset) (index : Z) :
  (0 <= index < UINT_MODULUS)%Z ->
  getByIndex index m =
    (option_map fst (nth_error (occupied m) (Z.to_nat index)), m).
Proof.
  intros Hi. unfold getByIndex.
  change (@IndexPredicate T)
    with (readonly (fun i (_ : T) => ((i =? 0)%Z, to_unsigned (i - 1)))).
  rewrite find_scan. simpl. now rewrite scan_index.
Qed.

Lemma occupied_items_NoDup (mk : nat -> SlotRef) (l : list Item) (i0 : nat) :
  (forall i j, mk i = mk j -> i = j) ->
  NoDup (map fst (occupied_items mk l i0)).
Proof.
  intros Hinj. revert i0; induction l as [|[x|] l IH]; intros i0; simpl.
  - constructor.
  - constructor; [|apply IH].
    intros Hin. apply in_map_iff in Hin as ([r y] & Hr & Hin). simpl in Hr. subst r.
    apply occupied_items_In in Hin as (j & Hj & _). apply Hinj in Hj. lia.
  - apply IH.
Qed.

Lemma occupied_chunks_NoDup (l : list Chunk) (k0 : nat) :
  NoDup (map fst (occupied_chunks l k0)).
Proof.
  revert k0; induction l as [|p l IH]; intros k0; simpl; [constructor|].
  rewrite map_app. apply NoDup_app.
  - apply occupied_items_NoDup. now intros i j [= ->].
  - apply IH.
  - intros r H1 H2.
    apply in_map_iff in H1 as ([r1 x1] & Hr1 & H1). simpl in Hr1. subst r1.
    apply in_map_iff in H2 as ([r2 x2] & Hr2 & H2). simpl in Hr2. subst r2.
    apply occupied_items_In in H1 as (j & -> & _).
    apply occupied_chunks_In in H2 as (k & i & c & Hk & _).
    injection Hk as Hk _. lia.
Qed.

Lemma occupied_NoDup (m : Multiset) : NoDup (map fst (occupied m)).
Proof.
  unfold occupied. rewrite map_app. apply NoDup_app.
  - apply occupied_items_NoDup. now intros i j [= ->].
  - apply occupied_chunks_NoDup.
  - intros r H1 H2.
    apply in_map_iff in H1 as ([r1 x1] & Hr1 & H1). simpl in Hr1. subst r1.
    apply in_map_iff in H2 as ([r2 x2] & Hr2 & H2). simpl in Hr2. subst r2.
    apply occupied_items_In in H1 as (j & -> & _).
    apply occupied_chunks_In in H2 as (k & i & c & Hk & _). discriminate.
Qed.

Lemma map_nth_error_seq {X : Type} (l : list X) :
  map (nth_error l) (seq 0 (length l)) = map Some l.
Proof.
  induction l as [|a l IH]; simpl; [reflexivity|].
  f_equal. rewrite <- seq_shift, map_map. exact IH.
Qed.

(** C7. With [size] the current [getSize()], [getByIndex(i)] for
    [0 <= i < size] is the [i]-th occupied element in traversal order, the
    order in which [forEach] visits; the indices below [size] enumerate the
    occupied elements once each; and [getByIndex(i)] is null for [i >= size]. *)
Theorem getByIndex_enumerates (m : Multiset) :
  fits_unsigned m ->
  (forall index, (0 <= index < getSize m)%Z ->
     exists r x,
       nth_error (occupied m) (Z.to_nat index) = Some (r, x) /\
       getByIndex index m = (Some r, m) /\
       slot_at m r = Some (Some x)) /\
  (forall index, (getSize m <= index < UINT_MODULUS)%Z ->
     getByIndex index m = (None, m)) /\
  map (fun i => fst (getByIndex (Z.of_nat i) m)) (seq 0 (Z.to_nat (getSize m))) =
    map (fun rx => Some (fst rx)) (occupied m) /\
  NoDup (map fst (occupied m)) /\
  (forall (St : Type) (f : St -> T -> St) (s : St),
     snd (forEach UAVCAN_TINY (fun u x => (x, f u x)) s m) =
       fold_left f (map snd (occupied m)) s).
Proof.
  intros Hfit. pose proof (getSize_exact m Hfit) as Hsize.
  assert (Hlt : (Z.of_nat (length (occupied m)) < UINT_MODULUS)%Z).
  { pose proof (occupied_le_slots m). unfold fits_unsigned in Hfit. lia. }
  repeat split.
  - intros index Hi. rewrite Hsize in Hi.
    destruct (nth_error (occupied m) (Z.to_nat index)) as [[r x]|] eqn:E.
    + exists r, x. split; [reflexivity|]. split.
      * rewrite getByIndex_nth by lia. now rewrite E.
      * apply nth_error_In in E. now apply occupied_In in E.
    + apply nth_error_None in E. lia.
  - intros index Hi. rewrite Hsize in Hi. rewrite getByIndex_nth by lia.
    replace (nth_error (occupied m) (Z.to_nat index)) with (@None (SlotRef * T));
      [reflexivity|].
    symmetry. apply nth_error_None. lia.
  - rewrite Hsize, Nat2Z.id.
    transitivity (map Some (map fst (occupied m))); [|now rewrite map_map].
    rewrite <- map_nth_error_seq, length_map.
    apply map_ext_in. intros i Hi. apply in_seq in Hi.
    rewrite getByIndex_nth by lia. simpl. rewrite Nat2Z.id.
    now rewrite nth_error_map.
  - apply occupied_NoDup.
  - intros St f s. now rewrite forEach_const.
Qed.

(** *** Compaction *)

Local Abbreviation removeWhere := (removeWhere UAVCAN_TINY).
Local Abbreviation removeAllWhere := (removeAllWhere UAVCAN_TINY).
Local Abbreviation removeFirstWhere := (removeFirstWhere UAVCAN_TINY).
Local Abbreviation remove_matching := (remove_matching UAVCAN_TINY).
Local Abbreviation clear := (clear UAVCAN_TINY).
Local Abbreviation isEmpty := (isEmpty UAVCAN_TINY).

Lemma remove_this_spec (l : list Item) :
  remove_this l = negb (existsb (@isConstructed T) l).
Proof.
  induction l as [|it l IH]; simpl; [reflexivity|].
  destruct (isConstructed it); [reflexivity | exact IH].
Qed.

Lemma compact_chunks_spec (l : list Chunk) (a : A) :
  compact_chunks l a =
    (filter (@has_element T) l,
     release_all (filter (fun c => negb (has_element c)) l) a).
Proof.
  revert a; induction l as [|p next IH]; intros a; simpl; [reflexivity|].
  rewrite remove_this_spec. fold (has_element p).
  destruct (has_element p); simpl.
  - now rewrite IH.
  - now rewrite IH.
Qed.

Lemma filter_has_element_nonempty (l : list Chunk) :
  forallb (@has_element T) (filter (@has_element T) l) = true.
Proof.
  induction l as [|p l IH]; simpl; [reflexivity|].
  destruct (has_element p) eqn:E; simpl; [now rewrite E | exact IH].
Qed.

Lemma filter_has_element_id (l : list Chunk) :
  forallb (@has_element T) l = true -> filter (@has_element T) l = l.
Proof.
  induction l as [|p l IH]; simpl; [reflexivity|].
  intros H. apply andb_true_iff in H as [Hp Hl]. rewrite Hp. f_equal. now apply IH.
Qed.

Lemma occupied_items_empty (mk : nat -> SlotRef) (l : list Item) (i : nat) :
  existsb (@isConstructed T) l = false -> occupied_items mk l i = [].
Proof.
  revert i; induction l as [|[x|] l IH]; intros i; simpl;
    [reflexivity | discriminate | apply IH].
Qed.

Lemma occupied_chunks_filter (l : list Chunk) :
  map snd (occupied_chunks (filter (@has_element T) l) 0) =
  map snd (occupied_chunks l 0).
Proof.
  assert (Hk : forall (l0 : list Chunk) k k',
             map snd (occupied_chunks l0 k) = map snd (occupied_chunks l0 k')).
  { assert (Hi : forall mk mk' (it : list Item) i i',
               map snd (occupied_items mk it i) = map snd (occupied_items mk' it i')).
    { intros mk mk' it. induction it as [|[x|] it IH]; intros i i'; simpl;
        [reflexivity | f_equal; apply IH | apply IH]. }
    induction l0 as [|p l0 IH]; intros k k'; simpl; [reflexivity|].
    rewrite !map_app. f_equal; [apply Hi | apply IH]. }
  induction l as [|p l IH]; simpl; [reflexivity|].
  destruct (has_element p) eqn:E; simpl.
  - rewrite !map_app. f_equal.
    rewrite (Hk (filter _ l) 1 0), (Hk l 1 0). exact IH.
  - unfold has_element in E. rewrite (occupied_items_empty _ _ _ E). simpl.
    rewrite (Hk l 1 0). exact IH.
Qed.

Lemma compact_spec (a : A) (m : Multiset) :
  compact a m =
    ({| list_ := filter (@has_element T) (list_ m); static_ := static_ m |},
     release_all (filter (fun c => negb (has_element c)) (list_ m)) a).
Proof. unfold compact. now rewrite compact_chunks_spec. Qed.

Lemma compact_elements (a : A) (m : Multiset) :
  elements (fst (compact a m)) = elements m.
Proof.
  rewrite compact_spec. unfold elements, occupied, static_capacity. simpl.
  rewrite !map_app. f_equal. apply occupied_chunks_filter.
Qed.

(** *** removeWhere, strategy RemoveAll *)

Section RemoveAllObserving.

Variable St : Type.
Variable p : T -> bool.
Variable f : St -> T -> St.

Lemma removeAll_items (mk : nat -> SlotRef) (l : list Item) (i : nat) (s : St) (n : Z) :
  removeWhere_items (observing p f) RemoveAll l s (to_unsigned n) =
    (map (kill p) l,
     fold_left f (map snd (occupied_items mk l i)) s,
     to_unsigned (n + Z.of_nat (length (filter p (map snd (occupied_items mk l i)))))).
Proof.
  revert i s n; induction l as [|[x|] l IH]; intros i s n; simpl.
  - now rewrite Z.add_0_r.
  - unfold observing at 1. destruct (p x) eqn:Hp; simpl.
    + rewrite to_unsigned_add_l, (IH (S i)). simpl. do 2 f_equal. lia.
    + now rewrite (IH (S i)).
  - now rewrite (IH (S i)).
Qed.

Lemma removeAll_chunks (l : list Chunk) (k : nat) (s : St) (n : Z) :
  removeWhere_chunks (observing p f) RemoveAll l s (to_unsigned n) =
    (map (with_items (map (kill p))) l,
     fold_left f (map snd (occupied_chunks l k)) s,
     to_unsigned (n + Z.of_nat (length (filter p (map snd (occupied_chunks l k)))))).
Proof.
  revert k s n; induction l as [|c next IH]; intros k s n; simpl.
  - now rewrite Z.add_0_r.
  - unfold stop_after_one. rewrite andb_false_r.
    rewrite (removeAll_items (ChunkSlot k) _ 0), (IH (S k)).
    rewrite !map_app, fold_left_app, filter_app, length_app.
    unfold with_items at 2. do 2 f_equal. lia.
Qed.

Lemma removeAllWhere_counted (s : St) (a : A) (m : Multiset) :
  removeWhere (observing p f) RemoveAll s a m =
    (if (0 <? to_unsigned (Z.of_nat (length (filter p (elements m)))))%Z
     then compact a (remove_matching p m)
     else (remove_matching p m, a),
     fold_left f (elements m) s).
Proof.
  unfold removeWhere, remove_matching, elements, occupied, static_capacity.
  destruct m as [l st]. simpl. change 0%Z with (to_unsigned 0) at 1 2.
  destruct UAVCAN_TINY; simpl.
  - rewrite (removeAll_chunks l 0). simpl.
    destruct (0 <? _)%Z; [|reflexivity].
    now destruct (compact a _).
  - rewrite (removeAll_items StaticSlot st 0), (removeAll_chunks l 0).
    rewrite !map_app, fold_left_app, filter_app, length_app.
    replace (0 + Z.of_nat (length (filter p (map snd (occupied_items StaticSlot st 0)))) +
             Z.of_nat (length (filter p (map snd (occupied_chunks l 0)))))%Z
      with (Z.of_nat (length (filter p (map snd (occupied_items StaticSlot st 0))) +
                      length (filter p (map snd (occupied_chunks l 0))))) by lia.
    destruct (0 <? _)%Z; [|reflexivity].
    now destruct (compact a _).
Qed.

Lemma kill_none_matching (mk : nat -> SlotRef) (l : list Item) (i : nat) :
  existsb p (map snd (occupied_items mk l i)) = false -> map (kill p) l = l.
Proof.
  revert i; induction l as [|[x|] l IH]; intros i; simpl; [reflexivity| |].
  - destruct (p x); simpl; [discriminate|]. intros H. now rewrite (IH (S i)).
  - intros H. now rewrite (IH (S i)).
Qed.

Lemma kill_none_matching_chunks (l : list Chunk) (k : nat) :
  existsb p (map snd (occupied_chunks l k)) = false ->
  map (with_items (map (kill p))) l = l.
Proof.
  revert k; induction l as [|c l IH]; intros k; simpl; [reflexivity|].
  rewrite map_app, existsb_app. intros H. apply orb_false_iff in H as [Hc Hl].
  rewrite (IH (S k) Hl). unfold with_items.
  rewrite (kill_none_matching (ChunkSlot k) _ 0 Hc). now destruct c.
Qed.

Lemma remove_matching_none (m : Multiset) :
  existsb p (elements m) = false -> remove_matching p m = m.
Proof.
  unfold remove_matching, elements, occupied, static_capacity.
  destruct m as [l st]. simpl. rewrite map_app, existsb_app.
  intros H. apply orb_false_iff in H as [Hs Hl].
  rewrite (kill_none_matching_chunks l 0 Hl).
  destruct UAVCAN_TINY; [reflexivity|].
  now rewrite (kill_none_matching StaticSlot st 0 Hs).
Qed.

Lemma filter_length_pos (xs : list T) :
  (0 <? Z.of_nat (length (filter p xs)))%Z = existsb p xs.
Proof.
  induction xs as [|x xs IH]; simpl; [reflexivity|].
  destruct (p x); simpl; [|exact IH].
  apply Z.ltb_lt. lia.
Qed.

Lemma removeAllWhere_spec (s : St) (a : A) (m : Multiset) :
  fits_unsigned m ->
  removeWhere (observing p f) RemoveAll s a m =
    (if existsb p (elements m) then compact a (remove_matching p m) else (m, a),
     fold_left f (elements m) s).
Proof.
  intros Hfit. rewrite removeAllWhere_counted.
  rewrite to_unsigned_small, filter_length_pos.
  - destruct (existsb p (elements m)) eqn:E; [reflexivity|].
    now rewrite remove_matching_none.
  - pose proof (filter_length_le p (elements m)) as Hle.
    unfold elements in Hle at 2. rewrite length_map in Hle.
    pose proof (occupied_le_slots m). unfold fits_unsigned in Hfit. lia.
Qed.

End RemoveAllObserving.

Lemma occupied_items_kill (p : T -> bool) (mk : nat -> SlotRef) (l : list Item) (i : nat) :
  occupied_items mk (map (kill p) l) i =
  filter (fun rx => negb (p (snd rx))) (occupied_items mk l i).
Proof.
  revert i; induction l as [|[x|] l IH]; intros i; simpl; [reflexivity| |apply IH].
  destruct (p x); simpl; now rewrite IH.
Qed.

Lemma occupied_chunks_kill (p : T -> bool) (l : list Chunk) (k : nat) :
  occupied_chunks (map (with_items (map (kill p))) l) k =
  filter (fun rx => negb (p (snd rx))) (occupied_chunks l k).
Proof.
  revert k; induction l as [|c l IH]; intros k; simpl; [reflexivity|].
  now rewrite filter_app, occupied_items_kill, IH.
Qed.

Lemma occupied_remove_matching (p : T -> bool) (m : Multiset) :
  occupied (remove_matching p m) =
  filter (fun rx => negb (p (snd rx))) (occupied m).
Proof.
  unfold occupied, remove_matching, static_capacity. simpl.
  rewrite filter_app, occupied_chunks_kill.
  destruct UAVCAN_TINY; [reflexivity|]. now rewrite occupied_items_kill.
Qed.

Lemma map_snd_filter (p : T -> bool) (occ : list (SlotRef * T)) :
  map snd (filter (fun rx => negb (p (snd rx))) occ) =
  filter (fun x => negb (p x)) (map snd occ).
Proof.
  induction occ as [|[r x] occ IH]; simpl; [reflexivity|].
  destruct (p x); simpl; now rewrite IH.
Qed.

(** *** removeWhere, strategy RemoveOne *)

Section RemoveOneReadonly.

Variable St : Type.
Variable pred : St -> T -> bool * St.

Lemma removeOne_items (mk : nat -> SlotRef) (rest : list (SlotRef * T))
    (l : list Item) (i : nat) (s : St) (n : Z)
    (l' : list Item) (s' : St) (n' : Z) :
  removeWhere_items (readonly pred) RemoveOne l s n = (l', s', n') ->
  (exists j,
     scan pred s (occupied_items mk l i ++ rest) = (Some (mk (i + j)), s') /\
     l' = update_nth (fun _ => None) l j /\ n' = to_unsigned (n + 1)) \/
  (scan pred s (occupied_items mk l i ++ rest) = scan pred s' rest /\
   l' = l /\ n' = n).
Proof.
  revert i s l' s' n'; induction l as [|[x|] l IH]; intros i s l' s' n'; simpl.
  - intros [= <- <- <-]. right. auto.
  - unfold readonly at 1. destruct (pred s x) as [[|] s1].
    + intros [= <- <- <-]. left. exists 0. rewrite Nat.add_0_r. auto.
    + destruct (removeWhere_items (readonly pred) RemoveOne l s1 n)
        as [[l0 s0] n0] eqn:E.
      intros [= <- <- <-].
      apply (IH (S i)) in E as [(j & Hs & -> & ->) | (Hs & -> & ->)].
      * left. exists (S j). rewrite Hs.
        replace (i + S j) with (S i + j) by lia. auto.
      * right. auto.
  - destruct (removeWhere_items (readonly pred) RemoveOne l s n)
      as [[l0 s0] n0] eqn:E.
    intros [= <- <- <-].
    apply (IH (S i)) in E as [(j & Hs & -> & ->) | (Hs & -> & ->)].
    + left. exists (S j). rewrite Hs.
      replace (i + S j) with (S i + j) by lia. auto.
    + right. auto.
Qed.

Lemma removeOne_chunks_stopped (l : list Chunk) (s : St) (n : Z) :
  (0 < n)%Z ->
  removeWhere_chunks (readonly pred) RemoveOne l s n = (l, s, n).
Proof.
  intros Hn. destruct l as [|c l]; simpl; [reflexivity|].
  unfold stop_after_one. apply Z.ltb_lt in Hn. now rewrite Hn.
Qed.

Lemma removeOne_chunks (l : list Chunk) (k0 : nat) (s : St)
    (l' : list Chunk) (s' : St) (n' : Z) :
  removeWhere_chunks (readonly pred) RemoveOne l s 0 = (l', s', n') ->
  (exists k j,
     scan pred s (occupied_chunks l k0) = (Some (ChunkSlot (k0 + k) j), s') /\
     l' = update_nth (with_items (fun its => update_nth (fun _ => None) its j)) l k /\
     n' = 1%Z) \/
  (scan pred s (occupied_chunks l k0) = (None, s') /\ l' = l /\ n' = 0%Z).
Proof.
  revert k0 s l' s' n'; induction l as [|c next IH]; intros k0 s l' s' n'; simpl.
  - intros [= <- <- <-]. right. auto.
  - destruct (removeWhere_items (readonly pred) RemoveOne (items c) s 0)
      as [[its s1] n1] eqn:E.
    apply (removeOne_items (ChunkSlot k0) (occupied_chunks next (S k0)) _ 0) in E
      as [(j & Hs & -> & ->) | (Hs & -> & ->)].
    + rewrite removeOne_chunks_stopped by (vm_compute; reflexivity).
      intros [= <- <- <-]. left. exists 0, j. rewrite Hs, Nat.add_0_r. auto.
    + destruct (removeWhere_chunks (readonly pred) RemoveOne next s1 0)
        as [[rest s2] n2] eqn:E'.
      intros [= <- <- <-]. rewrite with_same_items, Hs.
      apply (IH (S k0)) in E' as [(k & j & Hs' & -> & ->) | (Hs' & -> & ->)].
      * left. exists (S k), j. rewrite Hs'.
        replace (k0 + S k) with (S k0 + k) by lia. auto.
      * right. auto.
Qed.

Lemma removeFirstWhere_spec (s : St) (a : A) (m : Multiset) :
  removeWhere (readonly pred) RemoveOne s a m =
    match scan pred s (occupied m) with
    | (Some r, s') => (compact a (write_slot m r None), s')
    | (None, s') => (m, a, s')
    end.
Proof.
  unfold removeWhere, occupied, static_capacity. destruct m as [l st]. simpl.
  destruct UAVCAN_TINY; simpl.
  - destruct (removeWhere_chunks (readonly pred) RemoveOne l s 0)
      as [[l2 s2] n2] eqn:E.
    apply (removeOne_chunks l 0) in E as [(k & j & -> & -> & ->) | (-> & -> & ->)];
      simpl; [|reflexivity].
    now destruct (compact a _).
  - destruct (removeWhere_items (readonly pred) RemoveOne st s 0)
      as [[st1 s1] n1] eqn:E.
    apply (removeOne_items StaticSlot (occupied_chunks l 0) _ 0) in E
      as [(j & -> & -> & ->) | (-> & -> & ->)].
    + rewrite removeOne_chunks_stopped by (vm_compute; reflexivity). simpl.
      now destruct (compact a _).
    + destruct (removeWhere_chunks (readonly pred) RemoveOne l s1 0)
        as [[l2 s2] n2] eqn:E.
      apply (removeOne_chunks l 0) in E as [(k & j & -> & -> & ->) | (-> & -> & ->)];
        simpl; [|reflexivity].
      now destruct (compact a _).
Qed.

End RemoveOneReadonly.

Section RemoveOneObserving.

Variable St : Type.
Variable p : T -> bool.
Variable f : St -> T -> St.

Lemma remove_first_app (xs ys : list T) :
  remove_first p (xs ++ ys) =
  if existsb p xs then remove_first p xs ++ ys else xs ++ remove_first p ys.
Proof.
  induction xs as [|x xs IH]; simpl; [reflexivity|].
  destruct (p x); simpl; [reflexivity|]. rewrite IH. now destruct (existsb p xs).
Qed.

Lemma through_first_app (xs ys : list T) :
  through_first p (xs ++ ys) =
  if existsb p xs then through_first p xs else xs ++ through_first p ys.
Proof.
  induction xs as [|x xs IH]; simpl; [reflexivity|].
  destruct (p x); simpl; [reflexivity|]. rewrite IH. now destruct (existsb p xs).
Qed.

Lemma remove_first_none (xs : list T) :
  existsb p xs = false -> remove_first p xs = xs /\ through_first p xs = xs.
Proof.
  induction xs as [|x xs IH]; simpl; [auto|].
  destruct (p x); simpl; [discriminate|]. intros H.
  destruct (IH H) as [-> ->]. auto.
Qed.

Lemma removeOne_items_values (mk : nat -> SlotRef) (l : list Item) (i : nat)
    (s : St) (n : Z) (l' : list Item) (s' : St) (n' : Z) :
  removeWhere_items (observing p f) RemoveOne l s n = (l', s', n') ->
  map snd (occupied_items mk l' i) = remove_first p (map snd (occupied_items mk l i)) /\
  s' = fold_left f (through_first p (map snd (occupied_items mk l i))) s /\
  n' = (if existsb p (map snd (occupied_items mk l i)) then to_unsigned (n + 1) else n).
Proof.
  revert i s l' s' n'; induction l as [|[x|] l IH]; intros i s l' s' n'; simpl.
  - intros [= <- <- <-]. auto.
  - unfold observing at 1. destruct (p x) eqn:Hp; simpl.
    + intros [= <- <- <-]. auto.
    + destruct (removeWhere_items _ RemoveOne l (f s x) n)
        as [[l0 s0] n0] eqn:E.
      intros [= <- <- <-]. apply (IH (S i)) in E as (E1 & -> & ->).
      simpl. rewrite E1. auto.
  - destruct (removeWhere_items _ RemoveOne l s n)
      as [[l0 s0] n0] eqn:E.
    intros [= <- <- <-]. now apply (IH (S i)) in E.
Qed.

Lemma removeOne_chunks_values (l : list Chunk) (k : nat) (s : St)
    (l' : list Chunk) (s' : St) (n' : Z) :
  removeWhere_chunks (observing p f) RemoveOne l s 0 = (l', s', n') ->
  map snd (occupied_chunks l' k) = remove_first p (map snd (occupied_chunks l k)) /\
  s' = fold_left f (through_first p (map snd (occupied_chunks l k))) s /\
  n' = (if existsb p (map snd (occupied_chunks l k)) then 1%Z else 0%Z).
Proof.
  revert k s l' s' n'; induction l as [|c next IH]; intros k s l' s' n'; simpl.
  - intros [= <- <- <-]. auto.
  - destruct (removeWhere_items (observing p f) RemoveOne (items c) s 0)
      as [[its s1] n1] eqn:E.
    apply (removeOne_items_values (ChunkSlot k) _ 0) in E as (Hv & -> & ->).
    rewrite !map_app, remove_first_app, through_first_app, existsb_app.
    destruct (existsb p (map snd (occupied_items (ChunkSlot k) (items c) 0))) eqn:Ex.
    + change (to_unsigned (0 + 1)) with 1%Z.
      rewrite (removeOne_chunks_stopped St (fun u x => (p x, f u x)))
        by reflexivity.
      intros [= <- <- <-]. simpl. rewrite map_app, Hv. auto.
    + destruct (removeWhere_chunks (observing p f) RemoveOne next _ 0)
        as [[rest s2] n2] eqn:E'.
      intros [= <- <- <-]. apply (IH (S k)) in E' as (E1 & -> & ->).
      destruct (remove_first_none _ Ex) as [R1 R2].
      simpl. rewrite map_app, Hv, E1, fold_left_app, R1, R2. auto.
Qed.

Lemma removeFirstWhere_values (s : St) (a : A) (m : Multiset) :
  elements (fst (fst (removeWhere (observing p f) RemoveOne s a m))) =
    remove_first p (elements m) /\
  snd (removeWhere (observing p f) RemoveOne s a m) =
    fold_left f (through_first p (elements m)) s.
Proof.
  assert (Hc : forall (n : Z) (l2 : list Chunk) (st1 : list Item) (s2 : St),
             elements (fst (fst
               (if (0 <? n)%Z
                then let '(m3, a3) := compact a {| list_ := l2; static_ := st1 |} in
                     (m3, a3, s2)
                else ({| list_ := l2; static_ := st1 |}, a, s2)))) =
             elements {| list_ := l2; static_ := st1 |} /\
             snd (if (0 <? n)%Z
                  then let '(m3, a3) := compact a {| list_ := l2; static_ := st1 |} in
                       (m3, a3, s2)
                  else ({| list_ := l2; static_ := st1 |}, a, s2)) = s2).
  { intros n l2 st1 s2. destruct (0 <? n)%Z; [|auto].
    pose proof (compact_elements a {| list_ := l2; static_ := st1 |}) as H.
    destruct (compact a _) as [m3 a3]. auto. }
  revert Hc. unfold removeWhere, elements, occupied, static_capacity.
  destruct m as [l st]. simpl. destruct UAVCAN_TINY; intros Hc.
  - destruct (removeWhere_chunks _ RemoveOne l s 0) as [[l2 s2] n2] eqn:E.
    apply (removeOne_chunks_values l 0) in E as (E1 & -> & ->).
    destruct (Hc (if existsb p (map snd (occupied_chunks l 0)) then 1%Z else 0%Z)
                l2 st (fold_left f (through_first p (map snd (occupied_chunks l 0))) s))
      as [-> ->].
    simpl. auto.
  - destruct (removeWhere_items _ RemoveOne st s 0) as [[st1 s1] n1] eqn:E.
    apply (removeOne_items_values StaticSlot _ 0) in E as (Hv & -> & ->).
    destruct (existsb p (map snd (occupied_items StaticSlot st 0))) eqn:Ex.
    + change (to_unsigned (0 + 1)) with 1%Z.
      rewrite (removeOne_chunks_stopped St (fun u x => (p x, f u x)))
        by reflexivity.
      destruct (Hc 1%Z l st1
                  (fold_left f (through_first p (map snd (occupied_items StaticSlot st 0))) s))
        as [-> ->].
      simpl. rewrite !map_app, remove_first_app, through_first_app, Ex, Hv. auto.
    + destruct (removeWhere_chunks _ RemoveOne l _ 0) as [[l2 s2] n2] eqn:E.
      apply (removeOne_chunks_values l 0) in E as (E1 & -> & ->).
      destruct (remove_first_none _ Ex) as [R1 R2].
      match goal with
      | |- context [if (0 <? ?n)%Z then _ else (?m2, _, ?s2)] =>
          destruct (Hc n l2 st1 s2) as [-> ->]
      end.
      simpl.
      rewrite !map_app, remove_first_app, through_first_app, Ex, Hv, E1,
        fold_left_app, R1, R2.
      auto.
Qed.

End RemoveOneObserving.

(** *** Destroying one slot *)

Lemma nth_error_update_nth_same {X : Type} (g : X -> X) (l : list X) (i : nat) :
  nth_error (update_nth g l i) i = option_map g (nth_error l i).
Proof.
  revert i; induction l as [|x l IH]; intros [|i]; simpl; auto.
Qed.

Lemma nth_error_update_nth_other {X : Type} (g : X -> X) (l : list X) (i j : nat) :
  i <> j -> nth_error (update_nth g l i) j = nth_error l j.
Proof.
  revert i j; induction l as [|x l IH]; intros [|i] [|j] H; simpl; auto;
    try congruence.
Qed.

Lemma slot_at_write_other (m : Multiset) (r r' : SlotRef) (it : Item) :
  r' <> r -> slot_at (write_slot m r it) r' = slot_at m r'.
Proof.
  intros Hne. destruct r as [i | k i], r' as [i' | k' i']; simpl; try reflexivity.
  - apply nth_error_update_nth_other. congruence.
  - destruct (Nat.eq_dec k k') as [<- | Hk].
    + rewrite nth_error_update_nth_same.
      destruct (nth_error (list_ m) k) as [c|]; simpl; [|reflexivity].
      apply nth_error_update_nth_other. congruence.
    + now rewrite nth_error_update_nth_other.
Qed.

Lemma slot_at_write_same (m : Multiset) (r : SlotRef) (it old : Item) :
  slot_at m r = Some old -> slot_at (write_slot m r it) r = Some it.
Proof.
  destruct r as [i | k i]; simpl.
  - rewrite nth_error_update_nth_same. now intros ->.
  - rewrite nth_error_update_nth_same.
    destruct (nth_error (list_ m) k) as [c|]; simpl; [|discriminate].
    rewrite nth_error_update_nth_same. now intros ->.
Qed.

Lemma removeAllWhere_elements (St : Type) (p : T -> bool) (f : St -> T -> St)
    (s : St) (a : A) (m : Multiset) :
  fits_unsigned m ->
  elements (fst (fst (removeWhere (observing p f) RemoveAll s a m))) =
  filter (fun x => negb (p x)) (elements m).
Proof.
  intros Hfit. rewrite removeAllWhere_spec by exact Hfit. simpl.
  destruct (existsb p (elements m)) eqn:E.
  - rewrite compact_elements. unfold elements.
    now rewrite occupied_remove_matching, map_snd_filter.
  - simpl. rewrite <- (remove_matching_none p m E) at 1. unfold elements.
    now rewrite occupied_remove_matching, map_snd_filter.
Qed.

Section RemoveAllReadonly.

Variable St : Type.
Variable pred : St -> T -> bool * St.

Lemma keep_false_app (s : St) (xs ys : list T) :
  keep_false pred s (xs ++ ys) =
    (fst (keep_false pred s xs) ++ fst (keep_false pred (snd (keep_false pred s xs)) ys),
     snd (keep_false pred (snd (keep_false pred s xs)) ys)).
Proof.
  revert s; induction xs as [|x xs IH]; intros s; simpl.
  - now destruct (keep_false pred s ys).
  - destruct (pred s x) as [b s1]. rewrite IH.
    destruct (keep_false pred s1 xs) as [kept s2]. simpl. now destruct b.
Qed.

Lemma removeAll_items_kept (mk : nat -> SlotRef) (l : list Item) (i : nat)
    (s : St) (n : Z) (l' : list Item) (s' : St) (n' : Z) :
  removeWhere_items (readonly pred) RemoveAll l s n = (l', s', n') ->
  keep_false pred s (map snd (occupied_items mk l i)) =
    (map snd (occupied_items mk l' i), s').
Proof.
  revert i s n l' s' n'; induction l as [|[x|] l IH]; intros i s n l' s' n'; simpl.
  - now intros [= <- <- <-].
  - unfold readonly at 1. destruct (pred s x) as [[|] s1].
    + destruct (removeWhere_items _ RemoveAll l s1 (to_unsigned (n + 1)))
        as [[l0 s0] n0] eqn:E.
      intros [= <- <- <-]. apply (IH (S i)) in E. now rewrite E.
    + destruct (removeWhere_items _ RemoveAll l s1 n) as [[l0 s0] n0] eqn:E.
      intros [= <- <- <-]. apply (IH (S i)) in E. now rewrite E.
  - destruct (removeWhere_items _ RemoveAll l s n) as [[l0 s0] n0] eqn:E.
    intros [= <- <- <-]. now apply (IH (S i)) in E.
Qed.

Lemma removeAll_chunks_kept (l : list Chunk) (k : nat)
    (s : St) (n : Z) (l' : list Chunk) (s' : St) (n' : Z) :
  removeWhere_chunks (readonly pred) RemoveAll l s n = (l', s', n') ->
  keep_false pred s (map snd (occupied_chunks l k)) =
    (map snd (occupied_chunks l' k), s').
Proof.
  revert k s n l' s' n'; induction l as [|c next IH]; intros k s n l' s' n'; simpl.
  - now intros [= <- <- <-].
  - unfold stop_after_one. rewrite andb_false_r.
    destruct (removeWhere_items _ RemoveAll (items c) s n) as [[its s1] n1] eqn:E.
    apply (removeAll_items_kept (ChunkSlot k) _ 0) in E.
    destruct (removeWhere_chunks _ RemoveAll next s1 n1) as [[rest s2] n2] eqn:E'.
    apply (IH (S k)) in E'.
    intros [= <- <- <-]. simpl. rewrite !map_app, keep_false_app, E. simpl.
    now rewrite E'.
Qed.

Lemma removeAllWhere_kept (s : St) (a : A) (m : Multiset) :
  keep_false pred s (elements m) =
    (elements (fst (fst (removeWhere (readonly pred) RemoveAll s a m))),
     snd (removeWhere (readonly pred) RemoveAll s a m)).
Proof.
  unfold removeWhere.
  destruct (if UAVCAN_TINY then (static_ m, s, 0%Z)
            else removeWhere_items (readonly pred) RemoveAll (static_ m) s 0)
    as [[st1 s1] n1] eqn:E1.
  assert (H1 : keep_false pred s (map snd (occupied_items StaticSlot (static_capacity m) 0)) =
               (map snd (occupied_items StaticSlot
                           (static_capacity {| list_ := list_ m; static_ := st1 |}) 0),
                s1)).
  { unfold static_capacity. simpl. destruct UAVCAN_TINY.
    - now injection E1 as <- <- <-.
    - now apply (removeAll_items_kept StaticSlot _ 0) in E1. }
  destruct (removeWhere_chunks (readonly pred) RemoveAll (list_ m) s1 n1)
    as [[l2 s2] n2] eqn:E2.
  apply (removeAll_chunks_kept _ 0) in E2.
  assert (H : keep_false pred s (elements m) =
              (elements {| list_ := l2; static_ := st1 |}, s2)).
  { unfold elements, occupied. rewrite !map_app, keep_false_app, H1. simpl.
    now rewrite E2. }
  rewrite H. destruct (0 <? n2)%Z; [|reflexivity].
  pose proof (compact_elements a {| list_ := l2; static_ := st1 |}) as Hc.
  destruct (compact a _) as [m3 a3]. simpl in *. now rewrite Hc.
Qed.

End RemoveAllReadonly.

(** C1. With strategy RemoveOne, [removeWhere] destroys at most one element:
    the first occupied one, in traversal order, on which the predicate
    answers true, and the predicate is not called again after that answer.
    With strategy RemoveAll it goes through every static slot and every
    chunk and destroys each element on which the predicate answers true.
    Elements on which it answers false stay as they are. *)
Theorem removeWhere_strategies (a : A) (m : Multiset) :
  (forall (St : Type) (pred : St -> T -> bool * St) (s : St),
     removeFirstWhere (readonly pred) s a m =
       match scan pred s (occupied m) with
       | (Some r, s') => (compact a (write_slot m r None), s')
       | (None, s') => (m, a, s')
       end) /\
  (forall r r', r' <> r -> slot_at (write_slot m r None) r' = slot_at m r') /\
  (forall r old, slot_at m r = Some old -> slot_at (write_slot m r None) r = Some None) /\
  (forall (St : Type) (p : T -> bool) (f : St -> T -> St) (s : St),
     elements (fst (fst (removeFirstWhere (observing p f) s a m))) =
       remove_first p (elements m) /\
     snd (removeFirstWhere (observing p f) s a m) =
       fold_left f (through_first p (elements m)) s) /\
  (forall (St : Type) (pred : St -> T -> bool * St) (s : St),
     keep_false pred s (elements m) =
       (elements (fst (fst (removeAllWhere (readonly pred) s a m))),
        snd (removeAllWhere (readonly pred) s a m))) /\
  (fits_unsigned m ->
   forall (St : Type) (p : T -> bool) (f : St -> T -> St) (s : St),
     removeAllWhere (observing p f) s a m =
       (if existsb p (elements m) then compact a (remove_matching p m) else (m, a),
        fold_left f (elements m) s) /\
     elements (fst (fst (removeAllWhere (observing p f) s a m))) =
       filter (fun x => negb (p x)) (elements m)) /\
  (forall p : T -> bool,
     occupied (remove_matching p m) =
       filter (fun rx => negb (p (snd rx))) (occupied m)) /\
  (forall (a0 : A) (m0 : Multiset),
     elements (fst (compact a0 m0)) = elements m0 /\
     static_ (fst (compact a0 m0)) = static_ m0).
Proof.
  repeat split.
  - intros St pred s. apply removeFirstWhere_spec.
  - intros r r'. apply slot_at_write_other.
  - intros r old. apply slot_at_write_same.
  - apply removeFirstWhere_values.
  - apply removeFirstWhere_values.
  - intros St pred s. apply removeAllWhere_kept.
  - now apply removeAllWhere_spec.
  - now apply removeAllWhere_elements.
  - intros p. apply occupied_remove_matching.
  - apply compact_elements.
  - now rewrite compact_spec.
Qed.

(** *** clear *)

Local Abbreviation static_unused := (static_unused UAVCAN_TINY).

Lemma kill_yes_items (l : list Item) :
  existsb (@isConstructed T) (map (kill (@yes T)) l) = false.
Proof. induction l as [|[x|] l IH]; simpl; auto. Qed.

Lemma kill_yes_chunks (l : list Chunk) :
  filter (@has_element T) (map (with_items (map (kill (@yes T)))) l) = [] /\
  filter (fun c => negb (has_element c)) (map (with_items (map (kill (@yes T)))) l) =
    map (with_items (map (kill (@yes T)))) l.
Proof.
  induction l as [|c l [IH1 IH2]]; simpl; [auto|].
  assert (E : has_element (with_items (map (kill (@yes T))) c) = false)
    by apply kill_yes_items.
  rewrite E. simpl. rewrite IH2. auto.
Qed.

Lemma release_all_with_items (g : list Item -> list Item) (l : list Chunk) (a : A) :
  release_all (map (with_items g) l) a = release_all l a.
Proof.
  unfold release_all. revert a; induction l as [|c l IH]; intros a; simpl;
    [reflexivity | apply IH].
Qed.

Lemma occupied_items_nil (mk : nat -> SlotRef) (l : list Item) (i : nat) :
  occupied_items mk l i = [] <-> existsb (@isConstructed T) l = false.
Proof.
  revert i; induction l as [|[x|] l IH]; intros i; simpl.
  - split; reflexivity.
  - split; discriminate.
  - apply IH.
Qed.

Lemma occupied_chunks_nil (l : list Chunk) (k : nat) :
  forallb (@has_element T) l = true -> occupied_chunks l k = [] -> l = [].
Proof.
  destruct l as [|c l]; simpl; [reflexivity|].
  intros H E. apply andb_true_iff in H as [Hc _].
  apply app_eq_nil in E as [E _]. apply occupied_items_nil in E.
  unfold has_element in Hc. congruence.
Qed.

Lemma no_element_all_free (l : list Item) :
  existsb (@isConstructed T) l = false <->
  forallb (fun it => negb (isConstructed it)) l = true.
Proof.
  induction l as [|it l IH]; simpl; [tauto|].
  destruct (isConstructed it); simpl; [split; discriminate | exact IH].
Qed.

Lemma isEmpty_occupied (m : Multiset) : occupied m = [] -> isEmpty m = true.
Proof.
  intros E. unfold isEmpty.
  change (@YesPredicate T) with (readonly (fun (u : unit) (x : T) => (true, u))).
  now rewrite find_scan, E.
Qed.

Lemma clear_spec (a : A) (m : Multiset) :
  fits_unsigned m ->
  clear a m =
    if existsb (@yes T) (elements m)
    then compact a (remove_matching (@yes T) m)
    else (m, a).
Proof.
  intros Hfit. unfold clear, removeAllWhere.
  change (@YesPredicate T) with (observing (@yes T) (fun (u : unit) (_ : T) => u)).
  now rewrite removeAllWhere_spec.
Qed.

(** C8. After [clear()]: [isEmpty()] is true, [getSize()] is 0, every slot
    of the static array is unoccupied, no chunk is left in the list, and
    every chunk that was in it has gone back to the allocator. *)
Theorem clear_empties_container (a : A) (m : Multiset) :
  fits_unsigned m -> chunks_nonempty m -> static_unused m ->
  isEmpty (fst (clear a m)) = true /\
  getSize (fst (clear a m)) = 0%Z /\
  occupied (fst (clear a m)) = [] /\
  forallb (fun it => negb (isConstructed it)) (static_ (fst (clear a m))) = true /\
  length (static_ (fst (clear a m))) = length (static_ m) /\
  list_ (fst (clear a m)) = [] /\
  snd (clear a m) = release_all (list_ m) a.
Proof.
  intros Hfit Hne Hun.
  assert (H : forallb (fun it => negb (isConstructed it)) (static_ (fst (clear a m))) = true /\
              length (static_ (fst (clear a m))) = length (static_ m) /\
              list_ (fst (clear a m)) = [] /\
              snd (clear a m) = release_all (list_ m) a).
  { rewrite (clear_spec a m Hfit). destruct (existsb (@yes T) (elements m)) eqn:E.
    - rewrite compact_spec. simpl.
      destruct (kill_yes_chunks (list_ m)) as [-> ->].
      rewrite release_all_with_items. unfold static_unused in Hun.
      destruct UAVCAN_TINY.
      + auto.
      + rewrite length_map. repeat split.
        apply no_element_all_free, kill_yes_items.
    - simpl. assert (Ho : occupied m = []).
      { unfold elements in E. destruct (occupied m) as [|[r x] occ];
          [reflexivity | discriminate]. }
      unfold occupied in Ho. apply app_eq_nil in Ho as [Hs Hc].
      apply (occupied_chunks_nil _ 0 Hne) in Hc. rewrite Hc.
      repeat split. unfold static_unused in Hun. unfold static_capacity in Hs.
      destruct UAVCAN_TINY; [auto|].
      now apply no_element_all_free, (occupied_items_nil StaticSlot _ 0). }
  destruct H as (H1 & H2 & H3 & H4).
  assert (Ho : occupied (fst (clear a m)) = []).
  { unfold occupied, static_capacity. rewrite H3. simpl. rewrite app_nil_r.
    destruct UAVCAN_TINY; [reflexivity|].
    now apply occupied_items_nil, no_element_all_free. }
  repeat split; try assumption.
  - now apply isEmpty_occupied.
  - now rewrite getSize_length, Ho.
Qed.

(** *** What a removal does to the counts *)

Local Abbreviation chunks_nonempty := (@chunks_nonempty T).

Lemma existsb_shape (l l' : list Item) :
  map (@isConstructed T) l = map (@isConstructed T) l' ->
  existsb (@isConstructed T) l = existsb (@isConstructed T) l'.
Proof.
  revert l'; induction l as [|it l IH]; intros [|it' l'] H; try discriminate;
    [reflexivity|].
  simpl in *. injection H as -> H. now rewrite (IH l' H).
Qed.

Lemma has_element_shape (l l' : list Chunk) :
  map (@chunk_shape T) l = map (@chunk_shape T) l' ->
  forallb (@has_element T) l = forallb (@has_element T) l'.
Proof.
  revert l'; induction l as [|c l IH]; intros [|c' l'] H; try discriminate;
    [reflexivity|].
  simpl in *. injection H as _ Hi H. unfold has_element at 1 3.
  now rewrite (existsb_shape _ _ Hi), (IH l' H).
Qed.

Section RemoveEffect.

Variable St : Type.
Variable predicate : St -> T -> bool * T * St.
Variable strategy : RemoveStrategy.

Lemma to_unsigned_idem (z : Z) : to_unsigned (to_unsigned z) = to_unsigned z.
Proof. unfold to_unsigned. apply Zmod_mod. Qed.

Ltac five := split; [|split; [|split; [|split]]].

Lemma removeWhere_items_effect (mk : nat -> SlotRef) (l : list Item) (i : nat)
    (s : St) (n : Z) (l' : list Item) (s' : St) (n' : Z) :
  removeWhere_items predicate strategy l s n = (l', s', n') ->
  exists d : nat,
    (forall k, removeWhere_items (counting predicate) strategy l (s, k) n =
               (l', (s', (k + Z.of_nat d)%Z), n')) /\
    length (occupied_items mk l' i) + d = length (occupied_items mk l i) /\
    to_unsigned n' = to_unsigned (n + Z.of_nat d) /\
    (to_unsigned n = n -> to_unsigned n' = n') /\
    (d = 0 -> map (@isConstructed T) l' = map (@isConstructed T) l).
Proof.
  revert i s n l' s' n'; induction l as [|[x|] l IH]; intros i s n l' s' n'.
  - simpl. intros [= <- <- <-]. exists 0. simpl. five; auto.
    + intros k. now rewrite Z.add_0_r.
    + now rewrite Z.add_0_r.
  - cbn [removeWhere_items]. unfold counting at 1. cbn [fst snd].
    destruct (predicate s x) as [[[|] x'] s1].
    + destruct strategy.
      * intros [= <- <- <-]. exists 1. five.
        -- reflexivity.
        -- simpl. lia.
        -- apply to_unsigned_idem.
        -- intros _. apply to_unsigned_idem.
        -- discriminate.
      * destruct (removeWhere_items predicate RemoveAll l s1 (to_unsigned (n + 1)))
          as [[l0 s0] n0] eqn:E.
        intros [= <- <- <-].
        apply (IH (S i)) in E as (d & Hc & Hl & Hn & Hr & Hs).
        exists (S d). five.
        -- intros k. rewrite Hc. do 2 f_equal. f_equal. lia.
        -- simpl. lia.
        -- rewrite Hn, to_unsigned_add_l. f_equal. lia.
        -- intros _. apply Hr, to_unsigned_idem.
        -- discriminate.
    + destruct (removeWhere_items predicate strategy l s1 n)
        as [[l0 s0] n0] eqn:E.
      intros [= <- <- <-].
      apply (IH (S i)) in E as (d & Hc & Hl & Hn & Hr & Hs).
      exists d. five; auto.
      * intros k. now rewrite Hc.
      * simpl. lia.
      * intros Hd. simpl. now rewrite (Hs Hd).
  - cbn [removeWhere_items].
    destruct (removeWhere_items predicate strategy l s n)
      as [[l0 s0] n0] eqn:E.
    intros [= <- <- <-].
    apply (IH (S i)) in E as (d & Hc & Hl & Hn & Hr & Hs).
    exists d. five; auto.
    + intros k. now rewrite Hc.
    + intros Hd. simpl. now rewrite (Hs Hd).
Qed.

Lemma removeWhere_chunks_effect (l : list Chunk) (k0 : nat)
    (s : St) (n : Z) (l' : list Chunk) (s' : St) (n' : Z) :
  removeWhere_chunks predicate strategy l s n = (l', s', n') ->
  exists d : nat,
    (forall k, removeWhere_chunks (counting predicate) strategy l (s, k) n =
               (l', (s', (k + Z.of_nat d)%Z), n')) /\
    length (occupied_chunks l' k0) + d = length (occupied_chunks l k0) /\
    to_unsigned n' = to_unsigned (n + Z.of_nat d) /\
    (to_unsigned n = n -> to_unsigned n' = n') /\
    (d = 0 -> map (@chunk_shape T) l' = map (@chunk_shape T) l).
Proof.
  revert k0 s n l' s' n'; induction l as [|c next IH]; intros k0 s n l' s' n'.
  - simpl. intros [= <- <- <-]. exists 0. simpl. five; auto.
    + intros k. now rewrite Z.add_0_r.
    + now rewrite Z.add_0_r.
  - cbn [removeWhere_chunks]. destruct (stop_after_one strategy n).
    + intros [= <- <- <-]. exists 0. five; auto.
      * intros k. now rewrite Z.add_0_r.
      * now rewrite Z.add_0_r.
    + destruct (removeWhere_items predicate strategy (items c) s n)
        as [[its s1] n1] eqn:E.
      apply (removeWhere_items_effect (ChunkSlot k0) _ 0) in E
        as (d1 & Hc1 & Hl1 & Hn1 & Hr1 & Hs1).
      destruct (removeWhere_chunks predicate strategy next s1 n1)
        as [[rest s2] n2] eqn:E'.
      apply (IH (S k0)) in E' as (d2 & Hc2 & Hl2 & Hn2 & Hr2 & Hs2).
      intros [= <- <- <-]. exists (d1 + d2). five.
      * intros k. rewrite Hc1, Hc2. do 2 f_equal. f_equal. lia.
      * simpl. rewrite !length_app. lia.
      * rewrite Hn2, <- to_unsigned_add_l, Hn1, to_unsigned_add_l. f_equal. lia.
      * intros Hn. apply Hr2, Hr1, Hn.
      * intros Hd. simpl. unfold chunk_shape at 1 3. simpl.
        rewrite Hs1, Hs2 by lia. reflexivity.
Qed.

Lemma removeWhere_static_effect (st : list Item) (s : St)
    (st1 : list Item) (s1 : St) (n1 : Z) :
  (if UAVCAN_TINY then (st, s, 0%Z)
   else removeWhere_items predicate strategy st s 0) = (st1, s1, n1) ->
  exists d : nat,
    (forall k,
       (if UAVCAN_TINY then (st, (s, k), 0%Z)
        else removeWhere_items (counting predicate) strategy st (s, k) 0) =
       (st1, (s1, (k + Z.of_nat d)%Z), n1)) /\
    length (occupied_items StaticSlot (if UAVCAN_TINY then [] else st1) 0) + d =
      length (occupied_items StaticSlot (if UAVCAN_TINY then [] else st) 0) /\
    to_unsigned n1 = to_unsigned (Z.of_nat d) /\
    to_unsigned n1 = n1 /\
    (UAVCAN_TINY = true -> st1 = st).
Proof.
  destruct UAVCAN_TINY.
  - intros [= <- <- <-]. exists 0. five; auto.
    intros k. now rewrite Z.add_0_r.
  - intros E. apply (removeWhere_items_effect StaticSlot _ 0) in E
      as (d & Hc & Hl & Hn & Hr & _).
    exists d. five; auto. discriminate.
Qed.

Lemma removeWhere_effect (s : St) (a : A) (m : Multiset) :
  exists d : nat,
    (forall k,
       removeWhere (counting predicate) strategy (s, k) a m =
       (fst (removeWhere predicate strategy s a m),
        (snd (removeWhere predicate strategy s a m), (k + Z.of_nat d)%Z))) /\
    length (occupied (fst (fst (removeWhere predicate strategy s a m)))) + d =
      length (occupied m) /\
    (fits_unsigned m -> chunks_nonempty m ->
     chunks_nonempty (fst (fst (removeWhere predicate strategy s a m)))) /\
    (UAVCAN_TINY = true ->
     static_ (fst (fst (removeWhere predicate strategy s a m))) = static_ m).
Proof.
  pose proof (occupied_le_slots m) as Hle. unfold removeWhere.
  destruct (if UAVCAN_TINY then (static_ m, s, 0%Z)
            else removeWhere_items predicate strategy (static_ m) s 0)
    as [[st1 s1] n1] eqn:E1.
  apply removeWhere_static_effect in E1 as (d1 & Hc1 & Hl1 & Hn1 & Hr1 & Hs1).
  destruct (removeWhere_chunks predicate strategy (list_ m) s1 n1)
    as [[l2 s2] n2] eqn:E2.
  apply (removeWhere_chunks_effect _ 0) in E2 as (d2 & Hc2 & Hl2 & Hn2 & Hr2 & Hs2).
  assert (Hocc : length (occupied {| list_ := l2; static_ := st1 |}) + (d1 + d2) =
                 length (occupied m)).
  { unfold occupied, static_capacity in *. simpl. rewrite !length_app in *. lia. }
  exists (d1 + d2). split; [|split; [|split]].
  - intros k. rewrite Hc1, Hc2.
    replace (k + Z.of_nat d1 + Z.of_nat d2)%Z with (k + Z.of_nat (d1 + d2))%Z by lia.
    destruct (0 <? n2)%Z; [|reflexivity].
    now destruct (compact a _) as [m3 a3].
  - destruct (0 <? n2)%Z; [|exact Hocc].
    pose proof (compact_elements a {| list_ := l2; static_ := st1 |}) as Hce.
    destruct (compact a _) as [m3 a3]. simpl in *.
    apply (f_equal (@length T)) in Hce. unfold elements in Hce.
    rewrite !length_map in Hce. lia.
  - intros Hfit Hne. unfold fits_unsigned in Hfit.
    assert (Hn : n2 = Z.of_nat (d1 + d2)).
    { rewrite <- (Hr2 Hr1), Hn2, <- to_unsigned_add_l, Hn1, to_unsigned_add_l.
      rewrite <- Nat2Z.inj_add. apply to_unsigned_small. lia. }
    destruct (0 <? n2)%Z eqn:Epos.
    + rewrite compact_spec. simpl. apply filter_has_element_nonempty.
    + simpl. apply Z.ltb_ge in Epos.
      assert (Hd : d2 = 0) by lia.
      unfold chunks_nonempty in *.
      simpl. now rewrite (has_element_shape _ _ (Hs2 Hd)).
  - intros Ht. destruct (0 <? n2)%Z.
    + rewrite compact_spec. simpl. now apply Hs1.
    + simpl. now apply Hs1.
Qed.

End RemoveEffect.

(** *** What emplace does to the counts *)

Lemma occupied_items_write (mk : nat -> SlotRef) (x : T) (l : list Item) (j i : nat) :
  nth_error l j = Some None ->
  length (occupied_items mk (update_nth (fun _ : Item => Some x) l j) i) =
  S (length (occupied_items mk l i)).
Proof.
  revert j i; induction l as [|it l IH]; intros [|j] i H; simpl in *;
    try discriminate.
  - injection H as ->. reflexivity.
  - destruct it; simpl; now rewrite (IH j (S i) H).
Qed.

Lemma occupied_chunks_write (x : T) (l : list Chunk) (k j k0 : nat) (c : Chunk) :
  nth_error l k = Some c ->
  nth_error (items c) j = Some None ->
  length (occupied_chunks
            (update_nth (with_items (fun its => update_nth (fun _ : Item => Some x) its j)) l k)
            k0) =
  S (length (occupied_chunks l k0)).
Proof.
  revert k k0; induction l as [|c0 l IH]; intros [|k] k0 Hk Hj; simpl in *;
    try discriminate.
  - injection Hk as ->. rewrite !length_app.
    now rewrite (occupied_items_write (ChunkSlot k0) x _ _ 0 Hj).
  - rewrite !length_app. now rewrite (IH k (S k0) Hk Hj).
Qed.

Lemma occupied_write (m : Multiset) (r : SlotRef) (x : T) :
  slot_at m r = Some None -> in_use r ->
  length (occupied (write_slot m r (Some x))) = S (length (occupied m)).
Proof.
  unfold occupied, static_capacity. destruct r as [i | k i]; simpl.
  - intros H ->. cbv iota. rewrite !length_app.
    now rewrite (occupied_items_write StaticSlot x _ _ 0 H).
  - destruct (nth_error (list_ m) k) as [c|] eqn:Hk; [|discriminate].
    intros H _. rewrite !length_app.
    rewrite (occupied_chunks_write x _ _ _ 0 c Hk H). lia.
Qed.

Lemma existsb_write (x : T) (l : list Item) (j : nat) :
  existsb (@isConstructed T) l = true ->
  existsb (@isConstructed T) (update_nth (fun _ : Item => Some x) l j) = true.
Proof.
  revert j; induction l as [|it l IH]; intros [|j]; simpl; auto.
  destruct (isConstructed it); simpl; auto.
Qed.

Lemma has_element_write (x : T) (l : list Chunk) (k j : nat) :
  forallb (@has_element T) l = true ->
  forallb (@has_element T)
    (update_nth (with_items (fun its => update_nth (fun _ : Item => Some x) its j)) l k) = true.
Proof.
  revert k; induction l as [|c l IH]; intros [|k]; simpl; auto;
    intros H; apply andb_true_iff in H as [Hc Hl]; apply andb_true_iff; split; auto.
  unfold has_element in *. simpl. now apply existsb_write.
Qed.

Lemma occupied_items_repeat_None (mk : nat -> SlotRef) (n i : nat) :
  occupied_items mk (repeat (@None T) n) i = [].
Proof. revert i; induction n as [|n IH]; intros i; simpl; auto. Qed.

Lemma occupied_items_values_shift (mk mk' : nat -> SlotRef) (l : list Item) (i i' : nat) :
  map snd (occupied_items mk l i) = map snd (occupied_items mk' l i').
Proof.
  revert i i'; induction l as [|[x|] l IH]; intros i i'; simpl;
    [reflexivity | f_equal; apply IH | apply IH].
Qed.

Lemma occupied_chunks_values_shift (l : list Chunk) (k k' : nat) :
  map snd (occupied_chunks l k) = map snd (occupied_chunks l k').
Proof.
  revert k k'; induction l as [|c l IH]; intros k k'; simpl; [reflexivity|].
  rewrite !map_app. f_equal; [apply occupied_items_values_shift | apply IH].
Qed.

Lemma findOrCreateFreeSlot_cases (a : A) (m : Multiset) (r : SlotRef)
    (m' : Multiset) (a' : A) :
  findOrCreateFreeSlot a m = (Some r, m', a') ->
  in_use r /\
  static_ m' = static_ m /\
  length (occupied m') = length (occupied m) /\
  (list_ m' = list_ m \/
   exists praw, r = ChunkSlot 0 0 /\
     list_ m' = {| block := praw; items := repeat None NumItems |} :: list_ m).
Proof.
  unfold findOrCreateFreeSlot.
  destruct (if UAVCAN_TINY then None else first_free (static_ m) 0) as [i|] eqn:Es.
  - intros [= <- <- <-]. repeat split; auto.
    simpl. destruct UAVCAN_TINY; [discriminate | reflexivity].
  - destruct (free_in_chunks (list_ m) 0) as [dyn|] eqn:Ed.
    + intros [= <- <- <-]. repeat split; auto.
      apply free_in_chunks_inv in Ed as (k & i & c & -> & _). exact I.
    + unfold Chunk_instantiate. destruct (allocate a sizeof_Chunk) as [[praw|] a1];
        [|discriminate].
      intros [= <- <- <-]. repeat split; simpl; auto.
      * unfold occupied, static_capacity. simpl.
        rewrite occupied_items_repeat_None, !length_app. simpl. f_equal.
        rewrite <- (length_map snd), (occupied_chunks_values_shift _ 1 0).
        apply length_map.
      * right. now exists praw.
Qed.

Lemma emplace_effect (x : T) (a : A) (m : Multiset) :
  0 < NumItems ->
  (length (occupied (snd (fst (emplace x a m)))) =
   match fst (fst (emplace x a m)) with
   | Some _ => S (length (occupied m))
   | None => length (occupied m)
   end) /\
  (chunks_nonempty m -> chunks_nonempty (snd (fst (emplace x a m)))) /\
  (UAVCAN_TINY = true -> static_ (snd (fst (emplace x a m))) = static_ m).
Proof.
  intros Hpos. unfold emplace.
  destruct (findOrCreateFreeSlot a m) as [[[r|] m'] a'] eqn:E; simpl.
  - pose proof (findOrCreateFreeSlot_free _ _ _ _ _ Hpos E) as Hfree.
    apply findOrCreateFreeSlot_cases in E as (Hu & Hst & Hlen & Hl).
    split; [|split].
    + now rewrite (occupied_write _ _ x Hfree Hu), Hlen.
    + unfold chunks_nonempty. intros Hne. destruct r as [i | k i]; simpl.
      * destruct Hl as [-> | (praw & Hr & _)]; [exact Hne | discriminate].
      * destruct Hl as [-> | (praw & [= -> ->] & ->)].
        -- now apply has_element_write.
        -- simpl. rewrite Hne, andb_true_r. unfold has_element. simpl.
           destruct NumItems; [lia | reflexivity].
    + intros Ht. destruct r as [i | k i]; simpl; [|exact Hst].
      simpl in Hu. congruence.
  - pose proof (findOrCreateFreeSlot_none_same a m) as Hm. rewrite E in Hm.
    simpl in Hm. rewrite (Hm eq_refl). auto.
Qed.

(** *** Every public operation *)

Variable T_eqb : T -> T -> bool.
Variable T_zero : T.

Local Abbreviation Op := (Op T).
Local Abbreviation run_op := (run_op NumItems sizeof_Chunk UAVCAN_TINY T_eqb T_zero).
Local Abbreviation run_counted :=
  (run_counted NumItems sizeof_Chunk UAVCAN_TINY T_eqb T_zero).
Local Abbreviation removed_by := (removed_by UAVCAN_TINY).
Local Abbreviation Multiset_new := (Multiset_new T NumStaticEntries).

Lemma all_free_shape (l l' : list Item) :
  map (@isConstructed T) l = map (@isConstructed T) l' ->
  forallb (fun it : Item => negb (isConstructed it)) l =
  forallb (fun it : Item => negb (isConstructed it)) l'.
Proof.
  revert l'; induction l as [|it l IH]; intros [|it' l'] H; try discriminate;
    [reflexivity|].
  simpl in *. injection H as -> H. now rewrite (IH l' H).
Qed.

Lemma find_effect (St : Type) (predicate : St -> T -> bool * T * St)
    (s : St) (m : Multiset) :
  length (occupied (snd (fst (find predicate s m)))) = length (occupied m) /\
  (chunks_nonempty m -> chunks_nonempty (snd (fst (find predicate s m)))) /\
  (static_unused m -> static_unused (snd (fst (find predicate s m)))).
Proof.
  pose proof (find_occupancy St predicate s m) as Ho.
  split; [|split].
  - rewrite <- (length_map fst), (occupied_refs_occupancy _ _ Ho). apply length_map.
  - unfold chunks_nonempty. injection Ho as _ Hc.
    now rewrite (has_element_shape _ _ Hc).
  - unfold static_unused. injection Ho as Hs _.
    now rewrite (all_free_shape _ _ Hs).
Qed.

Lemma forEach_as_find (St : Type) (oper : St -> T -> T * St) (s : St) (m : Multiset) :
  fst (forEach UAVCAN_TINY oper s m) =
  snd (fst (find (OperatorToFalsePredicateAdapter oper) s m)).
Proof.
  unfold forEach.
  now destruct (find (OperatorToFalsePredicateAdapter oper) s m) as [[r m'] s'].
Qed.

Lemma Multiset_new_empty :
  occupied Multiset_new = [] /\ chunks_nonempty Multiset_new /\
  static_unused Multiset_new.
Proof.
  unfold occupied, static_capacity, chunks_nonempty, static_unused. simpl.
  repeat split.
  - rewrite app_nil_r. destruct UAVCAN_TINY; [reflexivity|].
    apply occupied_items_repeat_None.
  - intros _. induction NumStaticEntries as [|n IH]; simpl; auto.
Qed.

Lemma static_unused_same (m m' : Multiset) :
  (UAVCAN_TINY = true -> static_ m' = static_ m) ->
  static_unused m -> static_unused m'.
Proof. unfold static_unused. intros H Hu Ht. rewrite (H Ht). now apply Hu. Qed.

Lemma run_op_chunks_nonempty (op : Op) (a : A) (m : Multiset) :
  0 < NumItems -> fits_unsigned m -> chunks_nonempty m ->
  chunks_nonempty (fst (run_op op (m, a))).
Proof.
  intros Hpos Hfit Hne. destruct op; simpl.
  - pose proof (emplace_effect x a m Hpos) as (_ & H & _).
    destruct (emplace x a m) as [[r m'] a']. simpl in *. now apply H.
  - now apply find_effect.
  - rewrite forEach_as_find. now apply find_effect.
  - now apply (find_effect Z (@IndexPredicate T)).
  - destruct (removeWhere_effect unit (ComparingPredicate T_eqb ref) RemoveOne tt a m)
      as (d & _ & _ & H & _). now apply H.
  - destruct (removeWhere_effect _ (ComparingPredicate_ref T_eqb T_zero) RemoveAll
                (visits_before UAVCAN_TINY m ref, deref T_zero m ref) a m)
      as (d & _ & _ & H & _). now apply H.
  - destruct (removeWhere_effect St predicate RemoveOne s a m)
      as (d & _ & _ & H & _). now apply H.
  - destruct (removeWhere_effect St predicate RemoveAll s a m)
      as (d & _ & _ & H & _). now apply H.
  - destruct (removeWhere_effect unit (@YesPredicate T) RemoveAll tt a m)
      as (d & _ & _ & H & _). now apply H.
Qed.

(** *** The count a caller keeps *)

Lemma occupied_items_num (mk : nat -> SlotRef) (l : list Item) (i : nat) :
  length (occupied_items mk l i) = num_constructed l.
Proof.
  unfold num_constructed. revert i; induction l as [|[x|] l IH]; intros i; simpl;
    [reflexivity | f_equal; apply IH | apply IH].
Qed.

Lemma occupied_chunks_num (l : list Chunk) (k : nat) :
  length (occupied_chunks l k) = num_constructed (flat_map (@items T) l).
Proof.
  unfold num_constructed. revert k; induction l as [|c l IH]; intros k; simpl;
    [reflexivity|].
  rewrite filter_app, !length_app, (IH (S k)). f_equal.
  apply occupied_items_num.
Qed.

Lemma occupied_num (m : Multiset) :
  static_unused m ->
  length (occupied m) =
  num_constructed (static_ m) + num_constructed (flat_map (@items T) (list_ m)).
Proof.
  unfold static_unused, occupied, static_capacity. intros Hu.
  rewrite length_app, occupied_chunks_num. f_equal.
  destruct UAVCAN_TINY; [|apply occupied_items_num].
  specialize (Hu eq_refl). unfold num_constructed.
  induction (static_ m) as [|it l IH]; simpl in *; [reflexivity|].
  apply andb_true_iff in Hu as [Hit Hl].
  destruct (isConstructed it); [discriminate | now apply IH].
Qed.

Lemma run_counted_fst (op : Op) (c : Multiset * A) (count : Z) :
  fst (run_counted op (c, count)) = run_op op c.
Proof.
  destruct c as [m a]. destruct op; simpl; try reflexivity.
  now destruct (emplace x a m) as [[r m'] a'].
Qed.

Lemma removed_by_effect (St : Type) (predicate : St -> T -> bool * T * St)
    (strategy : RemoveStrategy) (s : St) (a : A) (m : Multiset) :
  (Z.of_nat (length (occupied (fst (fst (removeWhere predicate strategy s a m))))) +
   removed_by predicate strategy s a m)%Z = Z.of_nat (length (occupied m)) /\
  (static_unused m ->
   static_unused (fst (fst (removeWhere predicate strategy s a m)))).
Proof.
  destruct (removeWhere_effect St predicate strategy s a m)
    as (d & Hc & Hl & _ & Hs).
  unfold removed_by. rewrite Hc. simpl. split; [lia|].
  now apply static_unused_same.
Qed.

Lemma run_counted_invariant (op : Op) (m : Multiset) (a : A) (count : Z) :
  0 < NumItems ->
  static_unused m ->
  static_unused (fst (fst (run_counted op (m, a, count)))) /\
  (snd (run_counted op (m, a, count)) -
   Z.of_nat (length (occupied (fst (fst (run_counted op (m, a, count)))))))%Z =
  (count - Z.of_nat (length (occupied m)))%Z.
Proof.
  intros Hpos Hu. destruct op; simpl.
  - pose proof (emplace_effect x a m Hpos) as (Hl & _ & Hs).
    destruct (emplace x a m) as [[r m'] a']. simpl in *. split.
    + now apply (static_unused_same m).
    + rewrite Hl. destruct r; lia.
  - destruct (find_effect St predicate s m) as (Hl & _ & Hs).
    split; [now apply Hs | now rewrite Hl].
  - rewrite forEach_as_find.
    destruct (find_effect St (OperatorToFalsePredicateAdapter oper) s m)
      as (Hl & _ & Hs).
    split; [now apply Hs | now rewrite Hl].
  - destruct (find_effect Z (@IndexPredicate T) index m) as (Hl & _ & Hs).
    split; [now apply Hs | ]. unfold getByIndex. now rewrite Hl.
  - destruct (removed_by_effect unit (ComparingPredicate T_eqb ref) RemoveOne tt a m)
      as [Hl Hs].
    split; [now apply Hs | ]. unfold removeFirst, removeFirstWhere. lia.
  - destruct (removed_by_effect _ (ComparingPredicate_ref T_eqb T_zero) RemoveAll
                (visits_before UAVCAN_TINY m ref, deref T_zero m ref) a m)
      as [Hl Hs].
    split; [now apply Hs | ]. unfold removeAll, removeAllWhere. lia.
  - destruct (removed_by_effect St predicate RemoveOne s a m) as [Hl Hs].
    split; [now apply Hs | ]. unfold removeFirstWhere. lia.
  - destruct (removed_by_effect St predicate RemoveAll s a m) as [Hl Hs].
    split; [now apply Hs | ]. unfold removeAllWhere. lia.
  - destruct (removed_by_effect unit (@YesPredicate T) RemoveAll tt a m) as [Hl Hs].
    split; [now apply Hs | ]. unfold clear, removeAllWhere. lia.
Qed.

Lemma run_all_counted_invariant (ops : list Op) (m0 : Multiset) (a0 : A) (n0 : Z) :
  0 < NumItems ->
  static_unused m0 ->
  let final := fold_left (fun c op => run_counted op c) ops (m0, a0, n0) in
  fst final = fold_left (fun c op => run_op op c) ops (m0, a0) /\
  static_unused (fst (fst final)) /\
  (snd final - Z.of_nat (length (occupied (fst (fst final)))))%Z =
  (n0 - Z.of_nat (length (occupied m0)))%Z.
Proof.
  intros Hpos. revert m0 a0 n0; induction ops as [|op ops IH]; intros m0 a0 n0 Hu.
  - simpl. auto.
  - cbn [fold_left].
    destruct (run_counted_invariant op m0 a0 n0 Hpos Hu) as [Hu' Hc].
    pose proof (run_counted_fst op (m0, a0) n0) as Hf.
    destruct (run_counted op (m0, a0, n0)) as [[m1 a1] n1].
    cbn [fst snd] in Hu', Hc, Hf. rewrite <- Hf. specialize (IH m1 a1 n1 Hu'). cbv zeta in IH.
    destruct IH as (H1 & H2 & H3). repeat split; auto. lia.
Qed.

(** C6. After any sequence of public operations on a new container,
    [getSize()] is the number of occupied static slots plus the number of
    occupied slots in the chunks of the list, and that number is the count
    kept on the side: elements emplaced minus elements removed. *)
Theorem getSize_equals_independent_count (ops : list Op) (a0 : A)
    (m : Multiset) (a : A) (count : Z) :
  0 < NumItems ->
  fold_left (fun c op => run_counted op c) ops (Multiset_new, a0, 0%Z) = (m, a, count) ->
  (count < UINT_MODULUS)%Z ->
  fold_left (fun c op => run_op op c) ops (Multiset_new, a0) = (m, a) /\
  count = Z.of_nat (num_constructed (static_ m) +
                    num_constructed (flat_map (@items T) (list_ m))) /\
  getSize m = count.
Proof.
  intros Hpos Hrun Hlt.
  destruct Multiset_new_empty as (He & _ & Hu).
  pose proof (run_all_counted_invariant ops Multiset_new a0 0%Z Hpos Hu) as H.
  cbv zeta in H. rewrite Hrun, He in H. simpl in H. destruct H as (H1 & H2 & H3).
  assert (Hc : count = Z.of_nat (length (occupied m))) by lia.
  repeat split.
  - now rewrite <- H1.
  - now rewrite Hc, occupied_num.
  - rewrite getSize_length, <- Hc. apply to_unsigned_small. lia.
Qed.

(** ** Further properties of the class *)

(** *** isEmpty *)

Lemma isEmpty_true_iff (m : Multiset) : isEmpty m = true <-> occupied m = [].
Proof.
  split; [|apply isEmpty_occupied].
  unfold isEmpty.
  change (@YesPredicate T) with (readonly (fun (u : unit) (x : T) => (true, u))).
  rewrite find_scan. destruct (occupied m) as [|[r x] occ]; simpl;
    [reflexivity | discriminate].
Qed.

(** X1. [isEmpty()] is true exactly when no slot of the traversal is
    occupied; when the container fits the counters that is exactly when
    [getSize()] is 0; and the call leaves the container as it was. *)
Theorem isEmpty_iff_no_element (m : Multiset) :
  (isEmpty m = true <-> elements m = []) /\
  (fits_unsigned m -> (isEmpty m = true <-> getSize m = 0%Z)) /\
  snd (fst (find (@YesPredicate T) tt m)) = m.
Proof.
  split; [|split].
  - rewrite isEmpty_true_iff. unfold elements.
    destruct (occupied m); simpl; split; congruence.
  - intros Hfit. rewrite isEmpty_true_iff, (getSize_exact m Hfit).
    destruct (occupied m); simpl; split; try congruence; lia.
  - change (@YesPredicate T) with (readonly (fun (u : unit) (x : T) => (true, u))).
    now rewrite find_scan.
Qed.

(** *** find with any callable *)

(** X2. Whatever the callable does, also when it changes the elements it
    is shown, [find] neither adds nor removes an element: the same slots
    are occupied, the same blocks are in the chunk list, and [getSize()]
    and [isEmpty()] answer as before. *)
Theorem find_never_changes_occupancy (St : Type)
    (predicate : St -> T -> bool * T * St) (s : St) (m : Multiset) :
  occupancy (snd (fst (find predicate s m))) = occupancy m /\
  map fst (occupied (snd (fst (find predicate s m)))) = map fst (occupied m) /\
  getSize (snd (fst (find predicate s m))) = getSize m /\
  isEmpty (snd (fst (find predicate s m))) = isEmpty m.
Proof.
  pose proof (find_occupancy St predicate s m) as Ho.
  pose proof (occupied_refs_occupancy _ _ Ho) as Hr.
  repeat split; auto.
  - now apply getSize_occupancy.
  - destruct (isEmpty m) eqn:E.
    + apply isEmpty_true_iff in E. apply isEmpty_true_iff.
      rewrite E in Hr. now destruct (occupied (snd (fst (find predicate s m)))).
    + destruct (isEmpty (snd (fst (find predicate s m)))) eqn:E'; [|reflexivity].
      apply isEmpty_true_iff in E'. rewrite E' in Hr.
      assert (occupied m = []) as Hm by now destruct (occupied m).
      apply isEmpty_true_iff in Hm. congruence.
Qed.

(** *** find and removeFirstWhere agree *)

(** X3. [removeFirstWhere(p)] destroys exactly the element [find(p)] would
    return, and leaves the predicate in the state [find] would; when
    [find] returns null it changes nothing. *)
Theorem removeFirstWhere_removes_what_find_returns (St : Type)
    (pred : St -> T -> bool * St) (s : St) (a : A) (m : Multiset) :
  removeFirstWhere (readonly pred) s a m =
    match find (readonly pred) s m with
    | (Some r, _, s') => (compact a (write_slot m r None), s')
    | (None, _, s') => (m, a, s')
    end.
Proof.
  unfold removeFirstWhere. rewrite removeFirstWhere_spec, find_scan.
  now destruct (scan pred s (occupied m)) as [[r|] s'].
Qed.

(** *** removeFirst and removeAll *)

Local Abbreviation removeFirst := (removeFirst UAVCAN_TINY T_eqb).
Local Abbreviation removeAll := (removeAll UAVCAN_TINY T_eqb T_zero).
Local Abbreviation ComparingPredicate := (ComparingPredicate T_eqb).

Lemma keep_false_pure (St : Type) (p : T -> bool) (s : St) (xs : list T) :
  keep_false (fun u x => (p x, u)) s xs = (filter (fun x => negb (p x)) xs, s).
Proof.
  induction xs as [|x xs IH]; simpl; [reflexivity|].
  rewrite IH. now destruct (p x).
Qed.

Lemma existsb_filter_negb (p : T -> bool) (xs : list T) :
  existsb p (filter (fun x => negb (p x)) xs) = false.
Proof.
  induction xs as [|x xs IH]; simpl; [reflexivity|].
  destruct (p x) eqn:E; simpl; [exact IH | now rewrite E].
Qed.

Lemma find_none_elements (p : T -> bool) (occ : list (SlotRef * T)) :
  existsb p (map snd occ) = false ->
  List.find (fun rx => p (snd rx)) occ = None.
Proof.
  induction occ as [|[r x] occ IH]; simpl; [reflexivity|].
  destruct (p x); simpl; [discriminate | exact IH].
Qed.

Lemma find_pure_none (p : T -> bool) (m : Multiset) :
  existsb p (elements m) = false ->
  find (readonly (fun (u : unit) (x : T) => (p x, u))) tt m = (None, m, tt).
Proof.
  intros H. rewrite find_scan, scan_pure. now rewrite (find_none_elements p _ H).
Qed.

Local Abbreviation unequal := (unequal T_eqb).
Local Abbreviation reference_equals := (reference_equals T_eqb T_zero).
Local Abbreviation removeAll_leaves := (removeAll_leaves T_eqb T_zero).
Local Abbreviation deref := (deref T_zero).
Local Abbreviation visits_before := (visits_before UAVCAN_TINY).

Lemma SlotRef_eqb_eq (r r' : SlotRef) : SlotRef_eqb r r' = true <-> r = r'.
Proof.
  destruct r as [i | k i], r' as [i' | k' i']; simpl;
    rewrite ?andb_true_iff, ?Nat.eqb_eq; split; try discriminate.
  - now intros ->.
  - now intros [= ->].
  - now intros [-> ->].
  - now intros [= -> ->].
Qed.

Lemma index_of_nth (r : SlotRef) (l : list SlotRef) (k : nat) :
  NoDup l -> nth_error l k = Some r -> index_of r l = Some k.
Proof.
  revert k; induction l as [|r' l IH]; intros [|k] Hd H; try discriminate; simpl in *.
  - injection H as ->. now rewrite (proj2 (SlotRef_eqb_eq r r) eq_refl).
  - inversion Hd as [|? ? Hn Hd']; subst.
    destruct (SlotRef_eqb r r') eqn:E.
    + apply SlotRef_eqb_eq in E. subst. elim Hn. eapply nth_error_In, H.
    + now rewrite (IH k Hd' H).
Qed.

Lemma index_of_absent (r : SlotRef) (l : list SlotRef) :
  ~ In r l -> index_of r l = None.
Proof.
  induction l as [|r' l IH]; simpl; [reflexivity|]. intros H.
  destruct (SlotRef_eqb r r') eqn:E.
  - apply SlotRef_eqb_eq in E. subst. elim H. now left.
  - rewrite IH; [reflexivity | tauto].
Qed.

Lemma keep_false_reference_reached (v : T) (xs : list T) :
  keep_false reference_equals (None, v) xs = (unequal v xs, (None, v)).
Proof.
  induction xs as [|x xs IH]; [reflexivity|].
  cbn [keep_false]. unfold reference_equals at 1. cbn [fst snd]. rewrite IH.
  unfold unequal. simpl. now destruct (T_eqb v x).
Qed.

Lemma keep_false_reference (v : T) (k : nat) (xs : list T) :
  fst (keep_false reference_equals (Some k, v) xs) =
    match nth_error xs k with
    | Some x =>
        if T_eqb v x
        then unequal v (firstn k xs) ++ unequal T_zero (skipn (S k) xs)
        else unequal v xs
    | None => unequal v xs
    end.
Proof.
  revert k; induction xs as [|x xs IH]; intros k; [now destruct k|].
  destruct k as [|k].
  - cbn [nth_error firstn skipn keep_false]. unfold reference_equals at 1.
    cbn [fst snd]. unfold unequal at 3. simpl.
    destruct (T_eqb v x) eqn:E; rewrite keep_false_reference_reached; reflexivity.
  - specialize (IH k). cbn [nth_error firstn skipn keep_false].
    unfold reference_equals at 1. cbn [fst snd].
    destruct (keep_false reference_equals (Some k, v) xs) as [kept s2].
    cbn [fst] in *. rewrite IH. unfold unequal. simpl.
    destruct (nth_error xs k) as [y|]; destruct (T_eqb v x); try reflexivity.
    now destruct (T_eqb v y).
Qed.

Lemma removeAll_elements (ref : Reference T) (a : A) (m : Multiset) :
  elements (fst (removeAll ref a m)) =
    fst (keep_false reference_equals (visits_before m ref, deref m ref) (elements m)).
Proof.
  unfold removeAll, removeAllWhere, ComparingPredicate_ref.
  now rewrite (removeAllWhere_kept _ reference_equals _ a m).
Qed.

(** X4. [removeAll(ref)] with a reference to an object outside the
    container leaves, in order, the elements that do not compare equal to
    it, and a [find] for an element equal to it then returns null.  With a
    reference to an element of the container, the elements before that
    element are compared with its value; when it compares equal to itself
    it is destroyed, and the elements after it are compared with the
    zero-filled storage it leaves, so that elements equal to it which come
    later stay in the container.  A reference to an item without element
    reads zero-filled storage all along. *)
Theorem removeAll_removes_every_equal_element (a : A) (m : Multiset) :
  (forall v : T,
     elements (fst (removeAll (RefOutside v) a m)) = unequal v (elements m) /\
     fst (fst (find (ComparingPredicate v) tt (fst (removeAll (RefOutside v) a m))))
       = None) /\
  (forall (r : SlotRef) (v : T) (k : nat),
     nth_error (occupied m) k = Some (r, v) ->
     elements (fst (removeAll (RefItem T r) a m)) =
       removeAll_leaves v k (elements m)) /\
  (forall r : SlotRef,
     (forall x : T, ~ In (r, x) (occupied m)) ->
     elements (fst (removeAll (RefItem T r) a m)) =
       unequal (read_pool T_zero (slot_at m r)) (elements m)).
Proof.
  split; [|split].
  - intros v.
    assert (He : elements (fst (removeAll (RefOutside v) a m)) =
                 unequal v (elements m)).
    { rewrite removeAll_elements. simpl.
      now rewrite keep_false_reference_reached. }
    split; [exact He|].
    change (ComparingPredicate v)
      with (readonly (fun (u : unit) (x : T) => (T_eqb v x, u))).
    rewrite find_pure_none; [reflexivity|].
    rewrite He. apply existsb_filter_negb.
  - intros r v k H. rewrite removeAll_elements.
    assert (Hk : visits_before m (RefItem T r) = Some k).
    { simpl. apply index_of_nth; [apply occupied_NoDup|].
      now rewrite nth_error_map, H. }
    assert (Hv : deref m (RefItem T r) = v).
    { apply nth_error_In, occupied_In in H. simpl. now rewrite (proj1 H). }
    rewrite Hk, Hv, keep_false_reference.
    unfold elements. rewrite nth_error_map, H. reflexivity.
  - intros r H. rewrite removeAll_elements.
    assert (Hk : visits_before m (RefItem T r) = None).
    { simpl. apply index_of_absent. intros Hin. apply in_map_iff in Hin.
      destruct Hin as ([r' x] & E & Hin). simpl in E. subst. now apply (H x). }
    rewrite Hk. simpl. now rewrite keep_false_reference_reached.
Qed.

Lemma remove_first_length (p : T -> bool) (xs : list T) :
  existsb p xs = true -> S (length (remove_first p xs)) = length xs.
Proof.
  induction xs as [|x xs IH]; simpl; [discriminate|].
  destruct (p x); simpl; [reflexivity|]. intros H. now rewrite IH.
Qed.

(** X5. [removeFirst(ref)] takes away the first element, in traversal
    order, that compares equal to [ref] and no other, so the container has
    one element fewer; when no element compares equal the container and
    the allocator are left as they were. *)
Theorem removeFirst_removes_first_equal_element (ref : T) (a : A) (m : Multiset) :
  elements (fst (removeFirst ref a m)) = remove_first (T_eqb ref) (elements m) /\
  (existsb (T_eqb ref) (elements m) = true ->
   S (length (elements (fst (removeFirst ref a m)))) = length (elements m)) /\
  (existsb (T_eqb ref) (elements m) = false -> removeFirst ref a m = (m, a)).
Proof.
  assert (He : elements (fst (removeFirst ref a m)) =
               remove_first (T_eqb ref) (elements m)).
  { unfold removeFirst, removeFirstWhere.
    change (ComparingPredicate ref)
      with (observing (T_eqb ref) (fun (u : unit) (_ : T) => u)).
    apply removeFirstWhere_values. }
  split; [exact He | split].
  - intros H. rewrite He. now apply remove_first_length.
  - intros H. unfold removeFirst, removeFirstWhere.
    change (ComparingPredicate ref)
      with (readonly (fun (u : unit) (x : T) => (T_eqb ref x, u))).
    rewrite removeFirstWhere_spec, scan_pure.
    now rewrite (find_none_elements _ _ H).
Qed.

(** *** compact *)

Lemma filter_has_element_twice (l : list Chunk) :
  filter (@has_element T) (filter (@has_element T) l) = filter (@has_element T) l /\
  filter (fun c => negb (has_element c)) (filter (@has_element T) l) = [].
Proof.
  induction l as [|c l [IH1 IH2]]; simpl; [auto|].
  destruct (has_element c) eqn:E; simpl; [|auto].
  rewrite E. simpl. now rewrite IH1, IH2.
Qed.

Lemma filter_no_empty_chunk (l : list Chunk) :
  forallb (@has_element T) l = true ->
  filter (fun c => negb (has_element c)) l = [].
Proof.
  induction l as [|c l IH]; simpl; [reflexivity|].
  intros H. apply andb_true_iff in H as [-> Hl]. simpl. now apply IH.
Qed.

(** X6. A second [compact()] right after the first finds nothing to
    release; and on a container in which every chunk holds an element
    [compact()] changes neither the container nor the allocator. *)
Theorem compact_is_idempotent (a : A) (m : Multiset) :
  compact (snd (compact a m)) (fst (compact a m)) = compact a m /\
  (chunks_nonempty m -> compact a m = (m, a)).
Proof.
  split.
  - rewrite !compact_spec. simpl.
    destruct (filter_has_element_twice (list_ m)) as [-> ->]. reflexivity.
  - unfold chunks_nonempty. intros H. rewrite compact_spec.
    rewrite (filter_has_element_id _ H), (filter_no_empty_chunk _ H).
    now destruct m.
Qed.

(** *** removeWhere and the answers of its predicate *)

Section RemoveOneCounting.

Variable St : Type.
Variable predicate : St -> T -> bool * T * St.

Lemma removeOne_items_counted (l : list Item) (sk : St * Z) (n : Z)
    (l' : list Item) (sk' : St * Z) (n' : Z) :
  removeWhere_items (counting predicate) RemoveOne l sk n = (l', sk', n') ->
  (snd sk' = snd sk /\ n' = n) \/
  (snd sk' = (snd sk + 1)%Z /\ n' = to_unsigned (n + 1)).
Proof.
  revert sk l' sk' n'; induction l as [|[x|] l IH]; intros sk l' sk' n'.
  - simpl. intros [= <- <- <-]. auto.
  - cbn [removeWhere_items]. unfold counting at 1.
    destruct (predicate (fst sk) x) as [[[|] x'] s1].
    + intros [= <- <- <-]. auto.
    + destruct (removeWhere_items (counting predicate) RemoveOne l (s1, snd sk) n)
        as [[l0 sk0] n0] eqn:E.
      intros [= <- <- <-]. now apply IH in E.
  - cbn [removeWhere_items].
    destruct (removeWhere_items (counting predicate) RemoveOne l sk n)
      as [[l0 sk0] n0] eqn:E.
    intros [= <- <- <-]. now apply IH in E.
Qed.

Lemma removeOne_chunks_counted (l : list Chunk) (sk : St * Z) (n : Z)
    (l' : list Chunk) (sk' : St * Z) (n' : Z) :
  (n = 0 \/ n = 1)%Z ->
  removeWhere_chunks (counting predicate) RemoveOne l sk n = (l', sk', n') ->
  (snd sk' = snd sk /\ n' = n) \/
  (n = 0%Z /\ snd sk' = (snd sk + 1)%Z /\ n' = 1%Z).
Proof.
  revert sk n l' sk' n'; induction l as [|c next IH]; intros sk n l' sk' n' Hn.
  - simpl. intros [= <- <- <-]. auto.
  - cbn [removeWhere_chunks]. destruct Hn as [-> | ->].
    + change (stop_after_one RemoveOne 0) with false. cbv iota.
      destruct (removeWhere_items (counting predicate) RemoveOne (items c) sk 0)
        as [[its sk1] n1] eqn:E.
      apply removeOne_items_counted in E as [[Hk ->] | [Hk ->]].
      * destruct (removeWhere_chunks (counting predicate) RemoveOne next sk1 0)
          as [[rest sk2] n2] eqn:E'.
        intros [= <- <- <-]. apply IH in E'; [|now left].
        rewrite <- Hk. exact E'.
      * change (to_unsigned (0 + 1)) with 1%Z.
        destruct (removeWhere_chunks (counting predicate) RemoveOne next sk1 1)
          as [[rest sk2] n2] eqn:E'.
        intros [= <- <- <-]. apply IH in E'; [|now right].
        destruct E' as [[Hk' ->] | [Hz _]]; [|discriminate].
        right. rewrite Hk', Hk. auto.
    + change (stop_after_one RemoveOne 1) with true. cbv iota.
      intros [= <- <- <-]. auto.
Qed.

Lemma removed_by_one (s : St) (a : A) (m : Multiset) :
  (removed_by predicate RemoveOne s a m <= 1)%Z.
Proof.
  unfold removed_by, removeWhere.
  destruct (if UAVCAN_TINY then (static_ m, (s, 0%Z), 0%Z)
            else removeWhere_items (counting predicate) RemoveOne (static_ m) (s, 0%Z) 0)
    as [[st1 sk1] n1] eqn:E1.
  assert (H1 : (snd sk1 = 0 /\ n1 = 0)%Z \/ (snd sk1 = 1 /\ n1 = 1)%Z).
  { destruct UAVCAN_TINY.
    - injection E1 as <- <- <-. auto.
    - apply removeOne_items_counted in E1 as [[-> ->] | [-> ->]]; auto. }
  destruct (removeWhere_chunks (counting predicate) RemoveOne (list_ m) sk1 n1)
    as [[l2 sk2] n2] eqn:E2.
  apply removeOne_chunks_counted in E2; [|destruct H1 as [[_ ->] | [_ ->]]; auto].
  assert (Hk : (snd sk2 <= 1)%Z) by lia.
  destruct (0 <? n2)%Z; [|exact Hk].
  now destruct (compact a _).
Qed.

End RemoveOneCounting.

(** X7. A removal takes away exactly as many elements as its predicate
    answered true on, never adds one, and with strategy RemoveOne takes
    away at most one; counting the answers does not change what the
    removal does. *)
Theorem removeWhere_removes_one_element_per_answer (St : Type)
    (predicate : St -> T -> bool * T * St) (strategy : RemoveStrategy)
    (s : St) (a : A) (m : Multiset) :
  (Z.of_nat (length (elements (fst (fst (removeWhere predicate strategy s a m))))) +
   removed_by predicate strategy s a m)%Z = Z.of_nat (length (elements m)) /\
  (0 <= removed_by predicate strategy s a m)%Z /\
  (removed_by predicate RemoveOne s a m <= 1)%Z /\
  fst (removeWhere (counting predicate) strategy (s, 0%Z) a m) =
    fst (removeWhere predicate strategy s a m) /\
  fst (snd (removeWhere (counting predicate) strategy (s, 0%Z) a m)) =
    snd (removeWhere predicate strategy s a m).
Proof.
  destruct (removeWhere_effect St predicate strategy s a m) as (d & Hc & Hl & _).
  unfold removed_by, elements. rewrite !length_map, (Hc 0%Z). simpl.
  repeat split; try lia.
  apply removed_by_one.
Qed.

(** *** removeAllWhere twice *)

Lemma flat_items_kill_length (p : T -> bool) (l : list Chunk) :
  length (flat_map (@items T) (map (with_items (map (kill p))) l)) =
  length (flat_map (@items T) l).
Proof.
  induction l as [|c l IH]; simpl; [reflexivity|].
  now rewrite !length_app, length_map, IH.
Qed.

Lemma flat_items_filter_length (q : Chunk -> bool) (l : list Chunk) :
  length (flat_map (@items T) (filter q l)) <= length (flat_map (@items T) l).
Proof.
  induction l as [|c l IH]; simpl; [lia|].
  destruct (q c); simpl; rewrite !length_app; lia.
Qed.

Lemma removeAllWhere_fits (St : Type) (p : T -> bool) (f : St -> T -> St)
    (s : St) (a : A) (m : Multiset) :
  fits_unsigned m ->
  fits_unsigned (fst (fst (removeWhere (observing p f) RemoveAll s a m))).
Proof.
  intros Hfit. rewrite removeAllWhere_spec by exact Hfit.
  destruct (existsb p (elements m)); [|exact Hfit].
  rewrite compact_spec. unfold fits_unsigned, num_slots, static_capacity in *.
  simpl.
  pose proof (flat_items_filter_length (@has_element T)
                (map (with_items (map (kill p))) (list_ m))) as H1.
  rewrite flat_items_kill_length in H1.
  destruct UAVCAN_TINY; simpl in *; [lia|]. rewrite length_map. lia.
Qed.

(** X8. Running [removeAllWhere] a second time with the same test finds
    nothing left to remove: the container and the allocator come back as
    the first call left them, after the predicate has been called on every
    remaining element. *)
Theorem removeAllWhere_twice_is_once (St : Type) (p : T -> bool)
    (f g : St -> T -> St) (s s' : St) (a : A) (m : Multiset) :
  fits_unsigned m ->
  removeAllWhere (observing p g) s'
    (snd (fst (removeAllWhere (observing p f) s a m)))
    (fst (fst (removeAllWhere (observing p f) s a m))) =
  (fst (removeAllWhere (observing p f) s a m),
   fold_left g (elements (fst (fst (removeAllWhere (observing p f) s a m)))) s').
Proof.
  intros Hfit. unfold removeAllWhere.
  pose proof (removeAllWhere_fits St p f s a m Hfit) as Hfit1.
  pose proof (removeAllWhere_elements St p f s a m Hfit) as He.
  rewrite (removeAllWhere_spec St p g s' _ _ Hfit1).
  rewrite He at 1. rewrite existsb_filter_negb.
  now destruct (removeWhere (observing p f) RemoveAll s a m) as [[m1 a1] s1].
Qed.

(** *** emplace, when it succeeds *)

Lemma occupied_items_write_perm (mk : nat -> SlotRef) (x : T) (l : list Item) (j i : nat) :
  nth_error l j = Some None ->
  Permutation (map snd (occupied_items mk (update_nth (fun _ : Item => Some x) l j) i))
              (x :: map snd (occupied_items mk l i)).
Proof.
  revert j i; induction l as [|it l IH]; intros [|j] i H; simpl in *;
    try discriminate.
  - injection H as ->. apply Permutation_refl.
  - destruct it as [y|]; simpl.
    + eapply perm_trans; [apply perm_skip, (IH j (S i) H) | apply perm_swap].
    + apply (IH j (S i) H).
Qed.

Lemma occupied_chunks_write_perm (x : T) (l : list Chunk) (k j k0 : nat) (c : Chunk) :
  nth_error l k = Some c ->
  nth_error (items c) j = Some None ->
  Permutation
    (map snd (occupied_chunks
       (update_nth (with_items (fun its => update_nth (fun _ : Item => Some x) its j)) l k)
       k0))
    (x :: map snd (occupied_chunks l k0)).
Proof.
  revert k k0; induction l as [|c0 l IH]; intros [|k] k0 Hk Hj; simpl in *;
    try discriminate.
  - injection Hk as ->. rewrite !map_app.
    apply (Permutation_app_tail _
             (occupied_items_write_perm (ChunkSlot k0) x _ _ 0 Hj)).
  - rewrite !map_app.
    eapply perm_trans; [apply Permutation_app_head, (IH k (S k0) Hk Hj)|].
    apply Permutation_sym, Permutation_middle.
Qed.

Lemma elements_write_perm (m : Multiset) (r : SlotRef) (x : T) :
  slot_at m r = Some None -> in_use r ->
  Permutation (elements (write_slot m r (Some x))) (x :: elements m).
Proof.
  unfold elements, occupied, static_capacity. destruct r as [i | k i]; simpl.
  - intros H ->. cbv iota. rewrite !map_app.
    apply (Permutation_app_tail _ (occupied_items_write_perm StaticSlot x _ _ 0 H)).
  - destruct (nth_error (list_ m) k) as [c|] eqn:Hk; [|discriminate].
    intros H _. rewrite !map_app.
    eapply perm_trans;
      [apply Permutation_app_head, (occupied_chunks_write_perm x _ _ _ 0 c Hk H)|].
    apply Permutation_sym, Permutation_middle.
Qed.

Lemma map_block_update (g : list Item -> list Item) (l : list Chunk) (k : nat) :
  map (@block T) (update_nth (with_items g) l k) = map (@block T) l.
Proof.
  revert k; induction l as [|c l IH]; intros [|k]; simpl; auto.
  now rewrite IH.
Qed.

Lemma findOrCreateFreeSlot_allocator (a : A) (m : Multiset) (r : option SlotRef)
    (m0 : Multiset) (a0 : A) :
  findOrCreateFreeSlot a m = (r, m0, a0) ->
  (r <> None /\ m0 = m /\ a0 = a) \/
  (exists praw,
     allocate a sizeof_Chunk = (Some praw, a0) /\ r = Some (ChunkSlot 0 0) /\
     m0 = {| list_ := {| block := praw; items := repeat None NumItems |} :: list_ m;
             static_ := static_ m |}) \/
  (allocate a sizeof_Chunk = (None, a0) /\ r = None /\ m0 = m).
Proof.
  unfold findOrCreateFreeSlot.
  destruct (if UAVCAN_TINY then None else first_free (static_ m) 0) as [i|].
  - intros [= <- <- <-]. left. repeat split. discriminate.
  - destruct (free_in_chunks (list_ m) 0) as [dyn|].
    + intros [= <- <- <-]. left. repeat split. discriminate.
    + unfold Chunk_instantiate.
      destruct (allocate a sizeof_Chunk) as [[praw|] a1] eqn:Ea.
      * intros [= <- <- <-]. right. left. now exists praw.
      * intros [= <- <- <-]. right. right. auto.
Qed.

Lemma findOrCreateFreeSlot_elements (a : A) (m : Multiset) (r : option SlotRef)
    (m0 : Multiset) (a0 : A) :
  findOrCreateFreeSlot a m = (r, m0, a0) -> elements m0 = elements m.
Proof.
  intros H.
  apply findOrCreateFreeSlot_allocator in H
    as [(_ & -> & _) | [(praw & _ & _ & ->) | (_ & _ & ->)]]; try reflexivity.
  unfold elements, occupied, static_capacity. simpl.
  rewrite occupied_items_repeat_None, !map_app. simpl.
  now rewrite (occupied_chunks_values_shift _ 1 0).
Qed.

Lemma emplace_success (x : T) (a : A) (m : Multiset) (r : SlotRef)
    (m' : Multiset) (a' : A) :
  0 < NumItems ->
  emplace x a m = (Some r, m', a') ->
  exists m0,
    findOrCreateFreeSlot a m = (Some r, m0, a') /\
    m' = write_slot m0 r (Some x) /\
    slot_at m0 r = Some None /\ in_use r.
Proof.
  intros Hpos. unfold emplace.
  destruct (findOrCreateFreeSlot a m) as [[[r0|] m0] a0] eqn:E; [|discriminate].
  intros [= <- <- <-]. exists m0. repeat split.
  - exact (findOrCreateFreeSlot_free _ _ _ _ _ Hpos E).
  - now apply findOrCreateFreeSlot_cases in E.
Qed.

Lemma write_slot_blocks (m : Multiset) (r : SlotRef) (it : Item) :
  map (@block T) (list_ (write_slot m r it)) = map (@block T) (list_ m).
Proof. destruct r as [i | k i]; simpl; [reflexivity | apply map_block_update]. Qed.

(** X9. When [emplace] returns an element, the slot it points to holds
    the new element, the container holds the new element and the ones it
    held before and nothing else, the other static slots are as they were,
    and the allocator was asked for one new chunk or not at all. *)
Theorem emplace_stores_the_element (x : T) (a : A) (m : Multiset) (r : SlotRef)
    (m' : Multiset) (a' : A) :
  0 < NumItems ->
  emplace x a m = (Some r, m', a') ->
  slot_at m' r = Some (Some x) /\
  in_use r /\
  Permutation (elements m') (x :: elements m) /\
  (forall i, StaticSlot i <> r ->
     slot_at m' (StaticSlot i) = slot_at m (StaticSlot i)) /\
  ((a' = a /\ map (@block T) (list_ m') = map (@block T) (list_ m)) \/
   (exists praw,
      allocate a sizeof_Chunk = (Some praw, a') /\
      map (@block T) (list_ m') = praw :: map (@block T) (list_ m))).
Proof.
  intros Hpos H.
  apply (emplace_success _ _ _ _ _ _ Hpos) in H as (m0 & Hf & -> & Hfree & Hu).
  split; [|split; [|split; [|split]]].
  - exact (slot_at_write_same _ _ _ _ Hfree).
  - exact Hu.
  - rewrite <- (findOrCreateFreeSlot_elements _ _ _ _ _ Hf).
    now apply elements_write_perm.
  - intros i Hi. rewrite slot_at_write_other by exact Hi.
    apply findOrCreateFreeSlot_cases in Hf as (_ & Hs & _). simpl. now rewrite Hs.
  - rewrite write_slot_blocks.
    apply findOrCreateFreeSlot_allocator in Hf
      as [(_ & -> & ->) | [(praw & Ha & _ & ->) | (_ & Hr & _)]].
    + left. auto.
    + right. now exists praw.
    + discriminate.
Qed.

Lemma find_some_element (p : T -> bool) (occ : list (SlotRef * T)) (x : T) :
  In x (map snd occ) -> p x = true ->
  exists r y, List.find (fun rx => p (snd rx)) occ = Some (r, y) /\
              In (r, y) occ /\ p y = true.
Proof.
  intros Hin Hp.
  destruct (List.find (fun rx => p (snd rx)) occ) as [[r y]|] eqn:E.
  - apply find_some in E as [H1 H2]. now exists r, y.
  - apply in_map_iff in Hin as ([r0 x0] & Hx & Hin). simpl in Hx. subst x0.
    pose proof (find_none _ _ E _ Hin) as Hn. simpl in Hn. congruence.
Qed.

(** X10. An element that [emplace] has just stored is found: [find] with
    a test the new element passes returns a pointer to an element that
    passes the test, and [isEmpty()] is false. *)
Theorem emplaced_element_is_found (x : T) (a : A) (m : Multiset) (r : SlotRef)
    (m' : Multiset) (a' : A) (p : T -> bool) :
  0 < NumItems ->
  emplace x a m = (Some r, m', a') ->
  p x = true ->
  (exists r' y,
     find (readonly (fun (u : unit) (z : T) => (p z, u))) tt m' = (Some r', m', tt) /\
     slot_at m' r' = Some (Some y) /\ p y = true) /\
  isEmpty m' = false.
Proof.
  intros Hpos H Hp.
  apply (emplace_success _ _ _ _ _ _ Hpos) in H as (m0 & Hf & -> & Hfree & Hu).
  pose proof (elements_write_perm m0 r x Hfree Hu) as Hperm.
  assert (Hin : In x (elements (write_slot m0 r (Some x)))).
  { apply (Permutation_in _ (Permutation_sym Hperm)). now left. }
  split.
  - destruct (find_some_element p _ x Hin Hp) as (r' & y & Hfind & Hocc & Hy).
    exists r', y. rewrite find_scan, scan_pure, Hfind. repeat split; auto.
    now apply occupied_In in Hocc.
  - destruct (isEmpty (write_slot m0 r (Some x))) eqn:E; [|reflexivity].
    apply isEmpty_true_iff in E. unfold elements in Hin. rewrite E in Hin.
    destruct Hin.
Qed.

(** *** The sizes of the arrays *)

Local Abbreviation well_sized := (@well_sized T NumStaticEntries NumItems).

Lemma chunk_sizes_shape (l l' : list Chunk) :
  map (@chunk_shape T) l = map (@chunk_shape T) l' ->
  forallb (fun c : Chunk => length (items c) =? NumItems) l =
  forallb (fun c : Chunk => length (items c) =? NumItems) l'.
Proof.
  revert l'; induction l as [|c l IH]; intros [|c' l'] H; try discriminate;
    [reflexivity|].
  simpl in *. injection H as _ Hi H. rewrite (IH l' H).
  apply (f_equal (@length bool)) in Hi. rewrite !length_map in Hi. now rewrite Hi.
Qed.

Lemma well_sized_occupancy (m m' : Multiset) :
  occupancy m = occupancy m' -> well_sized m -> well_sized m'.
Proof.
  unfold occupancy, well_sized. intros [= Hs Hc] [H1 H2]. split.
  - apply (f_equal (@length bool)) in Hs. rewrite !length_map in Hs. congruence.
  - now rewrite <- (chunk_sizes_shape _ _ Hc).
Qed.

Lemma update_nth_length {X : Type} (g : X -> X) (l : list X) (i : nat) :
  length (update_nth g l i) = length l.
Proof. revert i; induction l as [|x l IH]; intros [|i]; simpl; auto. Qed.

Lemma chunk_sizes_update (g : list Item -> list Item) (l : list Chunk) (k : nat) :
  (forall its, length (g its) = length its) ->
  forallb (fun c : Chunk => length (items c) =? NumItems)
    (update_nth (with_items g) l k) =
  forallb (fun c : Chunk => length (items c) =? NumItems) l.
Proof.
  intros Hg. revert k; induction l as [|c l IH]; intros [|k]; simpl; auto.
  - now rewrite Hg.
  - now rewrite IH.
Qed.

Lemma well_sized_write (m : Multiset) (r : SlotRef) (it : Item) :
  well_sized m -> well_sized (write_slot m r it).
Proof.
  unfold well_sized. intros [H1 H2]. destruct r as [i | k i]; simpl.
  - now rewrite update_nth_length.
  - split; [exact H1|]. rewrite chunk_sizes_update; [exact H2|].
    intros its. apply update_nth_length.
Qed.

Lemma removeWhere_items_size (St : Type) (predicate : St -> T -> bool * T * St)
    (strategy : RemoveStrategy) (l : list Item) (s : St) (n : Z) :
  length (fst (fst (removeWhere_items predicate strategy l s n))) = length l.
Proof.
  revert s n; induction l as [|[x|] l IH]; intros s n; cbn [removeWhere_items].
  - reflexivity.
  - destruct (predicate s x) as [[[|] x'] s1].
    + destruct strategy; [reflexivity|].
      specialize (IH s1 (to_unsigned (n + 1))).
      destruct (removeWhere_items predicate RemoveAll l s1 (to_unsigned (n + 1)))
        as [[l0 s0] n0]. simpl in *. now rewrite IH.
    + specialize (IH s1 n).
      destruct (removeWhere_items predicate strategy l s1 n) as [[l0 s0] n0].
      simpl in *. now rewrite IH.
  - specialize (IH s n).
    destruct (removeWhere_items predicate strategy l s n) as [[l0 s0] n0].
    simpl in *. now rewrite IH.
Qed.

Lemma removeWhere_chunks_size (St : Type) (predicate : St -> T -> bool * T * St)
    (strategy : RemoveStrategy) (l : list Chunk) (s : St) (n : Z) :
  map (@block T) (fst (fst (removeWhere_chunks predicate strategy l s n))) =
    map (@block T) l /\
  forallb (fun c : Chunk => length (items c) =? NumItems)
    (fst (fst (removeWhere_chunks predicate strategy l s n))) =
  forallb (fun c : Chunk => length (items c) =? NumItems) l.
Proof.
  revert s n; induction l as [|c next IH]; intros s n; cbn [removeWhere_chunks].
  - auto.
  - destruct (stop_after_one strategy n); [auto|].
    pose proof (removeWhere_items_size St predicate strategy (items c) s n) as Hc.
    destruct (removeWhere_items predicate strategy (items c) s n) as [[its s1] n1].
    specialize (IH s1 n1).
    destruct (removeWhere_chunks predicate strategy next s1 n1) as [[rest s2] n2].
    simpl in *. destruct IH as [IH1 IH2]. now rewrite Hc, IH1, IH2.
Qed.

Lemma forallb_filter {X : Type} (q f : X -> bool) (l : list X) :
  forallb q l = true -> forallb q (filter f l) = true.
Proof.
  induction l as [|x l IH]; simpl; [reflexivity|].
  intros H. apply andb_true_iff in H as [Hx Hl].
  destruct (f x); simpl; [rewrite Hx|]; auto.
Qed.

Lemma well_sized_compact (a : A) (m : Multiset) :
  well_sized m -> well_sized (fst (compact a m)).
Proof.
  unfold well_sized. rewrite compact_spec. simpl. intros [H1 H2].
  split; [exact H1 | now apply forallb_filter].
Qed.

Lemma well_sized_removeWhere (St : Type) (predicate : St -> T -> bool * T * St)
    (strategy : RemoveStrategy) (s : St) (a : A) (m : Multiset) :
  well_sized m -> well_sized (fst (fst (removeWhere predicate strategy s a m))).
Proof.
  intros [H1 H2]. unfold removeWhere.
  assert (Hs : length (fst (fst (if UAVCAN_TINY then (static_ m, s, 0%Z)
                 else removeWhere_items predicate strategy (static_ m) s 0))) =
               length (static_ m)).
  { destruct UAVCAN_TINY; [reflexivity | apply removeWhere_items_size]. }
  destruct (if UAVCAN_TINY then (static_ m, s, 0%Z)
            else removeWhere_items predicate strategy (static_ m) s 0)
    as [[st1 s1] n1]. simpl in Hs.
  pose proof (removeWhere_chunks_size St predicate strategy (list_ m) s1 n1) as [_ Hc].
  destruct (removeWhere_chunks predicate strategy (list_ m) s1 n1) as [[l2 s2] n2].
  simpl in Hc.
  assert (Hw : well_sized {| list_ := l2; static_ := st1 |}).
  { split; simpl; congruence. }
  destruct (0 <? n2)%Z; [|exact Hw].
  pose proof (well_sized_compact a _ Hw) as Hw'.
  now destruct (compact a _).
Qed.

Lemma well_sized_emplace (x : T) (a : A) (m : Multiset) :
  well_sized m -> well_sized (snd (fst (emplace x a m))).
Proof.
  intros Hw. unfold emplace.
  destruct (findOrCreateFreeSlot a m) as [[r m0] a0] eqn:E.
  assert (Hw0 : well_sized m0).
  { apply findOrCreateFreeSlot_allocator in E
      as [(_ & -> & _) | [(praw & _ & _ & ->) | (_ & _ & ->)]]; try exact Hw.
    destruct Hw as [H1 H2]. split; simpl; [exact H1|].
    now rewrite repeat_length, Nat.eqb_refl. }
  destruct r as [r|]; simpl; [now apply well_sized_write | exact Hw0].
Qed.

Lemma well_sized_run_op (op : Op) (a : A) (m : Multiset) :
  well_sized m -> well_sized (fst (run_op op (m, a))).
Proof.
  intros Hw. destruct op; simpl.
  - pose proof (well_sized_emplace x a m Hw) as H.
    now destruct (emplace x a m) as [[r m'] a'].
  - exact (well_sized_occupancy _ _ (eq_sym (find_occupancy _ predicate s m)) Hw).
  - rewrite forEach_as_find.
    exact (well_sized_occupancy _ _ (eq_sym (find_occupancy _ _ s m)) Hw).
  - exact (well_sized_occupancy _ _
             (eq_sym (find_occupancy _ (@IndexPredicate T) index m)) Hw).
  - now apply well_sized_removeWhere.
  - now apply well_sized_removeWhere.
  - now apply well_sized_removeWhere.
  - now apply well_sized_removeWhere.
  - now apply well_sized_removeWhere.
Qed.

Lemma well_sized_slots (m : Multiset) :
  well_sized m ->
  num_slots m =
    (if UAVCAN_TINY then 0 else NumStaticEntries) + NumItems * length (list_ m).
Proof.
  unfold well_sized, num_slots, static_capacity. intros [H1 H2]. f_equal.
  - destruct UAVCAN_TINY; [reflexivity | exact H1].
  - induction (list_ m) as [|c l IH]; simpl in *; [lia|].
    apply andb_true_iff in H2 as [Hc Hl]. apply Nat.eqb_eq in Hc.
    rewrite length_app, (IH Hl). lia.
Qed.

(** X11. The static array and the item array of every chunk keep the size
    their type gives them through every public operation, so the container
    never holds more elements than the static slots in use plus [NumItems]
    per chunk of the list. *)
Theorem arrays_keep_their_size :
  well_sized Multiset_new /\
  (forall (op : Op) (a : A) (m : Multiset),
     well_sized m -> well_sized (fst (run_op op (m, a)))) /\
  (forall m : Multiset,
     well_sized m ->
     length (elements m) <=
       (if UAVCAN_TINY then 0 else NumStaticEntries) + NumItems * length (list_ m)).
Proof.
  split; [|split].
  - split; simpl; [apply repeat_length | reflexivity].
  - apply well_sized_run_op.
  - intros m Hw. rewrite <- (well_sized_slots m Hw). unfold elements.
    rewrite length_map. apply occupied_le_slots.
Qed.

(** *** Blocks taken from and given back to the allocator *)

Lemma blocks_partition (q : Chunk -> bool) (l : list Chunk) :
  Permutation (map (@block T) (filter (fun c => negb (q c)) l) ++
               map (@block T) (filter q l))
              (map (@block T) l).
Proof.
  induction l as [|c l IH]; simpl; [constructor|].
  destruct (q c); simpl.
  - apply Permutation_sym.
    eapply perm_trans; [|apply Permutation_middle].
    apply perm_skip, Permutation_sym, IH.
  - apply perm_skip, IH.
Qed.

Lemma blocks_shape (l l' : list Chunk) :
  map (@chunk_shape T) l = map (@chunk_shape T) l' ->
  map (@block T) l = map (@block T) l'.
Proof.
  intros H. apply (f_equal (map fst)) in H. now rewrite !map_map in H.
Qed.

Lemma removeWhere_blocks (St : Type) (predicate : St -> T -> bool * T * St)
    (strategy : RemoveStrategy) (s : St) (a : A) (m : Multiset) :
  exists dropped : list Chunk,
    snd (fst (removeWhere predicate strategy s a m)) = release_all dropped a /\
    Permutation
      (map (@block T) dropped ++
       map (@block T) (list_ (fst (fst (removeWhere predicate strategy s a m)))))
      (map (@block T) (list_ m)).
Proof.
  unfold removeWhere.
  destruct (if UAVCAN_TINY then (static_ m, s, 0%Z)
            else removeWhere_items predicate strategy (static_ m) s 0)
    as [[st1 s1] n1].
  pose proof (removeWhere_chunks_size St predicate strategy (list_ m) s1 n1) as [Hb _].
  destruct (removeWhere_chunks predicate strategy (list_ m) s1 n1) as [[l2 s2] n2].
  simpl in Hb. destruct (0 <? n2)%Z.
  - rewrite compact_spec. simpl.
    exists (filter (fun c => negb (has_element c)) l2). split; [reflexivity|].
    rewrite <- Hb. apply blocks_partition.
  - exists []. simpl. split; [reflexivity|]. rewrite Hb. apply Permutation_refl.
Qed.

Lemma run_op_blocks (op : Op) (a : A) (m : Multiset) :
  (exists dropped : list Chunk,
     snd (run_op op (m, a)) = release_all dropped a /\
     Permutation
       (map (@block T) dropped ++ map (@block T) (list_ (fst (run_op op (m, a)))))
       (map (@block T) (list_ m))) \/
  (exists praw,
     allocate a sizeof_Chunk = (Some praw, snd (run_op op (m, a))) /\
     map (@block T) (list_ (fst (run_op op (m, a)))) =
       praw :: map (@block T) (list_ m)) \/
  (allocate a sizeof_Chunk = (None, snd (run_op op (m, a))) /\
   fst (run_op op (m, a)) = m).
Proof.
  assert (Hfind : forall (St : Type) (predicate : St -> T -> bool * T * St) (s : St),
             exists dropped : list Chunk,
               a = release_all dropped a /\
               Permutation
                 (map (@block T) dropped ++
                  map (@block T) (list_ (snd (fst (find predicate s m)))))
                 (map (@block T) (list_ m))).
  { intros St predicate s. exists []. split; [reflexivity|]. simpl.
    pose proof (find_occupancy St predicate s m) as Ho. injection Ho as _ Hc.
    rewrite (blocks_shape _ _ Hc). apply Permutation_refl. }
  destruct op; simpl.
  - destruct (emplace x a m) as [[r m'] a'] eqn:E. simpl. unfold emplace in E.
    destruct (findOrCreateFreeSlot a m) as [[r0 m0] a0] eqn:Ef.
    apply findOrCreateFreeSlot_allocator in Ef
      as [(Hr & -> & ->) | [(praw & Ha & -> & ->) | (Ha & -> & ->)]].
    + left. exists []. simpl. destruct r0 as [r0|]; [|congruence].
      injection E as <- <- <-. rewrite write_slot_blocks.
      split; [reflexivity | apply Permutation_refl].
    + right. left. injection E as <- <- <-. exists praw.
      split; [exact Ha | reflexivity].
    + right. right. injection E as <- <- <-. auto.
  - left. apply Hfind.
  - left. rewrite forEach_as_find. apply Hfind.
  - left. apply (Hfind Z (@IndexPredicate T) index).
  - left. apply removeWhere_blocks.
  - left. apply removeWhere_blocks.
  - left. apply removeWhere_blocks.
  - left. apply removeWhere_blocks.
  - left. apply removeWhere_blocks.
Qed.

Lemma removeWhere_deallocates (St : Type) (predicate : St -> T -> bool * T * St)
    (strategy : RemoveStrategy) (s : St) (a : A) (m : Multiset) :
  exists dropped : list Chunk,
    forallb (fun c => negb (has_element c)) dropped = true /\
    snd (fst (removeWhere predicate strategy s a m)) =
      fold_left (fun a' c => deallocate (block c) a') dropped a /\
    Permutation
      (map (@block T) dropped ++
       map (@block T) (list_ (fst (fst (removeWhere predicate strategy s a m)))))
      (map (@block T) (list_ m)).
Proof.
  unfold removeWhere.
  destruct (if UAVCAN_TINY then (static_ m, s, 0%Z)
            else removeWhere_items predicate strategy (static_ m) s 0)
    as [[st1 s1] n1].
  pose proof (removeWhere_chunks_size St predicate strategy (list_ m) s1 n1) as [Hb _].
  destruct (removeWhere_chunks predicate strategy (list_ m) s1 n1) as [[l2 s2] n2].
  simpl in Hb. destruct (0 <? n2)%Z.
  - rewrite compact_spec. simpl.
    exists (filter (fun c => negb (has_element c)) l2).
    split; [|split; [reflexivity|]].
    + apply forallb_forall. intros c Hc. now apply filter_In in Hc.
    + rewrite <- Hb. apply blocks_partition.
  - exists []. simpl. split; [reflexivity | split; [reflexivity|]].
    rewrite Hb. apply Permutation_refl.
Qed.

(** C5. When a public operation returns, every chunk in the list has an
    occupied slot.  The compaction pass that follows a removal unlinks
    exactly the chunks whose slots are all empty, calls [deallocate] on
    the block of each of them, in list order, and leaves the others where
    they are in the list.  A removal calls [deallocate] on the blocks of
    chunks without element that it unlinks, and on nothing else: the
    blocks it gives back and the blocks of the chunks still in the list
    are the blocks the list had. *)
Theorem chunks_nonempty_after_every_operation :
  chunks_nonempty Multiset_new /\
  (forall (op : Op) (a : A) (m : Multiset),
     0 < NumItems -> fits_unsigned m -> chunks_nonempty m ->
     chunks_nonempty (fst (run_op op (m, a)))) /\
  (forall (a : A) (m : Multiset),
     compact a m =
       ({| list_ := filter (@has_element T) (list_ m); static_ := static_ m |},
        fold_left (fun a' c => deallocate (block c) a')
          (filter (fun c => negb (has_element c)) (list_ m)) a) /\
     chunks_nonempty (fst (compact a m))) /\
  (forall (St : Type) (predicate : St -> T -> bool * T * St)
          (strategy : RemoveStrategy) (s : St) (a : A) (m : Multiset),
     exists dropped : list Chunk,
       forallb (fun c => negb (has_element c)) dropped = true /\
       snd (fst (removeWhere predicate strategy s a m)) =
         fold_left (fun a' c => deallocate (block c) a') dropped a /\
       Permutation
         (map (@block T) dropped ++
          map (@block T) (list_ (fst (fst (removeWhere predicate strategy s a m)))))
         (map (@block T) (list_ m))).
Proof.
  split; [apply Multiset_new_empty | split; [|split]].
  - apply run_op_chunks_nonempty.
  - intros a m. split; [rewrite compact_spec; reflexivity|].
    rewrite compact_spec. apply filter_has_element_nonempty.
  - apply removeWhere_deallocates.
Qed.

Lemma static_unused_run_op (op : Op) (a : A) (m : Multiset) :
  0 < NumItems -> static_unused m -> static_unused (fst (run_op op (m, a))).
Proof.
  intros Hpos Hu.
  destruct (run_counted_invariant op m a 0%Z Hpos Hu) as [H _].
  now rewrite run_counted_fst in H.
Qed.

Lemma clear_leaves_no_chunk (a : A) (m : Multiset) :
  chunks_nonempty (fst (clear a m)) -> list_ (fst (clear a m)) = [].
Proof.
  intros Hne. apply (occupied_chunks_nil _ 0 Hne).
  assert (He : elements (fst (clear a m)) = []).
  { unfold clear, removeAllWhere.
    change (@YesPredicate T) with (readonly (fun (u : unit) (x : T) => (true, u))).
    pose proof (removeAllWhere_kept unit (fun u _ => (true, u)) tt a m) as H.
    rewrite (keep_false_pure unit (fun _ => true)) in H.
    injection H as <- _. now induction (elements m). }
  unfold elements, occupied in He. apply map_eq_nil in He.
  now apply app_eq_nil in He.
Qed.

Lemma full_items_count (mk : nat -> SlotRef) (l : list Item) (i : nat) :
  no_free_slot l = true -> length (occupied_items mk l i) = length l.
Proof.
  unfold no_free_slot. revert i; induction l as [|[x|] l IH]; intros i; simpl;
    [reflexivity | | discriminate].
  intros H. now rewrite (IH (S i) H).
Qed.

Lemma full_chunks_count (l : list Chunk) (k : nat) :
  forallb (@chunk_full T) l = true ->
  length (occupied_chunks l k) = length (flat_map (@items T) l).
Proof.
  revert k; induction l as [|c l IH]; intros k; simpl; [reflexivity|].
  intros H. apply andb_true_iff in H as [Hc Hl].
  rewrite !length_app, (IH (S k) Hl). f_equal.
  now apply full_items_count.
Qed.

Lemma full_container_count (m : Multiset) :
  no_free_slot (static_capacity m) = true ->
  forallb (@chunk_full T) (list_ m) = true ->
  length (occupied m) = num_slots m.
Proof.
  intros Hs Hc. unfold occupied, num_slots.
  now rewrite length_app, (full_items_count StaticSlot _ 0 Hs), (full_chunks_count _ 0 Hc).
Qed.

Lemma removal_leaves_room (St : Type) (predicate : St -> T -> bool * T * St)
    (strategy : RemoveStrategy) (s : St) (a : A) (m : Multiset) :
  well_sized m ->
  length (elements (fst (fst (removeWhere predicate strategy s a m)))) <
    length (elements m) ->
  no_free_slot (static_capacity (fst (fst (removeWhere predicate strategy s a m)))) = true ->
  forallb (@chunk_full T) (list_ (fst (fst (removeWhere predicate strategy s a m)))) = true ->
  exists (c : Chunk) (dropped : list Chunk),
    snd (fst (removeWhere predicate strategy s a m)) = release_all (c :: dropped) a.
Proof.
  intros Hw Hlt Hs Hc.
  destruct (removeWhere_blocks St predicate strategy s a m) as (dropped & Ha & Hp).
  destruct dropped as [|c dropped]; [|now exists c, dropped].
  exfalso. simpl in Hp. apply Permutation_length in Hp. rewrite !length_map in Hp.
  pose proof (well_sized_removeWhere St predicate strategy s a m Hw) as Hw'.
  pose proof (full_container_count _ Hs Hc) as Hfull.
  rewrite (well_sized_slots _ Hw'), Hp, <- (well_sized_slots _ Hw) in Hfull.
  pose proof (occupied_le_slots m) as Hle.
  unfold elements in Hlt. rewrite !length_map in Hlt. lia.
Qed.

(** *** An empty container *)

Section NoElement.

Variable St : Type.
Variable predicate : St -> T -> bool * T * St.

Lemma find_items_no_element (l : list Item) (i : nat) (s : St) :
  existsb (@isConstructed T) l = false ->
  find_items predicate l i s = (None, l, s).
Proof.
  revert i; induction l as [|[x|] l IH]; intros i H; simpl in *;
    [reflexivity | discriminate|].
  now rewrite (IH (S i) H).
Qed.

Lemma find_chunks_no_element (l : list Chunk) (k : nat) (s : St) :
  occupied_chunks l k = [] -> find_chunks predicate l k s = (None, l, s).
Proof.
  revert k; induction l as [|c l IH]; intros k H; simpl in *; [reflexivity|].
  apply app_eq_nil in H as [Hc Hl]. apply occupied_items_nil in Hc.
  rewrite (find_items_no_element _ 0 s Hc), (IH (S k) Hl).
  now rewrite with_same_items.
Qed.

Lemma find_no_element (s : St) (m : Multiset) :
  occupied m = [] -> find predicate s m = (None, m, s).
Proof.
  unfold occupied, static_capacity, find. intros H.
  apply app_eq_nil in H as [Hs Hc].
  destruct UAVCAN_TINY.
  - rewrite (find_chunks_no_element _ 0 s Hc). now destruct m.
  - apply occupied_items_nil in Hs.
    rewrite (find_items_no_element _ 0 s Hs), (find_chunks_no_element _ 0 s Hc).
    now destruct m.
Qed.

Lemma removeWhere_items_no_element (strategy : RemoveStrategy) (l : list Item)
    (s : St) (n : Z) :
  existsb (@isConstructed T) l = false ->
  removeWhere_items predicate strategy l s n = (l, s, n).
Proof.
  induction l as [|[x|] l IH]; intros H; simpl in *;
    [reflexivity | discriminate|].
  now rewrite (IH H).
Qed.

Lemma removeWhere_chunks_no_element (strategy : RemoveStrategy) (l : list Chunk)
    (k : nat) (s : St) (n : Z) :
  occupied_chunks l k = [] ->
  removeWhere_chunks predicate strategy l s n = (l, s, n).
Proof.
  revert k; induction l as [|c l IH]; intros k H; simpl in *; [reflexivity|].
  apply app_eq_nil in H as [Hc Hl]. apply occupied_items_nil in Hc.
  destruct (stop_after_one strategy n); [reflexivity|].
  rewrite (removeWhere_items_no_element strategy _ s n Hc), (IH (S k) Hl).
  now rewrite with_same_items.
Qed.

Lemma removeWhere_no_element (strategy : RemoveStrategy) (s : St) (a : A)
    (m : Multiset) :
  occupied m = [] -> removeWhere predicate strategy s a m = (m, a, s).
Proof.
  unfold occupied, static_capacity, removeWhere. intros H.
  apply app_eq_nil in H as [Hs Hc].
  destruct UAVCAN_TINY.
  - rewrite (removeWhere_chunks_no_element strategy _ 0 s 0 Hc). simpl.
    now destruct m.
  - apply occupied_items_nil in Hs.
    rewrite (removeWhere_items_no_element strategy _ s 0 Hs).
    rewrite (removeWhere_chunks_no_element strategy _ 0 s 0 Hc). simpl.
    now destruct m.
Qed.

End NoElement.

(** X14. On a container without elements, such as a new one, no callable
    is ever called: [find] returns null, a removal changes neither the
    container nor the allocator, [getByIndex] returns null for every
    index, and [getSize()] is 0. *)
Theorem operations_on_an_empty_container (m : Multiset) :
  isEmpty Multiset_new = true /\
  (isEmpty m = true ->
   (forall (St : Type) (predicate : St -> T -> bool * T * St) (s : St),
      find predicate s m = (None, m, s)) /\
   (forall (St : Type) (predicate : St -> T -> bool * T * St)
           (strategy : RemoveStrategy) (s : St) (a : A),
      removeWhere predicate strategy s a m = (m, a, s)) /\
   (forall index : Z, getByIndex index m = (None, m)) /\
   getSize m = 0%Z).
Proof.
  split.
  - apply isEmpty_occupied, Multiset_new_empty.
  - intros H. apply isEmpty_true_iff in H. repeat split.
    + intros St predicate s. now apply find_no_element.
    + intros St predicate strategy s a. now apply removeWhere_no_element.
    + intros index. unfold getByIndex. now rewrite find_no_element.
    + now rewrite getSize_length, H.
Qed.

(** *** emplace and the static array *)

(** X15. While the build uses the static array and one of its slots is
    free, [emplace] constructs the element in the first free static slot
    and touches neither the chunk list nor the allocator; under
    [UAVCAN_TINY] it never returns a static slot and leaves the static
    array alone. *)
Theorem emplace_prefers_the_static_array (x : T) (a : A) (m : Multiset) :
  (UAVCAN_TINY = false -> no_free_slot (static_ m) = false ->
   exists i,
     is_first_free (static_ m) i /\
     emplace x a m =
       (Some (StaticSlot i),
        {| list_ := list_ m;
           static_ := update_nth (fun _ : Item => Some x) (static_ m) i |},
        a)) /\
  (UAVCAN_TINY = true ->
   static_ (snd (fst (emplace x a m))) = static_ m /\
   forall i, fst (fst (emplace x a m)) <> Some (StaticSlot i)).
Proof.
  split.
  - intros Ht Hfree. unfold emplace, findOrCreateFreeSlot. rewrite Ht.
    destruct (first_free (static_ m) 0) as [i|] eqn:E.
    + apply first_free_inv in E as (j & -> & Hj). exists j. simpl. auto.
    + apply first_free_full in E. congruence.
  - intros Ht. unfold emplace.
    destruct (findOrCreateFreeSlot a m) as [[[r|] m0] a0] eqn:E; simpl.
    + apply findOrCreateFreeSlot_cases in E as (Hu & Hs & _).
      destruct r as [i | k i]; simpl in *; [congruence|].
      split; [exact Hs | discriminate].
    + pose proof (findOrCreateFreeSlot_none_same a m) as H. rewrite E in H.
      simpl in H. rewrite (H eq_refl). split; [reflexivity | discriminate].
Qed.

(** *** The two counters behind getSize *)

Local Abbreviation getNumDynamicItems := (@getNumDynamicItems T).

(** X16. When the container fits the counters, [getNumStaticItems()] is
    the number of occupied static slots in use (0 under [UAVCAN_TINY], at
    most the size of the static array), [getNumDynamicItems()] is the
    number of occupied slots in the chunks, and [getSize()] is their sum. *)
Theorem counters_count_static_and_dynamic_items (m : Multiset) :
  fits_unsigned m ->
  getNumStaticItems m = Z.of_nat (num_constructed (static_capacity m)) /\
  getNumDynamicItems m = Z.of_nat (num_constructed (flat_map (@items T) (list_ m))) /\
  (getNumStaticItems m <= Z.of_nat (length (static_ m)))%Z /\
  (UAVCAN_TINY = true -> getNumStaticItems m = 0%Z) /\
  getSize m = (getNumStaticItems m + getNumDynamicItems m)%Z.
Proof.
  intros Hfit. unfold fits_unsigned in Hfit.
  pose proof (occupied_le_slots m) as Hle. unfold occupied, num_slots in Hle.
  rewrite length_app in Hle.
  pose proof (occupied_items_le StaticSlot (static_capacity m) 0) as H1.
  pose proof (occupied_chunks_le (list_ m) 0) as H2.
  unfold num_slots in Hfit.
  assert (Hs : getNumStaticItems m = Z.of_nat (num_constructed (static_capacity m))).
  { unfold getNumStaticItems, static_capacity in *. destruct UAVCAN_TINY; [reflexivity|].
    change 0%Z with (to_unsigned 0).
    rewrite (count_items_length StaticSlot _ 0), <- (occupied_items_num StaticSlot _ 0).
    apply to_unsigned_small. lia. }
  assert (Hd : getNumDynamicItems m =
               Z.of_nat (num_constructed (flat_map (@items T) (list_ m)))).
  { unfold getNumDynamicItems. change 0%Z with (to_unsigned 0).
    rewrite (count_chunks_length _ 0), <- (occupied_chunks_num _ 0).
    apply to_unsigned_small. lia. }
  split; [exact Hs | split; [exact Hd | split; [|split]]].
  - rewrite Hs, <- (occupied_items_num StaticSlot _ 0).
    unfold static_capacity in *. destruct UAVCAN_TINY; simpl in *; lia.
  - intros Ht. unfold getNumStaticItems. now rewrite Ht.
  - unfold getSize. apply to_unsigned_small.
    rewrite Hs, Hd, <- (occupied_items_num StaticSlot _ 0), <- (occupied_chunks_num _ 0).
    lia.
Qed.

(** *** Chunk::findFreeSlot *)

(** X17. [findFreeSlot] returns the first unoccupied slot of the chunk:
    the slot it returns is empty and every slot before it is occupied; it
    returns null exactly when every slot of the chunk is occupied. *)
Theorem findFreeSlot_returns_first_free_slot (c : Chunk) :
  (forall i, findFreeSlot c = Some i <-> is_first_free (items c) i) /\
  (findFreeSlot c = None <-> chunk_full c = true).
Proof.
  unfold findFreeSlot, chunk_full. split.
  - intros i. split.
    + intros H. apply first_free_inv in H as (j & -> & Hj). exact Hj.
    + intros H. exact (first_free_found _ 0 _ H).
  - split; apply first_free_full.
Qed.

End Correctness.

(** ** A pool allocator behind the container *)

Section Pool.

Variable T : Type.
Variable NumStaticEntries : nat.
Variable NumItems : nat.
Variable sizeof_Chunk : nat.
Variable UAVCAN_TINY : bool.
Variable T_eqb : T -> T -> bool.
Variable T_zero : T.

Local Abbreviation Multiset := (Multiset T).
Local Abbreviation Chunk := (Chunk T).
Local Abbreviation run_op :=
  (run_op (A:=list nat) NumItems sizeof_Chunk UAVCAN_TINY T_eqb T_zero).
Local Abbreviation emplace := (emplace (A:=list nat) NumItems sizeof_Chunk UAVCAN_TINY).
Local Abbreviation removeWhere := (removeWhere (A:=list nat) UAVCAN_TINY).
Local Abbreviation Multiset_destroy := (Multiset_destroy (A:=list nat) UAVCAN_TINY).
Local Abbreviation elements := (elements UAVCAN_TINY).
Local Abbreviation well_sized := (@well_sized T NumStaticEntries NumItems).

Lemma pool_release_all (dropped : list Chunk) (pool : list nat) :
  release_all dropped pool = rev (map (@block T) dropped) ++ pool.
Proof.
  unfold release_all. revert pool; induction dropped as [|c l IH]; intros pool;
    simpl; [reflexivity|].
  rewrite IH. unfold Chunk_destroy. simpl. now rewrite <- app_assoc.
Qed.

Lemma pool_allocate (pool : list nat) (size : nat) (r : option nat) (pool' : list nat) :
  allocate pool size = (r, pool') ->
  match r with
  | Some b => pool = b :: pool'
  | None => pool' = pool /\ (size <= MemPoolBlockSize -> pool = [])
  end.
Proof.
  simpl. destruct (Nat.leb_spec size MemPoolBlockSize) as [Hle | Hgt].
  - destruct pool as [|b rest]; intros [= <- <-]; auto.
  - intros [= <- <-]. split; [reflexivity | lia].
Qed.

Lemma pool_step (op : Op T) (a : list nat) (m : Multiset) (pool : list nat) :
  Permutation (a ++ map (@block T) (list_ m)) pool ->
  Permutation (snd (run_op op (m, a)) ++ map (@block T) (list_ (fst (run_op op (m, a)))))
              pool.
Proof.
  intros Hinv.
  destruct (run_op_blocks T NumItems sizeof_Chunk UAVCAN_TINY T_eqb T_zero op a m)
    as [(dropped & -> & Hp) | [(praw & Ha & ->) | (Ha & ->)]].
  - rewrite pool_release_all.
    eapply perm_trans; [|exact Hinv].
    eapply perm_trans; [|apply Permutation_app_head, Hp].
    rewrite (app_assoc a). apply Permutation_app_tail.
    eapply perm_trans; [apply Permutation_app_comm|].
    apply Permutation_app_head, Permutation_sym, Permutation_rev.
  - apply pool_allocate in Ha. rewrite Ha in Hinv.
    eapply perm_trans; [|exact Hinv].
    apply Permutation_sym, Permutation_middle.
  - apply pool_allocate in Ha as [-> _]. exact Hinv.
Qed.

Lemma pool_invariant (ops : list (Op T)) (m : Multiset) (a : list nat) (pool : list nat) :
  0 < NumItems ->
  (Z.of_nat (NumStaticEntries + NumItems * length pool) < UINT_MODULUS)%Z ->
  well_sized m -> chunks_nonempty m -> static_unused UAVCAN_TINY m ->
  Permutation (a ++ map (@block T) (list_ m)) pool ->
  let final := fold_left (fun c op => run_op op c) ops (m, a) in
  well_sized (fst final) /\ chunks_nonempty (fst final) /\
  static_unused UAVCAN_TINY (fst final) /\
  Permutation (snd final ++ map (@block T) (list_ (fst final))) pool.
Proof.
  intros Hpos Hbound. revert m a; induction ops as [|op ops IH];
    intros m a Hw Hne Hu Hp.
  - simpl. auto.
  - cbn [fold_left].
    assert (Hfit : fits_unsigned UAVCAN_TINY m).
    { unfold fits_unsigned.
      rewrite (well_sized_slots T NumStaticEntries NumItems UAVCAN_TINY m Hw).
      apply Permutation_length in Hp. rewrite length_app, length_map in Hp.
      assert (NumItems * length (list_ m) <= NumItems * length pool)
        by (apply Nat.mul_le_mono_l; lia).
      destruct UAVCAN_TINY; lia. }
    pose proof (well_sized_run_op T NumStaticEntries NumItems sizeof_Chunk UAVCAN_TINY
                  T_eqb T_zero op a m Hw) as Hw'.
    pose proof (run_op_chunks_nonempty T NumItems sizeof_Chunk UAVCAN_TINY T_eqb T_zero
                  op a m Hpos Hfit Hne) as Hne'.
    pose proof (static_unused_run_op T NumItems sizeof_Chunk UAVCAN_TINY T_eqb T_zero
                  op a m Hpos Hu) as Hu'.
    pose proof (pool_step op a m pool Hp) as Hp'.
    destruct (run_op op (m, a)) as [m1 a1]. now apply IH.
Qed.

(** X12. With a pool of blocks as allocator, at every moment the blocks in
    the pool and the blocks of the chunks in the list are together the
    blocks the pool started with, and after the destructor every block is
    back in the pool.  The pool is small enough for the counters: static
    slots plus [NumItems] per block stay below 2^32. *)
Theorem pool_gets_every_block_back (ops : list (Op T)) (pool : list nat) :
  0 < NumItems ->
  (Z.of_nat (NumStaticEntries + NumItems * length pool) < UINT_MODULUS)%Z ->
  let final :=
    fold_left (fun c op => run_op op c) ops (Multiset_new T NumStaticEntries, pool) in
  Permutation (snd final ++ map (@block T) (list_ (fst final))) pool /\
  Permutation (Multiset_destroy (snd final) (fst final)) pool.
Proof.
  intros Hpos Hbound final.
  destruct (Multiset_new_empty T NumStaticEntries UAVCAN_TINY) as (_ & Hne & Hu).
  assert (Hw : well_sized (Multiset_new T NumStaticEntries)).
  { split; simpl; [apply repeat_length | reflexivity]. }
  assert (Hp : Permutation (pool ++ map (@block T) (list_ (Multiset_new T NumStaticEntries)))
                           pool).
  { simpl. rewrite app_nil_r. apply Permutation_refl. }
  split.
  - apply (pool_invariant ops _ _ pool Hpos Hbound Hw Hne Hu Hp).
  - pose proof (pool_invariant (ops ++ [OpClear T]) _ _ pool Hpos Hbound Hw Hne Hu Hp)
      as (_ & Hne' & _ & Hp').
    rewrite fold_left_app in Hne', Hp'. fold final in Hne', Hp'.
    cbn [fold_left] in Hne', Hp'. destruct final as [m a].
    change (run_op (OpClear T) (m, a)) with (clear UAVCAN_TINY a m) in Hne', Hp'.
    rewrite (clear_leaves_no_chunk T UAVCAN_TINY a m Hne') in Hp'.
    simpl in Hp'. rewrite app_nil_r in Hp'. exact Hp'.
Qed.

(** X13. With a pool of blocks as allocator whose blocks are large enough
    for a chunk, an [emplace] that follows a removal which took at least
    one element away never fails: either a slot is free or the removal has
    given a block back to the pool. *)
Theorem emplace_succeeds_after_a_removal (St : Type)
    (predicate : St -> T -> bool * T * St) (strategy : RemoveStrategy)
    (s : St) (a : list nat) (m : Multiset) (x : T) :
  well_sized m ->
  sizeof_Chunk <= MemPoolBlockSize ->
  length (elements (fst (fst (removeWhere predicate strategy s a m)))) <
    length (elements m) ->
  fst (fst (emplace x (snd (fst (removeWhere predicate strategy s a m)))
                      (fst (fst (removeWhere predicate strategy s a m))))) <> None.
Proof.
  intros Hw Hsize Hlt Hnone.
  rewrite emplace_result in Hnone.
  apply findOrCreateFreeSlot_none in Hnone as (Hs & Hc & Hal).
  destruct (removal_leaves_room T NumStaticEntries NumItems UAVCAN_TINY
              St predicate strategy s a m Hw Hlt Hs Hc) as (c & dropped & Ha).
  rewrite pool_release_all in Ha.
  destruct (allocate (snd (fst (removeWhere predicate strategy s a m))) sizeof_Chunk)
    as [r pool'] eqn:E.
  simpl in Hal. subst r. apply pool_allocate in E as [_ Hempty].
  rewrite (Hempty Hsize) in Ha. simpl in Ha.
  destruct (rev (map (@block T) dropped)); discriminate.
Qed.

End Pool.

(** ** The theorems on the worked instance *)

Lemma removeWhere_strategies_witness :
  fits_unsigned false ex_m /\
  removeAllWhere false (observing (Nat.eqb 2) (fun (n : nat) (_ : nat) => S n))
    0 ex_pool ex_m =
    ({| list_ := []; static_ := [Some 1; None] |}, [7; 8; 9], 3) /\
  slot_at (write_slot ex_m (ChunkSlot 0 0) None) (ChunkSlot 0 2) = Some (Some 2) /\
  slot_at (write_slot ex_m (ChunkSlot 0 0) None) (ChunkSlot 0 0) = Some None.
Proof.
  assert (ex_m_fits : fits_unsigned false ex_m) by (vm_compute; reflexivity).
  destruct (removeWhere_strategies nat false ex_pool ex_m)
    as (_ & Hother & Hsame & _ & _ & Hall & _).
  split; [exact ex_m_fits|]. split; [|split].
  - destruct (Hall ex_m_fits nat (Nat.eqb 2) (fun n _ => S n) 0) as [E _].
    rewrite E. reflexivity.
  - rewrite (Hother (ChunkSlot 0 0) (ChunkSlot 0 2)) by discriminate. reflexivity.
  - apply (Hsame (ChunkSlot 0 0) (Some 2)). reflexivity.
Defined.

Lemma find_returns_first_match_witness :
  find false (readonly (fun (u : unit) (x : nat) => (Nat.eqb 2 x, u))) tt ex_m =
    (Some (ChunkSlot 0 0), ex_m, tt) /\
  slot_at ex_m (ChunkSlot 0 2) = Some (Some 2).
Proof.
  destruct (find_returns_first_match nat false unit
              (fun (u : unit) (x : nat) => (Nat.eqb 2 x, u)) tt ex_m)
    as (E & _ & Hin).
  split.
  - rewrite E. reflexivity.
  - apply (proj1 (Hin (ChunkSlot 0 2) 2)). simpl. auto.
Defined.

Lemma emplace_null_iff_exhausted_witness :
  fst (fst (emplace 3 64 false 9 (@nil nat) ex_full)) = None /\
  snd (fst (emplace 3 64 false 9 (@nil nat) ex_full)) = ex_full.
Proof.
  destruct (emplace_null_iff_exhausted nat 3 64 false 9 (@nil nat) ex_full)
    as [Hiff Hsame].
  assert (Hnull : fst (fst (emplace 3 64 false 9 (@nil nat) ex_full)) = None).
  { apply Hiff. repeat split; reflexivity. }
  split; [exact Hnull | exact (Hsame Hnull)].
Defined.

Lemma findOrCreateFreeSlot_search_order_witness :
  findOrCreateFreeSlot 3 64 false ex_pool ex_m = (Some (StaticSlot 1), ex_m, ex_pool) /\
  findOrCreateFreeSlot 3 64 true ex_pool ex_m = (Some (ChunkSlot 0 1), ex_m, ex_pool) /\
  findOrCreateFreeSlot 3 64 false ex_pool ex_full =
    (Some (ChunkSlot 0 0),
     {| list_ := {| block := 8; items := [None; None; None] |} :: list_ ex_full;
        static_ := static_ ex_full |},
     [9]) /\
  findOrCreateFreeSlot 3 64 false (@nil nat) ex_full = (None, ex_full, []).
Proof.
  split; [|split; [|split]].
  - apply (proj1 (findOrCreateFreeSlot_search_order nat 3 64 false ex_pool ex_m) 1).
    + reflexivity.
    + split; reflexivity.
  - apply (proj1 (proj2 (findOrCreateFreeSlot_search_order nat 3 64 true ex_pool ex_m))
             0 ex_chunk 1).
    + reflexivity.
    + reflexivity.
    + reflexivity.
    + split; reflexivity.
  - apply (proj1 (proj2 (proj2
             (findOrCreateFreeSlot_search_order nat 3 64 false ex_pool ex_full))) 8 [9]);
      reflexivity.
  - apply (proj2 (proj2 (proj2
             (findOrCreateFreeSlot_search_order nat 3 64 false (@nil nat) ex_full))) []);
      reflexivity.
Defined.

Lemma chunks_nonempty_after_every_operation_witness :
  chunks_nonempty ex_m /\
  chunks_nonempty
    (fst (run_op 3 64 false Nat.eqb 0 (OpRemoveAll (RefOutside 2)) (ex_m, ex_pool))) /\
  chunks_nonempty (fst (run_op 3 64 false Nat.eqb 0 (OpEmplace 9) (ex_full, ex_pool))) /\
  compact ex_pool ex_sparse =
    ({| list_ := [ex_chunk]; static_ := [Some 1; None] |}, [6; 5; 8; 9]) /\
  run_op 3 64 false Nat.eqb 0 (OpRemoveAll (RefOutside 2)) (ex_m, ex_pool) =
    ({| list_ := []; static_ := [Some 1; None] |}, [7; 8; 9]).
Proof.
  destruct (chunks_nonempty_after_every_operation nat 2 3 64 false Nat.eqb 0)
    as (_ & Hop & Hc & _).
  split; [reflexivity | split; [|split; [|split]]].
  - apply Hop; [repeat constructor | vm_compute; reflexivity | reflexivity].
  - apply Hop; [repeat constructor | vm_compute; reflexivity | reflexivity].
  - rewrite (proj1 (Hc ex_pool ex_sparse)). reflexivity.
  - reflexivity.
Defined.

Lemma getSize_equals_independent_count_witness :
  getSize false
    {| list_ := [{| block := 7; items := [Some 7; None; None] |}];
       static_ := [None; Some 9] |} = 2%Z.
Proof.
  apply (getSize_equals_independent_count nat 2 3 64 false Nat.eqb 0 ex_ops [7]
           {| list_ := [{| block := 7; items := [Some 7; None; None] |}];
              static_ := [None; Some 9] |}
           [] 2%Z).
  - repeat constructor.
  - vm_compute. reflexivity.
  - reflexivity.
Defined.

Lemma getByIndex_enumerates_witness :
  getByIndex false 3 ex_m = (None, ex_m) /\
  exists r, getByIndex false 1 ex_m = (Some r, ex_m) /\
            slot_at ex_m r = Some (Some 2).
Proof.
  assert (ex_m_fits : fits_unsigned false ex_m) by (vm_compute; reflexivity).
  destruct (getByIndex_enumerates nat false ex_m ex_m_fits) as (Hin & Hout & _).
  split.
  - apply Hout. vm_compute. split; [discriminate | reflexivity].
  - destruct (Hin 1%Z) as (r & x & Hn & Hg & Hs).
    + vm_compute. split; [discriminate | reflexivity].
    + exists r. split; [exact Hg|].
      vm_compute in Hn. injection Hn as <- <-. reflexivity.
Defined.

Lemma clear_empties_container_witness :
  isEmpty false (fst (clear false ex_pool ex_m)) = true /\
  list_ (fst (clear false ex_pool ex_m)) = [] /\
  snd (clear false ex_pool ex_m) = [7; 8; 9].
Proof.
  destruct (clear_empties_container nat false ex_pool ex_m)
    as (He & _ & _ & _ & _ & Hl & Ha).
  - vm_compute. reflexivity.
  - reflexivity.
  - intros H. discriminate H.
  - split; [exact He | split; [exact Hl | rewrite Ha; reflexivity]].
Defined.

Lemma forEach_visits_every_element_witness :
  forEach false (fun (n : nat) (x : nat) => (x + 10, n + x)) 0 ex_m =
    ({| list_ := [{| block := 7; items := [Some 12; None; Some 12] |}];
        static_ := [Some 11; None] |}, 5) /\
  visit (fun (n : nat) (x : nat) => (x + 10, n + x)) 0 [1; 2; 2] = ([11; 12; 12], 5).
Proof.
  destruct (forEach_visits_every_element nat false nat
              (fun (n : nat) (x : nat) => (x + 10, n + x)) 0 ex_m)
    as (_ & _ & Hv & _).
  split; [reflexivity|].
  change [1; 2; 2] with (elements false ex_m). rewrite Hv. reflexivity.
Defined.

Lemma emplace_assertion_holds_witness :
  emplace_assertion 3 64 false ex_pool ex_full = true /\
  slot_at {| list_ := {| block := 8; items := [None; None; None] |} :: list_ ex_full;
            static_ := static_ ex_full |} (ChunkSlot 0 0) = Some None.
Proof.
  assert (three_pos : 0 < 3) by repeat constructor.
  destruct (emplace_assertion_holds nat 3 64 false ex_pool ex_full three_pos)
    as [Hfree Hassert].
  split; [exact Hassert|].
  apply (Hfree (ChunkSlot 0 0) _ [9]). reflexivity.
Defined.

(** The scenario of a pool that holds one chunk: two elements go to the
    static slots, three fill the chunk, the sixth [emplace] finds the pool
    exhausted and returns null; emptying the chunk gives the block back and
    [emplace] succeeds again. *)
Example scenario_pool_of_one_chunk :
  let ops := [OpEmplace 1; OpEmplace 2; OpEmplace 3; OpEmplace 4; OpEmplace 5] in
  let '(m5, a5) := fold_left (fun c op => run_op 3 64 false Nat.eqb 0 op c) ops
                     (Multiset_new nat 2, [7]) in
  fst (fst (emplace 3 64 false 6 a5 m5)) = None /\
  getSize false m5 = 5%Z /\
  let '(m2, a2) := run_op 3 64 false Nat.eqb 0
                     (OpRemoveAllWhere (observing (Nat.leb 3) (fun (u : unit) _ => u)) tt)
                     (m5, a5) in
  a2 = [7] /\ list_ m2 = [] /\
  fst (fst (emplace 3 64 false 6 a2 m2)) = Some (ChunkSlot 0 0).
Proof. vm_compute. repeat split. Qed.

(** ** The further properties on the worked instance *)

Lemma isEmpty_iff_no_element_witness :
  fits_unsigned false ex_m /\ isEmpty false ex_m = false /\
  getSize false ex_m <> 0%Z.
Proof.
  assert (ex_m_fits : fits_unsigned false ex_m) by (vm_compute; reflexivity).
  destruct (isEmpty_iff_no_element nat false ex_m) as (_ & Hsize & _).
  split; [exact ex_m_fits | split; [reflexivity|]].
  intros H. apply (proj2 (Hsize ex_m_fits)) in H. discriminate H.
Defined.

Lemma removeFirst_removes_first_equal_element_witness :
  elements false (fst (removeFirst false Nat.eqb 2 ex_pool ex_m)) = [1; 2] /\
  removeFirst false Nat.eqb 5 ex_pool ex_m = (ex_m, ex_pool).
Proof.
  destruct (removeFirst_removes_first_equal_element nat false Nat.eqb 2 ex_pool ex_m)
    as (He & _ & _).
  destruct (removeFirst_removes_first_equal_element nat false Nat.eqb 5 ex_pool ex_m)
    as (_ & _ & Hnone).
  split.
  - rewrite He. reflexivity.
  - apply Hnone. reflexivity.
Defined.

Lemma compact_is_idempotent_witness :
  chunks_nonempty ex_m /\ compact ex_pool ex_m = (ex_m, ex_pool).
Proof.
  split; [reflexivity|].
  apply (proj2 (compact_is_idempotent nat ex_pool ex_m)). reflexivity.
Defined.

Lemma removeAllWhere_twice_is_once_witness :
  removeAllWhere false (observing (Nat.eqb 2) (fun (n : nat) (_ : nat) => S n)) 0
    [7; 8; 9] {| list_ := []; static_ := [Some 1; None] |} =
  ({| list_ := []; static_ := [Some 1; None] |}, [7; 8; 9], 1).
Proof.
  assert (ex_m_fits : fits_unsigned false ex_m) by (vm_compute; reflexivity).
  exact (removeAllWhere_twice_is_once nat false nat (Nat.eqb 2)
           (fun n _ => S n) (fun n _ => S n) 0 0 ex_pool ex_m ex_m_fits).
Defined.

Lemma emplace_stores_the_element_witness :
  slot_at (snd (fst (emplace 3 64 false 9 ex_pool ex_full))) (ChunkSlot 0 0) =
    Some (Some 9) /\
  Permutation (elements false (snd (fst (emplace 3 64 false 9 ex_pool ex_full))))
              (9 :: elements false ex_full).
Proof.
  assert (three_pos : 0 < 3) by repeat constructor.
  destruct (emplace_stores_the_element nat 3 64 false 9 ex_pool ex_full
              (ChunkSlot 0 0)
              (snd (fst (emplace 3 64 false 9 ex_pool ex_full)))
              (snd (emplace 3 64 false 9 ex_pool ex_full))
              three_pos)
    as (Hslot & _ & Hperm & _).
  - vm_compute. reflexivity.
  - split; [exact Hslot | exact Hperm].
Defined.

Lemma emplaced_element_is_found_witness :
  isEmpty false (snd (fst (emplace 3 64 false 9 ex_pool ex_full))) = false /\
  exists r' y,
    slot_at (snd (fst (emplace 3 64 false 9 ex_pool ex_full))) r' = Some (Some y) /\
    Nat.eqb 9 y = true.
Proof.
  assert (three_pos : 0 < 3) by repeat constructor.
  destruct (emplaced_element_is_found nat 3 64 false 9 ex_pool ex_full
              (ChunkSlot 0 0)
              (snd (fst (emplace 3 64 false 9 ex_pool ex_full)))
              (snd (emplace 3 64 false 9 ex_pool ex_full))
              (Nat.eqb 9) three_pos)
    as ((r' & y & _ & Hs & Hy) & He).
  - vm_compute. reflexivity.
  - reflexivity.
  - split; [exact He|]. exists r', y. split; [exact Hs | exact Hy].
Defined.

Lemma arrays_keep_their_size_witness :
  well_sized 2 3 ex_full /\
  well_sized 2 3 (fst (run_op 3 64 false Nat.eqb 0 (OpEmplace 9) (ex_full, ex_pool))) /\
  length (elements false ex_full) <= 2 + 3 * 1.
Proof.
  assert (Hw : well_sized 2 3 ex_full) by (split; reflexivity).
  destruct (arrays_keep_their_size nat (A:=list nat) 2 3 64 false Nat.eqb 0)
    as (_ & Hop & Hcap).
  split; [exact Hw | split].
  - exact (Hop (OpEmplace 9) ex_pool ex_full Hw).
  - exact (Hcap ex_full Hw).
Defined.

Lemma pool_gets_every_block_back_witness :
  Permutation
    (Multiset_destroy false
       (snd (fold_left (fun c op => run_op 3 64 false Nat.eqb 0 op c) ex_ops
               (Multiset_new nat 2, [7])))
       (fst (fold_left (fun c op => run_op 3 64 false Nat.eqb 0 op c) ex_ops
               (Multiset_new nat 2, [7]))))
    [7].
Proof.
  apply (pool_gets_every_block_back nat 2 3 64 false Nat.eqb 0 ex_ops [7]).
  - repeat constructor.
  - vm_compute. reflexivity.
Defined.

Lemma emplace_succeeds_after_a_removal_witness :
  fst (fst (emplace 3 64 false 9
    (snd (fst (removeWhere false (observing (Nat.eqb 2) (fun (u : unit) (_ : nat) => u))
                 RemoveOne tt (@nil nat) ex_full)))
    (fst (fst (removeWhere false (observing (Nat.eqb 2) (fun (u : unit) (_ : nat) => u))
                 RemoveOne tt (@nil nat) ex_full))))) <> None.
Proof.
  apply (emplace_succeeds_after_a_removal nat 2 3 64 false unit
           (observing (Nat.eqb 2) (fun (u : unit) (_ : nat) => u))
           RemoveOne tt (@nil nat) ex_full 9).
  - split; reflexivity.
  - apply le_n.
  - vm_compute. apply le_n.
Defined.

Lemma operations_on_an_empty_container_witness :
  isEmpty false (Multiset_new nat 2) = true /\
  removeWhere false (observing (Nat.eqb 2) (fun (n : nat) (_ : nat) => S n))
    RemoveAll 0 ex_pool (Multiset_new nat 2) = (Multiset_new nat 2, ex_pool, 0) /\
  getByIndex false 0 (Multiset_new nat 2) = (None, Multiset_new nat 2).
Proof.
  destruct (operations_on_an_empty_container nat (A:=list nat) 2 false
              (Multiset_new nat 2)) as (Hnew & Hops).
  destruct (Hops Hnew) as (_ & Hrm & Hidx & _).
  split; [exact Hnew | split].
  - apply Hrm.
  - apply Hidx.
Defined.

Lemma emplace_prefers_the_static_array_witness :
  (exists i, emplace 3 64 false 9 ex_pool ex_m =
               (Some (StaticSlot i),
                {| list_ := list_ ex_m;
                   static_ := update_nth (fun _ => Some 9) (static_ ex_m) i |},
                ex_pool)) /\
  static_ (snd (fst (emplace 3 64 true 9 ex_pool ex_m))) = static_ ex_m.
Proof.
  split.
  - destruct (proj1 (emplace_prefers_the_static_array nat 3 64 false 9 ex_pool ex_m)
                eq_refl eq_refl) as (i & _ & Hi).
    exists i. exact Hi.
  - apply (proj2 (emplace_prefers_the_static_array nat 3 64 true 9 ex_pool ex_m)
             eq_refl).
Defined.

Lemma counters_count_static_and_dynamic_items_witness :
  getNumStaticItems false ex_m = 1%Z /\ getNumDynamicItems ex_m = 2%Z /\
  getSize false ex_m = (getNumStaticItems false ex_m + getNumDynamicItems ex_m)%Z.
Proof.
  assert (ex_m_fits : fits_unsigned false ex_m) by (vm_compute; reflexivity).
  destruct (counters_count_static_and_dynamic_items nat false ex_m ex_m_fits)
    as (Hs & Hd & _ & _ & Hsum).
  split; [rewrite Hs; reflexivity | split; [rewrite Hd; reflexivity | exact Hsum]].
Defined.

Lemma removeAll_removes_every_equal_element_witness :
  elements false (fst (removeAll false Nat.eqb 0 (RefOutside 2) ex_pool ex_alias)) =
    [0; 0] /\
  elements false
    (fst (removeAll false Nat.eqb 0 (RefItem nat (StaticSlot 0)) ex_pool ex_alias)) =
    [2; 2] /\
  removeAll false Nat.eqb 0 (RefItem nat (StaticSlot 0)) ex_pool ex_alias =
    ({| list_ := [{| block := 7; items := [Some 2; None; Some 2] |}];
        static_ := [None; None] |}, ex_pool) /\
  elements false
    (fst (removeAll false Nat.eqb 0 (RefItem nat (ChunkSlot 0 2)) ex_pool ex_alias)) =
    [0; 0] /\
  elements false
    (fst (removeAll false Nat.eqb 0 (RefItem nat (StaticSlot 1)) ex_pool ex_m)) =
    [1; 2; 2].
Proof.
  destruct (removeAll_removes_every_equal_element nat false Nat.eqb 0 ex_pool ex_alias)
    as (Hout & Hitem & _).
  destruct (removeAll_removes_every_equal_element nat false Nat.eqb 0 ex_pool ex_m)
    as (_ & _ & Hfree).
  split; [|split; [|split; [|split]]].
  - rewrite (proj1 (Hout 2)). reflexivity.
  - rewrite (Hitem (StaticSlot 0) 2 0 eq_refl). reflexivity.
  - reflexivity.
  - rewrite (Hitem (ChunkSlot 0 2) 2 4 eq_refl). reflexivity.
  - rewrite (Hfree (StaticSlot 1)); [reflexivity|].
    intros x H. vm_compute in H.
    destruct H as [H | [H | [H | []]]]; discriminate H.
Defined.
